(** * The account engine of iota.go: deposit allocation, input selection, send

    A shallow embedding of [account.go] (package [account]).  The account
    talks to injected collaborators (seed provider, store, ledger API, clock,
    plugins, event machine).  Every collaborator call is recorded in a log,
    and the answer of a collaborator is a function of the log at the moment
    of the call, so a collaborator may answer the same question differently
    at different times.  Go panics are an explicit outcome. *)

From Stdlib Require Import ZArith Lia.
From stdpp Require Import base option list sorting gmap strings.

Local Open Scope string_scope.
Local Open Scope Z_scope.

(** ** Data *)

Abbreviation Trytes := string.
Abbreviation Hash := string.
Abbreviation Hashes := (list string).

(** [uint64] arithmetic wraps around. *)
Definition wrap64 (z : Z) : Z := z mod 2 ^ 64.

(** [time.Time] values are instants counted in nanoseconds. *)
Abbreviation Time := Z.
Definition Second : Z := 1000000000.
Definition Minute : Z := 60 * Second.

(** [deposit.Request]: pointers are options. *)
Record Request := {
  TimeoutAt : option Time;
  MultiUse : bool;
  ExpectedAmount : option Z;
}.

(** [deposit.Conditions]. *)
Record Conditions := {
  cond_Request : Request;
  cond_Address : Hash;
}.

(** [store.StoredDepositRequest]: the request with the security level. *)
Record StoredDepositRequest := {
  SecurityLevel : Z;
  stored_Request : Request;
}.

(** [api.Input]. *)
Record Input := {
  Address : Hash;
  KeyIndex : Z;
  Balance : Z;
  Security : Z;
}.

(** [bundle.Transfer], which the account calls [Recipient]. *)
Record Recipient := {
  rcp_Address : Hash;
  rcp_Value : Z;
  rcp_Message : Trytes;
  rcp_Tag : Trytes;
}.
Abbreviation Recipients := (list Recipient).

(** [transaction.Transaction], the fields the account reads.  [Value] is an
    [int64]; [Persistence] is a [*bool]. *)
Record Transaction := {
  tx_Hash : Hash;
  tx_Address : Hash;
  tx_Value : Z;
  tx_Bundle : Hash;
  tx_Persistence : option bool;
}.
Abbreviation Bundle := (list Transaction).

(** [api.PrepareTransfersOptions]. *)
Record PrepareTransfersOptions := {
  opt_Inputs : list Input;
  opt_RemainderAddress : option Hash;
  opt_Timestamp : option Z;
}.

(** [store.AccountState].  [DepositRequests] is a Go map from key index to
    request; it is kept as the list of its entries in the order in which a
    [range] loop visits them, an order Go leaves unspecified.  [IsNew] is the
    answer of the state's [IsNew()] method. *)
Record AccountState := {
  state_KeyIndex : Z;
  DepositRequests : list (Z * StoredDepositRequest);
  state_IsNew : bool;
}.

(** Errors: the sentinels of the package, failures of a collaborator, and
    [errors.Wrap]/[errors.Wrapf] (the format string is kept as written). *)
Inductive error :=
| ErrAccountNotRunning
| ErrEmptyRecipients
| ErrTimeoutNotSpecified
| ErrTimeoutTooLow
| ErrInvalidAddress
| ErrInsufficientBalance
| ErrCollaborator (what : string)
| Wrap (cause : error) (msg : string).

Inductive result (A : Type) :=
| Ok (a : A)
| Err (e : error).
Arguments Ok {A} a.
Arguments Err {A} e.

(** Payloads handed to the event machine. *)
Inductive emitted :=
| EventShutdown
| EventSendingTransfer (bndl : Bundle).

(** ** The log of collaborator calls *)

Inductive effect :=
| MuLock | MuUnlock | MuRLock | MuRUnlock
| SeedProvSeed
| ClockNow
| StoreLoadAccount
| StoreWriteIndex (index : Z)
| StoreAddDepositRequest (index : Z) (r : StoredDepositRequest)
| StoreGetDepositRequests
| StoreAddPendingTransfer (tail : Hash) (trytes : list Trytes) (indices : list Z)
| ApiGetLatestSolidSubtangleMilestone
| ApiGetBalances (addrs : Hashes) (threshold : Z) (tip : Hash)
| ApiGetBundlesFromAddresses (addrs : Hashes)
| ApiCheckConsistency (tail : Hash)
| ApiPrepareTransfers (seed : Trytes) (transfers : list Recipient)
                      (opts : PrepareTransfersOptions)
| ApiGetTransactionsToApprove (depth : Z)
| ApiAttachToTangle (trunk branch : Hash) (mwm : Z) (trytes : list Trytes)
| ApiStoreAndBroadcast (trytes : list Trytes)
| PluginStart
| PluginShutdown
| EmitEvent (ev : emitted).

(** The most recent call comes first. *)
Abbreviation history := (list effect).

(** ** Collaborators *)

Record SeedProvider := {
  Seed : history -> result Trytes;
}.

Record Clock := {
  Now : history -> result Time;
}.

Record Store := {
  LoadAccount : history -> string -> result AccountState;
  WriteIndex : history -> string -> Z -> option error;
  AddDepositRequest : history -> string -> Z -> StoredDepositRequest -> option error;
  GetDepositRequests : history -> string -> result (list (Z * StoredDepositRequest));
  AddPendingTransfer : history -> string -> Hash -> list Trytes -> list Z -> option error;
}.

Record API := {
  GetLatestSolidSubtangleMilestone : history -> result Hash;
  GetBalances : history -> Hashes -> Z -> Hash -> result (list Z);
  GetBundlesFromAddresses : history -> Hashes -> bool -> result (list Bundle);
  CheckConsistency : history -> Hash -> result bool;
  PrepareTransfers :
    history -> Trytes -> list Recipient -> PrepareTransfersOptions -> result (list Trytes);
  GetTransactionsToApprove : history -> Z -> result (Hash * Hash);
  AttachToTangle : history -> Hash -> Hash -> Z -> list Trytes -> result (list Trytes);
  StoreAndBroadcast : history -> list Trytes -> result (list Trytes);
}.

Record Plugin := {
  plugin_Start : history -> option error;
  plugin_Shutdown : history -> option error;
}.

(** The settings carry the selection strategy as a function value;
    [defaultInputSelection] is the one the package defines. *)
Inductive InputSelectionStrategyFunc :=
| DefaultInputSelection.

Record Settings := {
  seedProv : SeedProvider;
  store : Store;
  api : API;
  clock : Clock;
  plugins : list Plugin;
  inputSelectionStrategy : InputSelectionStrategyFunc;
  securityLevel : Z;
  depth : Z;
  mwm : Z;
}.

(** The [account] struct; [mu] shows up as lock and unlock entries of the
    log. *)
Record account := {
  id : string;
  running : bool;
  setts : Settings;
  lastKeyIndex : Z;
}.

(** ** Computations: state, log and panics *)

Record world := {
  w_acc : account;
  w_log : history;
}.

Inductive outcome (A : Type) :=
| Returned (a : A)
| Panicked (msg : string).
Arguments Returned {A} a.
Arguments Panicked {A} msg.

Definition M (A : Type) : Type := world -> outcome A * world.

#[export] Instance M_ret : MRet M := fun A a w => (Returned a, w).

#[export] Instance M_bind : MBind M := fun A B k m w =>
  match m w with
  | (Returned a, w') => k a w'
  | (Panicked msg, w') => (Panicked msg, w')
  end.

Definition panic {A} (msg : string) : M A := fun w => (Panicked msg, w).

Definition getAcc : M account := fun w => (Returned (w_acc w), w).

Definition putAcc (a : account) : M unit :=
  fun w => (Returned tt, {| w_acc := a; w_log := w_log w |}).

(** A collaborator call: the answer is computed from the settings in force
    and the log so far, then the call is logged. *)
Definition perform {A} (e : effect) (f : Settings -> history -> A) : M A :=
  fun w => (Returned (f (setts (w_acc w)) (w_log w)),
            {| w_acc := w_acc w; w_log := e :: w_log w |}).

(** [defer d; body]: [d] runs when [body] is over, also after a panic. *)
Definition defer {A} (d : M unit) (body : M A) : M A :=
  fun w => let '(o, w1) := body w in (o, (d w1).2).

Definition liftOutcome {A} (o : outcome A) : M A := fun w => (o, w).

(** ** The candidates of input selection *)

(** The [selection] struct that [defaultInputSelection] declares. *)
Record selection := {
  keyIndex : Z;
  req : StoredDepositRequest;
}.

(** The four slices the first loop fills. *)
Record candidates := {
  primaryAddrs : Hashes;
  primarySelection : list selection;
  secondaryAddrs : Hashes;
  secondarySelection : list selection;
}.

(** ** The packages signing and address

    A shallow embedding of [signing/sign.go] and [address/address.go].  The
    packages trinary, kerl and checksum are collaborators: their functions
    are taken as they come, and are taken to return.  A slice is the list of
    its elements, with its length as capacity; a slice of a slice that is
    written through is written back into the slice it was cut from. *)

(** The errors of the two packages; [ErrForeign] stands for an error of
    trinary, kerl or checksum. *)
Inductive pkg_error :=
| ErrInvalidAddressLength
| ErrInvalidChecksum
| ErrSeedTrytesLength
| ErrKeyTritsLength
| ErrForeign (what : string).

(** [Trits] is [[]int8]. *)
Abbreviation Trits := (list Z).

(** Conversion to [int8], and [int8] arithmetic, wrap around. *)
Definition int8 (z : Z) : Z := (z + 128) mod 256 - 128.

(** The package trinary. *)
Record Trinary := {
  ValidTrytes : Trytes -> option pkg_error;
  TrytesToTrits : Trytes -> outcome Trits;
  TritsToInt : Trits -> Z;
  IncTrits : Trits -> Trits;
  MustTritsToTrytes : Trits -> outcome Trytes;
}.

(** The package kerl: a sponge.  [Absorb], [Squeeze] and [Reset] change the
    state they are called on. *)
Record Kerl := {
  sponge : Type;
  NewKerl : sponge;
  Absorb : sponge -> Trits -> sponge * option pkg_error;
  Squeeze : sponge -> Z -> Trits * option pkg_error * sponge;
  Reset : sponge -> sponge;
}.

Definition outcome_bind {A B : Type} (k : A -> outcome B) (o : outcome A) : outcome B :=
  match o with
  | Returned a => k a
  | Panicked msg => Panicked msg
  end.

Definition index_range : string := "runtime error: index out of range".
Definition slice_bounds : string := "runtime error: slice bounds out of range".
Definition makeslice_range : string := "runtime error: makeslice: len out of range".

(** [make(Trits, n)]. *)
Definition make (n : Z) : outcome Trits :=
  if n <? 0 then Panicked makeslice_range else Returned (replicate (Z.to_nat n) 0).

(** [s[lo:hi]]. *)
Definition slice (s : Trits) (lo hi : nat) : outcome Trits :=
  if decide (lo <= hi <= length s)%nat then Returned (take (hi - lo) (drop lo s))
  else Panicked slice_bounds.

(** [copy(dst, src)]: the new content of [dst]. *)
Definition copy (dst src : Trits) : Trits :=
  (take (length dst) src ++ drop (length src) dst)%list.

(** [for k := 0; k < n; k++ { dst[off+k] = src[k] }], started at [k]. *)
Fixpoint put_each (n k off : nat) (dst src : Trits) : outcome Trits :=
  match n with
  | O => Returned dst
  | S n' =>
      match src !! k with
      | None => Panicked index_range
      | Some v =>
          if decide (off + k < length dst)%nat
          then put_each n' (S k) off (<[(off + k)%nat := v]> dst) src
          else Panicked index_range
      end
  end.

Module signing.

#[local] Instance outcome_mret : MRet outcome := fun A a => Returned a.
#[local] Instance outcome_mbind : MBind outcome := @outcome_bind.

Section Signing.

Variable trinary : Trinary.
Variable kerl : Kerl.

(** [KeyFragmentLength], 6561 trits: 27 segments of 243. *)
Definition KeyFragmentLength : nat := 27 * 243.
(** [curl.HashSize], and [TritHashLength] and [Radix] of trinary. *)
Definition HashSize : Z := 243.
Definition TritHashLength : Z := 243.
Definition Radix : Z := 3.

Definition SecurityLevelLow : Z := 1.
Definition SecurityLevelMedium : Z := 2.
Definition SecurityLevelHigh : Z := 3.

(** [Subseed]. *)
Definition Subseed (seed : Trytes) (index : Z) : outcome (Trits * option pkg_error) :=
  match ValidTrytes trinary seed with
  | Some err => Returned ([], Some err)
  | None =>
      if negb (Z.of_nat (String.length seed) =? TritHashLength / Radix)
      then Returned ([], Some ErrSeedTrytesLength)
      else
        incrementedSeed ← TrytesToTrits trinary seed;
        let incrementedSeed := Nat.iter (Z.to_nat index) (IncTrits trinary) incrementedSeed in
        let '(k, err) := Absorb kerl (NewKerl kerl) incrementedSeed in
        match err with
        | Some err => Returned ([], Some err)
        | None =>
            let '(subseed, err, _) := Squeeze kerl k HashSize in
            match err with
            | Some err => Returned ([], Some err)
            | None => Returned (subseed, None)
            end
        end
  end.

(** [Key]: the loop over [j], started at [j], and the loop over [i]. *)
Fixpoint Key_segments (n j i : nat) (k : sponge kerl) (key : Trits)
  : outcome (Trits * option pkg_error * sponge kerl) :=
  match n with
  | O => Returned (key, None, k)
  | S n' =>
      let '(b, err, k) := Squeeze kerl k HashSize in
      match err with
      | Some err => Returned ([], Some err, k)
      | None =>
          let off := ((i * 27 + j) * 243)%nat in
          if decide (off <= length key)%nat
          then Key_segments n' (S j) i k (take off key ++ copy (drop off key) b)%list
          else Panicked slice_bounds
      end
  end.

Fixpoint Key_fragments (n i : nat) (k : sponge kerl) (key : Trits)
  : outcome (Trits * option pkg_error) :=
  match n with
  | O => Returned (key, None)
  | S n' =>
      r ← Key_segments 27 0 i k key;
      match r with
      | (_, Some err, _) => Returned ([], Some err)
      | (key, None, k) => Key_fragments n' (S i) k key
      end
  end.

Definition Key (subseed : Trits) (securityLevel : Z) : outcome (Trits * option pkg_error) :=
  let '(k, err) := Absorb kerl (NewKerl kerl) subseed in
  match err with
  | Some err => Returned ([], Some err)
  | None =>
      key ← make (HashSize * 27 * securityLevel);
      Key_fragments (Z.to_nat securityLevel) 0 k key
  end.

(** [Digests].  The 26 rounds on a segment: the error of [Absorb] is not
    looked at. *)
Fixpoint Digests_rounds (n : nat) (buf : Trits) : Trits * option pkg_error :=
  match n with
  | O => (buf, None)
  | S n' =>
      let '(k, _) := Absorb kerl (NewKerl kerl) buf in
      let '(buf, err, _) := Squeeze kerl k HashSize in
      match err with
      | Some err => (buf, Some err)
      | None => Digests_rounds n' buf
      end
  end.

(** The loop over the segments of a key fragment, started at [j]: the
    fragment and the buffer as the loop leaves them. *)
Fixpoint Digests_segments (n j : nat) (keyFragment buf : Trits)
  : outcome (Trits * Trits * option pkg_error) :=
  match n with
  | O => Returned (keyFragment, buf, None)
  | S n' =>
      segment ← slice keyFragment (j * 243) ((j + 1) * 243);
      let buf := copy buf segment in
      match Digests_rounds 26 buf with
      | (buf, Some err) => Returned (keyFragment, buf, Some err)
      | (buf, None) =>
          keyFragment ← put_each 243 0 (j * 243) keyFragment buf;
          Digests_segments n' (S j) keyFragment buf
      end
  end.

(** The loop over the fragments, started at [i].  The key fragment is a
    slice of the key, so what is written to it is written to the key: the
    second component is the key as the call leaves it. *)
Fixpoint Digests_fragments (n i : nat) (key digests buf : Trits)
  : outcome (Trits * option pkg_error * Trits) :=
  match n with
  | O => Returned (digests, None, key)
  | S n' =>
      keyFragment ← slice key (i * KeyFragmentLength) ((i + 1) * KeyFragmentLength);
      r ← Digests_segments 27 0 keyFragment buf;
      let '(keyFragment, buf, err) := r in
      let key := (take (i * KeyFragmentLength) key ++ keyFragment
                  ++ drop ((i + 1) * KeyFragmentLength) key)%list in
      match err with
      | Some err => Returned ([], Some err, key)
      | None =>
          let '(k, err) := Absorb kerl (NewKerl kerl) keyFragment in
          match err with
          | Some err => Returned ([], Some err, key)
          | None =>
              let '(digest, err, _) := Squeeze kerl k HashSize in
              match err with
              | Some err => Returned ([], Some err, key)
              | None =>
                  digests ← put_each 243 0 (i * 243) digests digest;
                  Digests_fragments n' (S i) key digests buf
              end
          end
      end
  end.

(** The number of fragments is the length of the key divided by 6561,
    rounded down. *)
Definition Digests (key : Trits) : outcome (Trits * option pkg_error * Trits) :=
  let fragments := (length key / KeyFragmentLength)%nat in
  Digests_fragments fragments 0 key (replicate (fragments * 243) 0) (replicate 243 0).

(** [Address]. *)
Definition Address (digests : Trits) : Trits * option pkg_error :=
  let '(k, err) := Absorb kerl (NewKerl kerl) digests in
  match err with
  | Some err => ([], Some err)
  | None => (Squeeze kerl k HashSize).1
  end.

(** [SignatureFragment]: the rounds on a segment, on the one sponge [k]. *)
Fixpoint SignatureFragment_rounds (n : nat) (k : sponge kerl) (hash : Trits)
  : Trits * option pkg_error * sponge kerl :=
  match n with
  | O => (hash, None, k)
  | S n' =>
      let k := Reset kerl k in
      let '(k, err) := Absorb kerl k hash in
      match err with
      | Some err => (hash, Some err, k)
      | None =>
          let '(hash, err, k) := Squeeze kerl k 243 in
          match err with
          | Some err => (hash, Some err, k)
          | None => SignatureFragment_rounds n' k hash
          end
      end
  end.

Fixpoint SignatureFragment_segments (n i : nat) (normalizedBundleFragments : Trits)
    (k : sponge kerl) (sigFrag : Trits) : outcome (Trits * option pkg_error) :=
  match n with
  | O => Returned (sigFrag, None)
  | S n' =>
      hash ← slice sigFrag (i * 243) ((i + 1) * 243);
      match normalizedBundleFragments !! i with
      | None => Panicked index_range
      | Some v =>
          let to := int8 (13 - v) in
          match SignatureFragment_rounds (Z.to_nat to) k hash with
          | (_, Some err, _) => Returned ([], Some err)
          | (hash, None, k) =>
              sigFrag ← put_each 243 0 (i * 243) sigFrag hash;
              SignatureFragment_segments n' (S i) normalizedBundleFragments k sigFrag
          end
      end
  end.

Definition SignatureFragment (normalizedBundleFragments keyFragment : Trits)
  : outcome (Trits * option pkg_error) :=
  let sigFrag := copy (replicate (length keyFragment) 0) keyFragment in
  SignatureFragment_segments 27 0 normalizedBundleFragments (NewKerl kerl) sigFrag.

(** [Digest]: the rounds on a segment, each on a new sponge. *)
Fixpoint Digest_rounds (n : nat) (buf : Trits) : Trits * option pkg_error :=
  match n with
  | O => (buf, None)
  | S n' =>
      let '(kk, err) := Absorb kerl (NewKerl kerl) buf in
      match err with
      | Some err => (buf, Some err)
      | None =>
          let '(buf, err, _) := Squeeze kerl kk HashSize in
          match err with
          | Some err => (buf, Some err)
          | None => Digest_rounds n' buf
          end
      end
  end.

Fixpoint Digest_segments (n i : nat) (normalizedBundleHashFragment signatureFragment : Trits)
    (k : sponge kerl) (buf : Trits) : outcome (Trits * option pkg_error) :=
  match n with
  | O => Returned (Squeeze kerl k HashSize).1
  | S n' =>
      segment ← slice signatureFragment (i * 243) ((i + 1) * 243);
      let buf := copy buf segment in
      match normalizedBundleHashFragment !! i with
      | None => Panicked index_range
      | Some v =>
          match Digest_rounds (Z.to_nat (int8 (v + 13))) buf with
          | (_, Some err) => Returned ([], Some err)
          | (buf, None) =>
              let '(k, err) := Absorb kerl k buf in
              match err with
              | Some err => Returned ([], Some err)
              | None =>
                  Digest_segments n' (S i) normalizedBundleHashFragment signatureFragment
                    k buf
              end
          end
      end
  end.

Definition Digest (normalizedBundleHashFragment signatureFragment : Trits)
  : outcome (Trits * option pkg_error) :=
  Digest_segments 27 0 normalizedBundleHashFragment signatureFragment (NewKerl kerl)
    (replicate 243 0).

(** [NormalizedBundleHash].  [string(b)] of a byte [b] is the UTF-8 encoding
    of the code point [b]. *)
Definition string_of_byte (b : Ascii.ascii) : string :=
  let n := Ascii.nat_of_ascii b in
  if (n <? 128)%nat then String b ""
  else String (Ascii.ascii_of_nat (192 + n / 64)) (String (Ascii.ascii_of_nat (128 + n mod 64)) "").

(** The loop that fills chunk [i], started at [j]. *)
Fixpoint NormalizedBundleHash_fill (n j i : nat) (bundleHash : Hash)
    (normalizedBundle : Trits) (sum : Z) : outcome (Trits * Z) :=
  match n with
  | O => Returned (normalizedBundle, sum)
  | S n' =>
      match String.get (i * 27 * j) bundleHash with
      | None => Panicked index_range
      | Some b =>
          trits ← TrytesToTrits trinary (string_of_byte b);
          let v := int8 (TritsToInt trinary trits) in
          if decide (i * 27 + j < length normalizedBundle)%nat
          then NormalizedBundleHash_fill n' (S j) i bundleHash
                 (<[(i * 27 + j)%nat := v]> normalizedBundle) (sum + v)
          else Panicked index_range
      end
  end.

(** The loops over [j] that lower, or raise, the first digit of chunk [i]
    that is above -13, or below 13. *)
Fixpoint lower_first (n j i : nat) (normalizedBundle : Trits) : outcome Trits :=
  match n with
  | O => Returned normalizedBundle
  | S n' =>
      match normalizedBundle !! (i * 27 + j)%nat with
      | None => Panicked index_range
      | Some v =>
          if v >? -13
          then Returned (<[(i * 27 + j)%nat := int8 (v - 1)]> normalizedBundle)
          else lower_first n' (S j) i normalizedBundle
      end
  end.

Fixpoint raise_first (n j i : nat) (normalizedBundle : Trits) : outcome Trits :=
  match n with
  | O => Returned normalizedBundle
  | S n' =>
      match normalizedBundle !! (i * 27 + j)%nat with
      | None => Panicked index_range
      | Some v =>
          if v <? 13
          then Returned (<[(i * 27 + j)%nat := int8 (v + 1)]> normalizedBundle)
          else raise_first n' (S j) i normalizedBundle
      end
  end.

(** [for ; sum > 0; sum--] and [for ; sum < 0; sum++], as many rounds as
    [sum] is away from zero. *)
Fixpoint repeat_rounds (n : nat) (round : Trits -> outcome Trits) (normalizedBundle : Trits)
  : outcome Trits :=
  match n with
  | O => Returned normalizedBundle
  | S n' =>
      normalizedBundle ← round normalizedBundle;
      repeat_rounds n' round normalizedBundle
  end.

Definition NormalizedBundleHash_chunk (i : nat) (bundleHash : Hash) (normalizedBundle : Trits)
  : outcome Trits :=
  r ← NormalizedBundleHash_fill 27 0 i bundleHash normalizedBundle 0;
  let '(normalizedBundle, sum) := r in
  if sum >=? 0
  then repeat_rounds (Z.to_nat sum) (lower_first 27 0 i) normalizedBundle
  else repeat_rounds (Z.to_nat (- sum)) (raise_first 27 0 i) normalizedBundle.

Fixpoint NormalizedBundleHash_chunks (n i : nat) (bundleHash : Hash)
    (normalizedBundle : Trits) : outcome Trits :=
  match n with
  | O => Returned normalizedBundle
  | S n' =>
      normalizedBundle ← NormalizedBundleHash_chunk i bundleHash normalizedBundle;
      NormalizedBundleHash_chunks n' (S i) bundleHash normalizedBundle
  end.

Definition NormalizedBundleHash (bundleHash : Hash) : outcome Trits :=
  NormalizedBundleHash_chunks 3 0 bundleHash (replicate 243 0).

(** [ValidateSignatures]: the loop that assigns the three fragments of the
    normalized bundle hash, started at [i], to the slice of fragments. *)
Fixpoint ValidateSignatures_split (n i : nat) (normalizeBundleHash : Trits)
    (normalizedBundleHashFragments : list Trits) : outcome (list Trits) :=
  match n with
  | O => Returned normalizedBundleHashFragments
  | S n' =>
      fragment ← slice normalizeBundleHash (i * 27) ((i + 1) * 27);
      if decide (i < length normalizedBundleHashFragments)%nat
      then ValidateSignatures_split n' (S i) normalizeBundleHash
             (<[i := fragment]> normalizedBundleHashFragments)
      else Panicked index_range
  end.

Fixpoint ValidateSignatures_digests (n i : nat) (normalizedBundleHashFragments : list Trits)
    (fragments : list Trytes) (digests : Trits) : outcome (Trits * option pkg_error) :=
  match n with
  | O => Returned (digests, None)
  | S n' =>
      match normalizedBundleHashFragments !! (i mod 3)%nat with
      | None => Panicked index_range
      | Some normalized =>
          match fragments !! i with
          | None => Panicked index_range
          | Some fragment =>
              signatureFragment ← TrytesToTrits trinary fragment;
              r ← Digest normalized signatureFragment;
              match r with
              | (_, Some err) => Returned ([], Some err)
              | (digest, None) =>
                  digests ← put_each 243 0 (i * 243) digests digest;
                  ValidateSignatures_digests n' (S i) normalizedBundleHashFragments
                    fragments digests
              end
          end
      end
  end.

Definition ValidateSignatures (expectedAddress : Hash) (fragments : list Trytes)
    (bundleHash : Hash) : outcome (bool * option pkg_error) :=
  normalizeBundleHash ← NormalizedBundleHash bundleHash;
  normalizedBundleHashFragments ← ValidateSignatures_split 3 0 normalizeBundleHash [];
  r ← ValidateSignatures_digests (length fragments) 0 normalizedBundleHashFragments
        fragments (replicate (length fragments * 243) 0);
  match r with
  | (_, Some err) => Returned (false, Some err)
  | (digests, None) =>
      match Address digests with
      | (_, Some err) => Returned (false, Some err)
      | (addressTrits, None) =>
          address ← MustTritsToTrytes trinary addressTrits;
          Returned (String.eqb expectedAddress address, None)
      end
  end.

End Signing.

End signing.

Module address.

#[local] Instance outcome_mret : MRet outcome := fun A a => Returned a.
#[local] Instance outcome_mbind : MBind outcome := @outcome_bind.

Section Address.

Variable trinary : Trinary.
Variable kerl : Kerl.

(** [checksum.AddChecksum]. *)
Variable AddChecksum : Trytes -> bool -> Z -> Trytes * option pkg_error.

(** [for len(seed)%81 != 0 { seed += "9" }], for at most [fuel] rounds. *)
Fixpoint pad (fuel : nat) (seed : Trytes) : Trytes :=
  match fuel with
  | O => seed
  | S fuel' =>
      if (String.length seed mod 81 =? 0)%nat then seed
      else pad fuel' (String.append seed "9")
  end.

(** [GenerateAddress]; [addChecksum] is the list of the variadic
    arguments. *)
Definition GenerateAddress (seed : Trytes) (index : Z) (secLvl : Z) (addChecksum : list bool)
  : outcome (Hash * option pkg_error) :=
  let seed := pad 81 seed in
  let secLvl := if secLvl =? 0 then signing.SecurityLevelMedium else secLvl in
  r ← signing.Subseed trinary kerl seed index;
  match r with
  | (_, Some err) => Returned ("", Some err)
  | (subseed, None) =>
      r ← signing.Key kerl subseed secLvl;
      match r with
      | (_, Some err) => Returned ("", Some err)
      | (prvKey, None) =>
          r ← signing.Digests kerl prvKey;
          match r with
          | (_, Some err, _) => Returned ("", Some err)
          | (digests, None, _) =>
              match signing.Address kerl digests with
              | (_, Some err) => Returned ("", Some err)
              | (addressTrits, None) =>
                  address ← MustTritsToTrytes trinary addressTrits;
                  match addChecksum with
                  | true :: _ => Returned (AddChecksum address true 9)
                  | _ => Returned (address, None)
                  end
              end
          end
      end
  end.

(** [GenerateAddresses]: the loop, started at [i].  The allocation of the
    slice is taken to succeed when the count is an [int]. *)
Fixpoint GenerateAddresses_loop (n : nat) (i : Z) (seed : Trytes) (start : Z) (secLvl : Z)
    (withChecksum : bool) (addresses : Hashes) : outcome (Hashes * option pkg_error) :=
  match n with
  | O => Returned (addresses, None)
  | S n' =>
      r ← GenerateAddress seed (wrap64 (start + i)) secLvl [withChecksum];
      let '(addr, err) := r in
      if decide (Z.to_nat i < length addresses)%nat
      then
        match err with
        | Some err => Returned ([], Some err)
        | None =>
            GenerateAddresses_loop n' (i + 1) seed start secLvl withChecksum
              (<[Z.to_nat i := addr]> addresses)
        end
      else Panicked index_range
  end.

Definition GenerateAddresses (seed : Trytes) (start count : Z) (secLvl : Z)
    (addChecksum : list bool) : outcome (Hashes * option pkg_error) :=
  if count >=? 2 ^ 63 then Panicked makeslice_range
  else
    let addresses := replicate (Z.to_nat count) "" in
    let withChecksum := match addChecksum with true :: _ => true | _ => false end in
    GenerateAddresses_loop (Z.to_nat count) 0 seed start secLvl withChecksum addresses.

(** [ValidAddressHash]. *)
Definition ValidAddressHash (a : Hash) : option pkg_error :=
  if negb (String.length a =? 81)%nat then Some ErrInvalidAddressLength
  else ValidTrytes trinary a.

(** [Checksum]. *)
Definition Checksum (address : Hash) : outcome (Trytes * option pkg_error) :=
  if (String.length address <? 81)%nat then Returned ("", Some ErrInvalidAddressLength)
  else
    match AddChecksum (String.substring 0 81 address) true 9 with
    | (_, Some err) => Returned ("", Some err)
    | (addressWithChecksum, None) =>
        if (81 <=? String.length addressWithChecksum)%nat
        then Returned (String.substring (81 - 9) 9 addressWithChecksum, None)
        else Panicked slice_bounds
    end.

(** [ValidChecksum]. *)
Definition ValidChecksum (address : Hash) (checksum : Trytes) : outcome (option pkg_error) :=
  r ← Checksum address;
  match r with
  | (_, Some err) => Returned (Some err)
  | (actualChecksum, None) =>
      if negb (String.eqb checksum actualChecksum) then Returned (Some ErrInvalidChecksum)
      else Returned None
  end.

End Address.

End address.

(** *** Vocabulary of the properties of the packages *)

Definition int8_range (v : Z) : Prop := -128 <= v <= 127.

(** The values of a tryte. *)
Definition tryte_range (v : Z) : Prop := -13 <= v <= 13.

Definition digit_sum (l : Trits) : Z := foldr Z.add 0 l.

(** The first digit above -13 lowered by one, the first digit below 13
    raised by one. *)
Fixpoint lowered (l : Trits) : Trits :=
  match l with
  | [] => []
  | v :: rest => if v >? -13 then int8 (v - 1) :: rest else v :: lowered rest
  end.

Fixpoint raised (l : Trits) : Trits :=
  match l with
  | [] => []
  | v :: rest => if v <? 13 then int8 (v + 1) :: rest else v :: raised rest
  end.

(** A string of [n] nines. *)
Fixpoint filler (n : nat) : string :=
  match n with
  | O => ""
  | S n => String.append "9" (filler n)
  end.

(** The seed as [GenerateAddress] pads it, and the security level it
    uses. *)
Definition padded (seed : Trytes) : Trytes :=
  String.append seed (filler ((81 - String.length seed mod 81) mod 81)).

Definition level_used (secLvl : Z) : Z := if secLvl =? 0 then 2 else secLvl.

(** The first of the variadic flags, false when there is none. *)
Definition first_flag (flags : list bool) : bool :=
  match flags with
  | true :: _ => true
  | _ => false
  end.

(** One round of hashing: a new sponge absorbs the buffer and 243 trits are
    squeezed out of it. *)
Definition hashed (kerl : Kerl) (buf : Trits) : Trits :=
  (Squeeze kerl (Absorb kerl (NewKerl kerl) buf).1 243).1.1.

(** The first [n] segments of 243 trits. *)
Fixpoint segments (n : nat) (l : Trits) : list Trits :=
  match n with
  | O => []
  | S n => take 243 l :: segments n (drop 243 l)
  end.

(** A sponge that works: it absorbs whole blocks of 243 trits without error
    and squeezes 243 trits without error. *)
Definition never_fails (kerl : Kerl) : Prop :=
  (forall k t, (length t mod 243 = 0)%nat -> (Absorb kerl k t).2 = None) /\
  (forall k, (Squeeze kerl k 243).1.2 = None) /\
  (forall k, length (Squeeze kerl k 243).1.1 = 243%nat).

(** A sponge that has been reset is a new sponge. *)
Definition resets (kerl : Kerl) : Prop := forall k, Reset kerl k = NewKerl kerl.

(** Absorbing a block of 243 trits and then more is absorbing both at
    once. *)
Definition absorbs_blockwise (kerl : Kerl) : Prop :=
  forall k a b,
    length a = 243%nat ->
    (Absorb kerl k (a ++ b)%list).1 = (Absorb kerl (Absorb kerl k a).1 b).1.

(** The segments of a signature fragment: segment [i] of the key fragment,
    hashed [13 - v] times for the digit [v] at position [i]. *)
Definition signed_segments (kerl : Kerl) (digits : Trits) (keyFragment : Trits)
  : list Trits :=
  zip_with (fun v segment => Nat.iter (Z.to_nat (13 - v)) (hashed kerl) segment)
    digits (segments 27 keyFragment).

(** The segments of a key fragment as [Digests] leaves them: each one hashed
    26 times. *)
Definition hashed_segments (kerl : Kerl) (keyFragment : Trits) : list Trits :=
  Nat.iter 26 (hashed kerl) <$> segments 27 keyFragment.

(** ** Concrete collaborators for the examples *)

Module Fixture.

(** Addresses are named after the key index. *)
Definition GenerateAddress (seed : Trytes) (index : Z) (secLvl : Z) (addChecksum : bool)
  : Hash * option error :=
  (if index =? 1 then "A" else if index =? 2 then "B"
   else if index =? 3 then "C" else "D", None).

Definition IsTrytesOfExactLength (t : Trytes) (n : Z) : bool :=
  bool_decide (Z.of_nat (String.length t) = n).

Definition AsTransactionObject (t : Trytes) : result Transaction :=
  Ok {| tx_Hash := t; tx_Address := ""; tx_Value := 0; tx_Bundle := "";
        tx_Persistence := None |}.

Definition AsTransactionObjects (ts : list Trytes) : result Bundle :=
  Ok (map (fun t => {| tx_Hash := t; tx_Address := ""; tx_Value := 0; tx_Bundle := "";
                       tx_Persistence := None |}) ts).

(** A ledger and a store that always answer: the store holds [reqs], the
    ledger reports [balances] for any query, [bundles] for an address and
    [consistent] for a tail hash, and the clock shows [now]. *)
Definition settings (reqs : list (Z * StoredDepositRequest)) (now : Time)
    (balances : result (list Z)) (bundles : Hash -> result (list Bundle))
    (consistent : Hash -> result bool) : Settings :=
  {| seedProv := {| Seed := fun _ => Ok "SEED" |};
     store := {| LoadAccount := fun _ _ =>
                   Ok {| state_KeyIndex := 0; DepositRequests := reqs;
                         state_IsNew := bool_decide (reqs = []) |};
                 WriteIndex := fun _ _ _ => None;
                 AddDepositRequest := fun _ _ _ _ => None;
                 GetDepositRequests := fun _ _ => Ok reqs;
                 AddPendingTransfer := fun _ _ _ _ _ => None |};
     api := {| GetLatestSolidSubtangleMilestone := fun _ => Ok "MILESTONE";
               GetBalances := fun _ _ _ _ => balances;
               GetBundlesFromAddresses := fun _ addrs _ =>
                 match addrs with
                 | [addr] => bundles addr
                 | _ => Ok []
                 end;
               CheckConsistency := fun _ tail => consistent tail;
               PrepareTransfers := fun _ _ _ _ => Ok ["BUNDLE"];
               GetTransactionsToApprove := fun _ _ => Ok ("TRUNK", "BRANCH");
               AttachToTangle := fun _ _ _ _ trytes => Ok trytes;
               StoreAndBroadcast := fun _ trytes => Ok trytes |};
     clock := {| Now := fun _ => Ok now |};
     plugins := [];
     inputSelectionStrategy := DefaultInputSelection;
     securityLevel := 2;
     depth := 3;
     mwm := 14 |}.

Definition account_of (s : Settings) (is_running : bool) (last : Z) : account :=
  {| id := "ID"; running := is_running; setts := s; lastKeyIndex := last |}.

Definition world_of (s : Settings) (is_running : bool) (last : Z) : world :=
  {| w_acc := account_of s is_running last; w_log := [] |}.

Definition request (timeout expected : option Z) (multi : bool) : StoredDepositRequest :=
  {| SecurityLevel := 2;
     stored_Request := {| TimeoutAt := timeout; MultiUse := multi;
                          ExpectedAmount := expected |} |}.

Definition no_bundles : Hash -> result (list Bundle) := fun _ => Ok [].

Definition failing_lookup : Hash -> result (list Bundle) :=
  fun _ => Err (ErrCollaborator "bundle lookup failed").

Definition always_consistent : Hash -> result bool := fun _ => Ok true.


Fixpoint nines (n : nat) : string :=
  match n with
  | O => ""
  | S n => String.append "9" (nines n)
  end.

(** A recipient with an address of 90 trytes. *)
Definition recipient (value : Z) : Recipient :=
  {| rcp_Address := nines 90; rcp_Value := value; rcp_Message := ""; rcp_Tag := "" |}.

Definition selection_of (index : Z) (r : StoredDepositRequest) : selection :=
  {| keyIndex := index; req := r |}.

(** The example of the specification: A holds 40, B holds 70, neither has a
    timeout or an expected amount. *)
Definition spec_example : world :=
  world_of (settings [(1, request None None false); (2, request None None false)]
              1000 (Ok [40; 70]) no_bundles always_consistent) true 2.

(** The same addresses as remainders that expect 40 and 70. *)
Definition funded_requests : list (Z * StoredDepositRequest) :=
  [(1, request None (Some 40) false); (2, request None (Some 70) false)].

Definition funded : world :=
  world_of (settings funded_requests 1000 (Ok [40; 70]) no_bundles always_consistent) true 2.

Definition funded_candidates : candidates :=
  {| primaryAddrs := ["A"; "B"];
     primarySelection := [selection_of 1 (request None (Some 40) false);
                          selection_of 2 (request None (Some 70) false)];
     secondaryAddrs := []; secondarySelection := [] |}.

(** A holds 40 and is not timed out; B and C are timed out, B is empty and
    has no bundles, C holds 50. *)
Definition mixed_requests : list (Z * StoredDepositRequest) :=
  [(1, request (Some 2000) None false); (2, request (Some 500) None false);
   (3, request (Some 500) None false)].

Definition mixed : world :=
  world_of (settings mixed_requests 1000 (Ok [40; 0; 50]) no_bundles always_consistent) true 3.

Definition mixed_candidates : candidates :=
  {| primaryAddrs := ["A"];
     primarySelection := [selection_of 1 (request (Some 2000) None false)];
     secondaryAddrs := ["B"; "C"];
     secondarySelection := [selection_of 2 (request (Some 500) None false);
                            selection_of 3 (request (Some 500) None false)] |}.

(** The same account when the bundle lookup fails. *)
Definition mixed_failing_lookup : world :=
  world_of (settings mixed_requests 1000 (Ok [40; 0; 50]) failing_lookup always_consistent)
    true 3.

(** A stopped account. *)
Definition stopped : world :=
  world_of (settings [] 1000 (Ok []) no_bundles always_consistent) false 0.



Definition fresh : world :=
  world_of (settings [] 1000 (Ok []) no_bundles always_consistent) true 2.

Definition timeout_request (timeout : option Time) : Request :=
  {| TimeoutAt := timeout; MultiUse := false; ExpectedAmount := None |}.

(** Bundles on address A: an unconfirmed attachment R and a confirmed
    attachment C of the bundle B1, and an unconfirmed bundle B2. *)
Definition attachment (hash bundle : Hash) (included : bool) : Bundle :=
  [{| tx_Hash := hash; tx_Address := "A"; tx_Value := 5; tx_Bundle := bundle;
      tx_Persistence := Some included |}].

Definition reattachment_first : list Bundle :=
  [attachment "R" "B1" false; attachment "C" "B1" true].

Definition confirmed_first : list Bundle :=
  [attachment "C" "B1" true; attachment "R" "B1" false; attachment "U" "B2" false].

Definition with_bundles (bndls : list Bundle) : world :=
  world_of (settings [] 1000 (Ok []) (fun _ => Ok bndls) always_consistent) true 2.

(** A is not timed out and empty, B is not timed out and holds 70. *)
Definition empty_then_funded : world :=
  world_of (settings [(1, request (Some 2000) None false); (2, request (Some 2000) None false)]
              1000 (Ok [0; 70]) no_bundles always_consistent) true 2.

(** The funded account when the store lists B before A. *)
Definition listed_backwards : world :=
  world_of (settings [(2, request None (Some 70) false); (1, request None (Some 40) false)]
              1000 (Ok [70; 40]) no_bundles always_consistent) true 2.

(** Plugins that start and shut down, and plugins that fail at one of the
    two. *)
Definition steady : Plugin :=
  {| plugin_Start := fun _ => None; plugin_Shutdown := fun _ => None |}.

Definition no_start : Plugin :=
  {| plugin_Start := fun _ => Some (ErrCollaborator "plugin does not start");
     plugin_Shutdown := fun _ => None |}.

Definition no_shutdown : Plugin :=
  {| plugin_Start := fun _ => None;
     plugin_Shutdown := fun _ => Some (ErrCollaborator "plugin does not shut down") |}.

Definition with_plugins (ps : list Plugin) (s : Settings) : Settings :=
  {| seedProv := seedProv s; store := store s; api := api s; clock := clock s;
     plugins := ps; inputSelectionStrategy := inputSelectionStrategy s;
     securityLevel := securityLevel s; depth := depth s; mwm := mwm s |}.

Definition plain : Settings := settings [] 1000 (Ok []) no_bundles always_consistent.

(** A running account with two plugins, the second of which fails to shut
    down, and a stopped one whose second plugin fails to start. *)
Definition stuck : world := world_of (with_plugins [steady; no_shutdown] plain) true 2.

Definition unstartable : world := world_of (with_plugins [steady; no_start] plain) false 5.

Definition funded_state : AccountState :=
  {| state_KeyIndex := 0; DepositRequests := funded_requests; state_IsNew := false |}.

(** A recipient whose address lacks the checksum. *)
Definition short_recipient : Recipient :=
  {| rcp_Address := nines 81; rcp_Value := 5; rcp_Message := ""; rcp_Tag := "" |}.

(** A trinary package for the examples: the trytes 9, A to M and N to Z
    stand for 0, 1 to 13 and -13 to -1, a tryte is three balanced trits, the
    least significant first. *)
Definition tryte_value (c : Ascii.ascii) : option Z :=
  let n := Z.of_nat (Ascii.nat_of_ascii c) in
  if n =? 57 then Some 0
  else if (65 <=? n) && (n <=? 77) then Some (n - 64)
  else if (78 <=? n) && (n <=? 90) then Some (n - 91)
  else None.

Definition trits_of_value (v : Z) : Trits :=
  [(v + 13) mod 3 - 1; (v + 13) / 3 mod 3 - 1; (v + 13) / 9 - 1].

Fixpoint trits_of_trytes (s : string) : outcome Trits :=
  match s with
  | EmptyString => Returned []
  | String c rest =>
      match tryte_value c, trits_of_trytes rest with
      | Some v, Returned trits => Returned (trits_of_value v ++ trits)%list
      | None, _ => Panicked index_range
      | _, Panicked msg => Panicked msg
      end
  end.

Fixpoint int_of_trits (trits : Trits) : Z :=
  match trits with
  | [] => 0
  | t :: rest => t + 3 * int_of_trits rest
  end.

Fixpoint inc_trits (trits : Trits) : Trits :=
  match trits with
  | [] => []
  | t :: rest => if t <? 1 then t + 1 :: rest else -1 :: inc_trits rest
  end.

Definition tryte_of_value (v : Z) : Ascii.ascii :=
  Ascii.ascii_of_nat (Z.to_nat (if v =? 0 then 57 else if 0 <? v then 64 + v else 91 + v)).

Fixpoint trytes_of_trits (trits : Trits) : outcome Trytes :=
  match trits with
  | [] => Returned ""
  | a :: b :: c :: rest =>
      match trytes_of_trits rest with
      | Returned trytes => Returned (String (tryte_of_value (a + 3 * b + 9 * c)) trytes)
      | Panicked msg => Panicked msg
      end
  | _ => Panicked index_range
  end.

Definition trinary : Trinary :=
  {| ValidTrytes := fun _ => None;
     TrytesToTrits := trits_of_trytes;
     TritsToInt := int_of_trits;
     IncTrits := inc_trits;
     MustTritsToTrytes := trytes_of_trits |}.

(** A sponge for the examples: it keeps the trits it has absorbed, and what
    it squeezes depends on their sum and their number. *)
Definition squeezed_trits (k : Trits) (n : Z) : Trits :=
  map (fun i => (digit_sum k + Z.of_nat (length k) + Z.of_nat i * Z.of_nat i) mod 3 - 1)
    (seq 0 (Z.to_nat n)).

Definition kerl : Kerl :=
  {| sponge := Trits;
     NewKerl := [];
     Absorb := fun k trits => ((k ++ trits)%list, None);
     Squeeze := fun k n => (squeezed_trits k n, None, k);
     Reset := fun _ => [] |}.

(** A checksum package that appends nine nines. *)
Definition AddChecksum (input : Trytes) (isAddress : bool) (checksumLength : Z)
  : Trytes * option pkg_error :=
  (String.append input (filler (Z.to_nat checksumLength)), None).

Fixpoint repeated (n : nat) (s : string) : string :=
  match n with
  | O => ""
  | S n => String.append s (repeated n s)
  end.

(** A hash of 1431 trytes. *)
Definition long_hash : Hash := repeated 53 "NOPQRSTUVWXYZ9ABCDEFGHIJKLM".

(** A key fragment and the digits 13, 12, ..., -13. *)
Definition key_fragment : Trits := map (fun i => Z.of_nat (i mod 3) - 1) (seq 0 (27 * 243)).

Definition digits : Trits := map (fun i => 13 - Z.of_nat i) (seq 0 27).

End Fixture.

(** ** The package *)

Section Account.

(** Pure functions of other packages.  [address.GenerateAddress] returns the
    empty hash together with the error when a derivation step fails;
    [guards.IsTrytesOfExactLength], [transaction.AsTransactionObject] and
    [transaction.AsTransactionObjects] are taken as they come. *)
Variable GenerateAddress : Trytes -> Z -> Z -> bool -> Hash * option error.
Variable IsTrytesOfExactLength : Trytes -> Z -> bool.
Variable AsTransactionObject : Trytes -> result Transaction.
Variable AsTransactionObjects : list Trytes -> result Bundle.

#[local] Set Default Proof Using "Type".

Definition HashTrytesSize : Z := 81.
Definition AddressChecksumTrytesSize : Z := 9.

(** [Recipients.Sum]. *)
Fixpoint Sum_from (sum : Z) (recps : Recipients) : Z :=
  match recps with
  | [] => sum
  | target :: rest => Sum_from (wrap64 (sum + rcp_Value target)) rest
  end.

Definition Sum (recps : Recipients) : Z := Sum_from 0 recps.

(** [Recipients.AsTransfers] copies the slice. *)
Definition AsTransfers (recps : Recipients) : list Recipient := recps.

Definition lock : M unit := perform MuLock (fun _ _ => tt).
Definition unlock : M unit := perform MuUnlock (fun _ _ => tt).
Definition rlock : M unit := perform MuRLock (fun _ _ => tt).
Definition runlock : M unit := perform MuRUnlock (fun _ _ => tt).

(** *** Plugins *)

Fixpoint startPlugins_loop (ps : list Plugin) : M (option error) :=
  match ps with
  | [] => mret None
  | p :: rest =>
      r ← perform PluginStart (fun _ h => plugin_Start p h);
      match r with
      | Some err => mret (Some (Wrap err "unable to start plugin %T"))
      | None => startPlugins_loop rest
      end
  end.

Definition startPlugins : M (option error) :=
  acc ← getAcc; startPlugins_loop (plugins (setts acc)).

Fixpoint shutdownPlugins_loop (ps : list Plugin) : M (option error) :=
  match ps with
  | [] => mret None
  | p :: rest =>
      r ← perform PluginShutdown (fun _ h => plugin_Shutdown p h);
      match r with
      | Some err => mret (Some (Wrap err "unable to shutdown plugin %T"))
      | None => shutdownPlugins_loop rest
      end
  end.

Definition shutdownPlugins : M (option error) :=
  acc ← getAcc; shutdownPlugins_loop (plugins (setts acc)).

(** *** Deposit allocation *)

Definition allocateDepositRequest (req : Request) : M (option Conditions * option error) :=
  seed ← perform SeedProvSeed (fun s h => Seed (seedProv s) h);
  match seed with
  | Err err => mret (None, Some err)
  | Ok seed =>
      acc ← getAcc;
      let acc := {| id := id acc; running := running acc; setts := setts acc;
                    lastKeyIndex := wrap64 (lastKeyIndex acc + 1) |} in
      _ ← putAcc acc;
      match GenerateAddress seed (lastKeyIndex acc) (securityLevel (setts acc)) true with
      | (_, Some err) =>
          mret (None, Some (Wrap err "unable to generate address in address gen. function"))
      | (addr, None) =>
          w ← perform (StoreWriteIndex (lastKeyIndex acc))
                (fun s h => WriteIndex (store s) h (id acc) (lastKeyIndex acc));
          match w with
          | Some err =>
              mret (None, Some (Wrap err "unable to store next index (%d) in the store"))
          | None =>
              let storedReq := {| SecurityLevel := securityLevel (setts acc);
                                  stored_Request := req |} in
              a ← perform (StoreAddDepositRequest (lastKeyIndex acc) storedReq)
                    (fun s h => AddDepositRequest (store s) h (id acc)
                                  (lastKeyIndex acc) storedReq);
              match a with
              | Some err => mret (None, Some err)
              | None => mret (Some {| cond_Request := req; cond_Address := addr |}, None)
              end
          end
      end
  end.

Definition AllocateDepositRequest (req : Request) : M (option Conditions * option error) :=
  _ ← lock;
  defer unlock (
    acc ← getAcc;
    if negb (running acc) then mret (None, Some ErrAccountNotRunning) else
    match TimeoutAt req with
    | None => mret (None, Some ErrTimeoutNotSpecified)
    | Some timeoutAt =>
        currentTime ← perform ClockNow (fun s h => Now (clock s) h);
        match currentTime with
        | Err err => mret (None, Some err)
        | Ok currentTime =>
            if timeoutAt + - (5 * Minute) <? currentTime
            then mret (None, Some ErrTimeoutTooLow)
            else allocateDepositRequest req
        end
    end).

(** *** Consistency check of a timed out address *)

(** The inner loop: is some transaction of the bundle a deposit of a positive
    value onto [addr]? *)
Fixpoint isDepositToAddr (addr : Hash) (bndl : Bundle) : bool :=
  match bndl with
  | [] => false
  | tx :: rest =>
      if (tx_Value tx >? 0) && String.eqb (tx_Address tx) addr
      then true
      else isDepositToAddr addr rest
  end.

Definition index_out_of_range : string := "runtime error: index out of range".
Definition nil_dereference : string :=
  "runtime error: invalid memory address or nil pointer dereference".

(** The loop over the bundles; [persisted] is the set of bundle hashes seen
    confirmed so far. *)
Fixpoint hasIncoming_loop (addr : Hash) (bndls : list Bundle) (persisted : gset string)
  : M (bool * option error) :=
  match bndls with
  | [] => mret (false, None)
  | bndl :: rest =>
      match bndl with
      | [] => panic index_out_of_range
      | tail :: _ =>
          match tx_Persistence tail with
          | None => panic nil_dereference
          | Some true => hasIncoming_loop addr rest ({[ tx_Bundle tail ]} ∪ persisted)
          | Some false =>
              if decide (tx_Bundle tail ∈ persisted) then hasIncoming_loop addr rest persisted
              else if negb (isDepositToAddr addr bndl) then hasIncoming_loop addr rest persisted
              else
                c ← perform (ApiCheckConsistency (tx_Hash tail))
                      (fun s h => CheckConsistency (api s) h (tx_Hash tail));
                match c with
                | Err err =>
                    mret (false,
                          Some (Wrap err "unable to check consistency of tx %s in incoming consistent transfer check"))
                | Ok true => mret (true, None)
                | Ok false => hasIncoming_loop addr rest persisted
                end
          end
      end
  end.

Definition hasIncomingConsistentValueTransfer (addr : Hash) : M (bool * option error) :=
  bndls ← perform (ApiGetBundlesFromAddresses [addr])
            (fun s h => GetBundlesFromAddresses (api s) h [addr] true);
  match bndls with
  | Err err => mret (false, Some err)
  | Ok bndls => hasIncoming_loop addr bndls ∅
  end.

(** *** Input selection *)

Definition no_candidates : candidates :=
  {| primaryAddrs := []; primarySelection := [];
     secondaryAddrs := []; secondarySelection := [] |}.

Definition add_primary (addr : Hash) (s : selection) (c : candidates) : candidates :=
  {| primaryAddrs := primaryAddrs c ++ [addr];
     primarySelection := primarySelection c ++ [s];
     secondaryAddrs := secondaryAddrs c;
     secondarySelection := secondarySelection c |}.

Definition add_secondary (addr : Hash) (s : selection) (c : candidates) : candidates :=
  {| primaryAddrs := primaryAddrs c;
     primarySelection := primarySelection c;
     secondaryAddrs := secondaryAddrs c ++ [addr];
     secondarySelection := secondarySelection c ++ [s] |}.

Definition remainder_panic : string :=
  "remainder address in system without 'expected amount'".

(** The loop over all allocated deposit addresses. *)
Fixpoint classify (seed : Trytes) (now : Time)
    (depositRequests : list (Z * StoredDepositRequest)) (c : candidates)
  : outcome candidates :=
  match depositRequests with
  | [] => Returned c
  | (keyIndex, req) :: rest =>
      let addr := (GenerateAddress seed keyIndex (SecurityLevel req) false).1 in
      let s := {| keyIndex := keyIndex; req := req |} in
      match TimeoutAt (stored_Request req) with
      | None =>
          match ExpectedAmount (stored_Request req) with
          | None => Panicked remainder_panic
          | Some _ => classify seed now rest (add_primary addr s c)
          end
      | Some timeoutAt =>
          if now >? timeoutAt then classify seed now rest (add_secondary addr s c)
          else if MultiUse (stored_Request req) then
            match ExpectedAmount (stored_Request req) with
            | None => classify seed now rest c
            | Some _ => classify seed now rest (add_primary addr s c)
            end
          else classify seed now rest (add_primary addr s c)
      end
  end.

(** The running sum, the inputs and the indices to remove from the store. *)
Record tally := {
  t_sum : Z;
  t_inputs : list Input;
  t_toRemove : list Z;
}.

Definition markForRemoval (balanceCheck : bool) (keyIndex : Z) (t : tally) : tally :=
  if balanceCheck then t
  else {| t_sum := t_sum t; t_inputs := t_inputs t;
          t_toRemove := t_toRemove t ++ [keyIndex] |}.

Definition addAsInput (balanceCheck : bool) (input : Input) (t : tally) : tally :=
  if balanceCheck then t
  else {| t_sum := t_sum t; t_inputs := t_inputs t ++ [input];
          t_toRemove := t_toRemove t |}.

Definition add_to_sum (balance : Z) (t : tally) : tally :=
  {| t_sum := wrap64 (t_sum t + balance); t_inputs := t_inputs t;
     t_toRemove := t_toRemove t |}.

(** [s.req.ExpectedAmount != nil && balance < *s.req.ExpectedAmount]. *)
Definition below_expected (s : selection) (balance : Z) : bool :=
  match ExpectedAmount (stored_Request (req s)) with
  | Some expected => balance <? expected
  | None => false
  end.

(** The loop over the primary selection, from position [i] on. *)
Fixpoint primary_loop (transferValue : Z) (balanceCheck : bool)
    (primaryAddrs : Hashes) (balances : list Z)
    (i : nat) (sels : list selection) (t : tally) : outcome tally :=
  match sels with
  | [] => Returned t
  | s :: rest =>
      match balances !! i with
      | None => Panicked index_out_of_range
      | Some balance =>
          if below_expected s balance
          then primary_loop transferValue balanceCheck primaryAddrs balances (S i) rest t
          else
            let t := add_to_sum balance t in
            if balance <=? 0
            then primary_loop transferValue balanceCheck primaryAddrs balances (S i) rest t
            else
              match primaryAddrs !! i with
              | None => Panicked index_out_of_range
              | Some addr =>
                  let t :=
                    addAsInput balanceCheck
                      {| Address := addr; KeyIndex := keyIndex s; Balance := balance;
                         Security := SecurityLevel (req s) |} t in
                  let t := markForRemoval balanceCheck (keyIndex s) t in
                  if (t_sum t >? transferValue) && negb balanceCheck
                  then Returned t
                  else primary_loop transferValue balanceCheck primaryAddrs balances
                         (S i) rest t
              end
      end
  end.

(** The loop over the timed out addresses, from position [i] on. *)
Fixpoint secondary_loop (transferValue : Z) (balanceCheck : bool)
    (secondaryAddrs : Hashes) (balances : list Z) (startPosSecondary : nat)
    (i : nat) (sels : list selection) (t : tally) : M tally :=
  match sels with
  | [] => mret t
  | secSelect :: rest =>
      match secondaryAddrs !! i with
      | None => panic index_out_of_range
      | Some addr =>
          match balances !! (startPosSecondary + i)%nat with
          | None => panic index_out_of_range
          | Some balance =>
              if balance =? 0 then
                '(has, err) ← hasIncomingConsistentValueTransfer addr;
                if has || bool_decide (is_Some err)
                then secondary_loop transferValue balanceCheck secondaryAddrs balances
                       startPosSecondary (S i) rest t
                else secondary_loop transferValue balanceCheck secondaryAddrs balances
                       startPosSecondary (S i) rest
                       (markForRemoval balanceCheck (keyIndex secSelect) t)
              else
                let t := markForRemoval balanceCheck (keyIndex secSelect) t in
                let t := add_to_sum balance t in
                let t :=
                  addAsInput balanceCheck
                    {| Address := addr; KeyIndex := keyIndex secSelect; Balance := balance;
                       Security := SecurityLevel (req secSelect) |} t in
                if (t_sum t >? transferValue) && negb balanceCheck
                then mret t
                else secondary_loop transferValue balanceCheck secondaryAddrs balances
                       startPosSecondary (S i) rest t
          end
      end
  end.

Abbreviation selected := (Z * list Input * list Z * option error)%type.

(** Selects fulfilled and timed out deposit addresses as inputs. *)
Definition defaultInputSelection (transferValue : Z) (balanceCheck : bool) : M selected :=
  acc ← getAcc;
  depositRequests ← perform StoreGetDepositRequests
                      (fun s h => GetDepositRequests (store s) h (id acc));
  match depositRequests with
  | Err err =>
      mret (0, [], [], Some (Wrap err "unable to load account state for input selection"))
  | Ok depositRequests =>
  if bool_decide (length depositRequests = 0%nat) then
    if balanceCheck then mret (0, [], [], None)
    else mret (0, [], [], Some ErrInsufficientBalance)
  else
  solidSubtangleMilestone ← perform ApiGetLatestSolidSubtangleMilestone
                              (fun s h => GetLatestSolidSubtangleMilestone (api s) h);
  match solidSubtangleMilestone with
  | Err err =>
      mret (0, [], [],
            Some (Wrap err "unable to fetch latest solid subtangle milestone for input selection"))
  | Ok subtangleHash =>
  now ← perform ClockNow (fun s h => Now (clock s) h);
  match now with
  | Err err =>
      mret (0, [], [], Some (Wrap err "unable to get time for doing input selection"))
  | Ok now =>
  seed ← perform SeedProvSeed (fun s h => Seed (seedProv s) h);
  match seed with
  | Err err =>
      mret (0, [], [],
            Some (Wrap err "unable to get seed from seed provider for doing input selection"))
  | Ok seed =>
  c ← liftOutcome (classify seed now depositRequests no_candidates);
  let toQuery := (primaryAddrs c ++ secondaryAddrs c)%list in
  balances ← perform (ApiGetBalances toQuery 100 subtangleHash)
               (fun s h => GetBalances (api s) h toQuery 100 subtangleHash);
  match balances with
  | Err err =>
      mret (0, [], [],
            Some (Wrap err "unable to fetch balances of primary selected addresses for input selection"))
  | Ok balances =>
  t ← liftOutcome
        (primary_loop transferValue balanceCheck (primaryAddrs c) balances 0
           (primarySelection c) {| t_sum := 0; t_inputs := []; t_toRemove := [] |});
  t ← (if (t_sum t <? transferValue) || balanceCheck
       then secondary_loop transferValue balanceCheck (secondaryAddrs c) balances
              (length (primarySelection c)) 0 (secondarySelection c) t
       else mret t);
  if balanceCheck then mret (t_sum t, [], [], None)
  else if t_sum t <? transferValue then mret (0, [], [], Some ErrInsufficientBalance)
  else mret (t_sum t, t_inputs t, t_toRemove t, None)
  end end end end end.

(** Calls the strategy stored in the settings. *)
Definition runInputSelection (transferValue : Z) (balanceCheck : bool) : M selected :=
  acc ← getAcc;
  match inputSelectionStrategy (setts acc) with
  | DefaultInputSelection => defaultInputSelection transferValue balanceCheck
  end.

(** *** Sending *)

(** The part of [send] after the inputs are known: build the bundle, do the
    proof of work, record the pending transfer, broadcast. *)
Definition send_prepared (targets : Recipients) (inputs : list Input)
    (remainderAddress : option Hash) (forRemoval : list Z) : M (Bundle * option error) :=
  acc ← getAcc;
  let transfers := AsTransfers targets in
  currentTime ← perform ClockNow (fun s h => Now (clock s) h);
  match currentTime with
  | Err err => mret ([], Some (Wrap err "unable to get current time in send op."))
  | Ok currentTime =>
  let ts := wrap64 (currentTime ÷ Second) in
  let opts := {| opt_Inputs := inputs; opt_RemainderAddress := remainderAddress;
                 opt_Timestamp := Some ts |} in
  seed ← perform SeedProvSeed (fun s h => Seed (seedProv s) h);
  match seed with
  | Err err => mret ([], Some (Wrap err "unable to get seed from seed provider in send op."))
  | Ok seed =>
  bundleTrytes ← perform (ApiPrepareTransfers seed transfers opts)
                   (fun s h => PrepareTransfers (api s) h seed transfers opts);
  match bundleTrytes with
  | Err err => mret ([], Some (Wrap err "unable to prepare transfers in send op."))
  | Ok bundleTrytes =>
  tips ← perform (ApiGetTransactionsToApprove (depth (setts acc)))
           (fun s h => GetTransactionsToApprove (api s) h (depth (setts acc)));
  match tips with
  | Err err => mret ([], Some (Wrap err "unable to GTTA in send op."))
  | Ok (trunk, branch) =>
  powedTrytes ← perform (ApiAttachToTangle trunk branch (mwm (setts acc)) bundleTrytes)
                  (fun s h => AttachToTangle (api s) h trunk branch (mwm (setts acc))
                                bundleTrytes);
  match powedTrytes with
  | Err err => mret ([], Some (Wrap err "performing PoW in send op. failed"))
  | Ok powedTrytes =>
  match powedTrytes with
  | [] => panic index_out_of_range
  | tailTrytes :: _ =>
  match AsTransactionObject tailTrytes with
  | Err err => mret ([], Some err)
  | Ok tailTx =>
  stored ← perform (StoreAddPendingTransfer (tx_Hash tailTx) powedTrytes forRemoval)
             (fun s h => AddPendingTransfer (store s) h (id acc) (tx_Hash tailTx)
                           powedTrytes forRemoval);
  match stored with
  | Some err => mret ([], Some (Wrap err "unable to store pending transfer in send op."))
  | None =>
  bndlTrytes ← perform (ApiStoreAndBroadcast powedTrytes)
                 (fun s h => StoreAndBroadcast (api s) h powedTrytes);
  match bndlTrytes with
  | Err err => mret ([], Some (Wrap err "unable to store/broadcast bundle in send op."))
  | Ok bndlTrytes =>
  match AsTransactionObjects bndlTrytes with
  | Err err => mret ([], Some err)
  | Ok bndl =>
      _ ← perform (EmitEvent (EventSendingTransfer bndl)) (fun _ _ => tt);
      mret (bndl, None)
  end end end end end end end end end end.

Definition send (targets : Recipients) : M (Bundle * option error) :=
  let transferSum := Sum targets in
  if transferSum >? 0 then
    '(sum, ins, rem, err) ← runInputSelection transferSum false;
    match err with
    | Some err => mret ([], Some (Wrap err "failed to perform input selection in send op."))
    | None =>
        if sum >? transferSum then
          let remainder := wrap64 (sum - transferSum) in
          '(depCond, err) ← allocateDepositRequest
                              {| TimeoutAt := None; MultiUse := false;
                                 ExpectedAmount := Some remainder |};
          match err with
          | Some err =>
              mret ([], Some (Wrap err "unable to generate remainder address in send op."))
          | None =>
              match depCond with
              | None => panic nil_dereference
              | Some depCond => send_prepared targets ins (Some (cond_Address depCond)) rem
              end
          end
        else send_prepared targets ins None rem
    end
  else send_prepared targets [] None [].

(** *** Balances *)

Definition availableBalance : M (Z * option error) :=
  '(balance, _, _, err) ← runInputSelection 0 true;
  mret (balance, err).

Fixpoint sum_balances (sum : Z) (balances : list Z) : Z :=
  match balances with
  | [] => sum
  | balance :: rest => sum_balances (wrap64 (sum + balance)) rest
  end.

Definition totalBalance : M (Z * option error) :=
  acc ← getAcc;
  state ← perform StoreLoadAccount (fun s h => LoadAccount (store s) h (id acc));
  match state with
  | Err err =>
      mret (0, Some (Wrap err "unable to load account state for querying total balance"))
  | Ok state =>
  if bool_decide (length (DepositRequests state) = 0%nat) then mret (0, None) else
  solidSubtangleMilestone ← perform ApiGetLatestSolidSubtangleMilestone
                              (fun s h => GetLatestSolidSubtangleMilestone (api s) h);
  match solidSubtangleMilestone with
  | Err err =>
      mret (0, Some (Wrap err
        "unable to fetch latest solid subtangle milestone for querying total balance"))
  | Ok subtangleHash =>
  seed ← perform SeedProvSeed (fun s h => Seed (seedProv s) h);
  match seed with
  | Err err =>
      mret (0, Some (Wrap err
        "unable to get seed from seed provider for computing total balance"))
  | Ok seed =>
  let addrs :=
    map (fun kr : Z * StoredDepositRequest =>
           (GenerateAddress seed kr.1 (SecurityLevel kr.2) false).1)
        (DepositRequests state) in
  balances ← perform (ApiGetBalances addrs 100 subtangleHash)
               (fun s h => GetBalances (api s) h addrs 100 subtangleHash);
  match balances with
  | Err err =>
      mret (0, Some (Wrap err "unable to fetch balances for computing total balance"))
  | Ok balances => mret (sum_balances 0 balances, None)
  end end end end.

(** *** The public operations *)

Definition ID : M string :=
  acc ← getAcc; mret (id acc).

Definition Send (recipients : Recipients) : M (Bundle * option error) :=
  _ ← lock;
  defer unlock (
    acc ← getAcc;
    if negb (running acc) then mret ([], Some ErrAccountNotRunning) else
    if bool_decide (length recipients = 0%nat) then mret ([], Some ErrEmptyRecipients) else
    if forallb (fun target =>
                  IsTrytesOfExactLength (rcp_Address target)
                    (HashTrytesSize + AddressChecksumTrytesSize)) recipients
    then send recipients
    else mret ([], Some ErrInvalidAddress)).

Definition AvailableBalance : M (Z * option error) :=
  _ ← rlock;
  defer runlock (
    acc ← getAcc;
    if negb (running acc) then mret (0, Some ErrAccountNotRunning) else availableBalance).

Definition TotalBalance : M (Z * option error) :=
  _ ← rlock;
  defer runlock (
    acc ← getAcc;
    if negb (running acc) then mret (0, Some ErrAccountNotRunning) else totalBalance).

Definition IsNew : M (bool * option error) :=
  _ ← rlock;
  defer runlock (
    acc ← getAcc;
    if negb (running acc) then mret (false, Some ErrAccountNotRunning) else
    state ← perform StoreLoadAccount (fun s h => LoadAccount (store s) h (id acc));
    match state with
    | Err err => mret (false, Some err)
    | Ok state => mret (state_IsNew state, None)
    end).

Definition UpdateSettings (new_setts : Settings) : M (option error) :=
  _ ← lock;
  defer unlock (
    acc ← getAcc;
    if negb (running acc) then mret (Some ErrAccountNotRunning) else
    stopped ← shutdownPlugins;
    match stopped with
    | Some err => mret (Some (Wrap err "unable to shutdown plugin in update settings op."))
    | None =>
        _ ← putAcc {| id := id acc; running := running acc; setts := new_setts;
                      lastKeyIndex := lastKeyIndex acc |};
        started ← startPlugins;
        match started with
        | Some err => mret (Some (Wrap err "unable to start plugin in update settings op."))
        | None => mret None
        end
    end).

Definition Start : M (option error) :=
  _ ← lock;
  defer unlock (
    acc ← getAcc;
    state ← perform StoreLoadAccount (fun s h => LoadAccount (store s) h (id acc));
    match state with
    | Err err => mret (Some (Wrap err "unable to read latest used key index in startup"))
    | Ok state =>
        let acc := {| id := id acc; running := running acc; setts := setts acc;
                      lastKeyIndex := state_KeyIndex state |} in
        _ ← putAcc acc;
        started ← startPlugins;
        match started with
        | Some err => mret (Some err)
        | None =>
            _ ← putAcc {| id := id acc; running := true; setts := setts acc;
                          lastKeyIndex := lastKeyIndex acc |};
            mret None
        end
    end).

Definition Shutdown : M (option error) :=
  _ ← lock;
  defer unlock (
    acc ← getAcc;
    if negb (running acc) then mret (Some ErrAccountNotRunning) else
    _ ← putAcc {| id := id acc; running := false; setts := setts acc;
                  lastKeyIndex := lastKeyIndex acc |};
    stopped ← shutdownPlugins;
    match stopped with
    | Some err => mret (Some (Wrap err "unable to shutdown plugin in shutdown op."))
    | None =>
        _ ← perform (EmitEvent EventShutdown) (fun _ _ => tt);
        mret None
    end).

(** ** Vocabulary of the properties *)

(** [logs P m]: whatever [m] does, it only appends calls satisfying [P] to
    the log. *)
Definition logs {A} (P : effect -> Prop) (m : M A) : Prop :=
  forall w, exists new, w_log (m w).2 = (new ++ w_log w)%list /\ Forall P new.

(** [keeps_acc m]: [m] leaves the account struct as it is. *)
Definition keeps_acc {A} (m : M A) : Prop :=
  forall w, w_acc (m w).2 = w_acc w.

(** The calls that input selection makes: reads of the store, the ledger,
    the clock and the seed. *)
Definition selection_read (e : effect) : Prop :=
  match e with
  | StoreGetDepositRequests | ApiGetLatestSolidSubtangleMilestone | ClockNow
  | SeedProvSeed | ApiGetBalances _ _ _ | ApiGetBundlesFromAddresses _
  | ApiCheckConsistency _ => True
  | _ => False
  end.

(** The calls that change the store. *)
Definition store_write (e : effect) : Prop :=
  match e with
  | StoreWriteIndex _ | StoreAddDepositRequest _ _ | StoreAddPendingTransfer _ _ _ => True
  | _ => False
  end.

Definition any_call (e : effect) : Prop := True.

(** Neither the recording of a pending transfer nor a broadcast. *)
Definition before_persist (e : effect) : Prop :=
  match e with
  | StoreAddPendingTransfer _ _ _ | ApiStoreAndBroadcast _ => False
  | _ => True
  end.

(** The world after the calls [new] (most recent first) were logged. *)
Definition after (new : history) (w : world) : world :=
  {| w_acc := w_acc w; w_log := (new ++ w_log w)%list |}.

(** The key indices written to the store by [WriteIndex], oldest first. *)
Fixpoint issued (log : history) : list Z :=
  match log with
  | [] => []
  | StoreWriteIndex index :: older => (issued older ++ [index])%list
  | _ :: older => issued older
  end.

(** A caller that allocates one deposit request after the other. *)
Fixpoint allocate_all (reqs : list Request) : M unit :=
  match reqs with
  | [] => mret tt
  | req :: rest => _ ← AllocateDepositRequest req; allocate_all rest
  end.

Definition with_lastKeyIndex (k : Z) (acc : account) : account :=
  {| id := id acc; running := running acc; setts := setts acc; lastKeyIndex := k |}.

(** [panics_only Q m]: when [m] panics, the message satisfies [Q]. *)
Definition panics_only {A} (Q : string -> Prop) (m : M A) : Prop :=
  forall w msg, (m w).1 = Panicked msg -> Q msg.

Definition runtime_error (msg : string) : Prop :=
  msg = index_out_of_range \/ msg = nil_dereference.

(** A stored request with neither a timeout nor an expected amount. *)
Definition remainder_without_amount (kr : Z * StoredDepositRequest) : Prop :=
  TimeoutAt (stored_Request kr.2) = None /\ ExpectedAmount (stored_Request kr.2) = None.

(** *** Bundles, as the consistency check sees them *)

(** The inclusion state is read off the first transaction of a bundle. *)
Definition confirmed (bndl : Bundle) : Prop :=
  exists tail more, bndl = tail :: more /\ tx_Persistence tail = Some true.

Definition unconfirmed (bndl : Bundle) : Prop :=
  exists tail more, bndl = tail :: more /\ tx_Persistence tail = Some false.

(** Neither empty nor without inclusion state. *)
Definition well_formed (bndl : Bundle) : Prop :=
  exists tail more p, bndl = tail :: more /\ tx_Persistence tail = Some p.

Definition bundle_hash (bndl : Bundle) : option Hash := tx_Bundle <$> head bndl.

Definition deposits_into (addr : Hash) (bndl : Bundle) : Prop :=
  exists tx, tx ∈ bndl /\ tx_Value tx > 0 /\ tx_Address tx = addr.

Definition reported_consistent (consistent : Hash -> bool) (bndl : Bundle) : Prop :=
  exists tail, head bndl = Some tail /\ consistent (tx_Hash tail) = true.

(** Some bundle among [bndls] is confirmed and has the bundle hash of [bndl]. *)
Definition confirmed_among (bndls : list Bundle) (bndl : Bundle) : Prop :=
  exists c, c ∈ bndls /\ confirmed c /\ bundle_hash c = bundle_hash bndl.

(** What the loop looks for: an unconfirmed bundle, listed after [earlier],
    none of which is a confirmed bundle of the same bundle hash, that deposits
    onto [addr] and is reported consistent. *)
Definition incoming_after (addr : Hash) (consistent : Hash -> bool)
    (earlier : list Bundle) (bndl : Bundle) : Prop :=
  unconfirmed bndl /\ ~ confirmed_among earlier bndl /\
  deposits_into addr bndl /\ reported_consistent consistent bndl.

(** The reading of the specification: the whole family of a confirmed bundle
    is skipped wherever the confirmed bundle is listed. *)
Definition incoming_as_specified (addr : Hash) (consistent : Hash -> bool)
    (bndls : list Bundle) : Prop :=
  exists bndl, bndl ∈ bndls /\ unconfirmed bndl /\ ~ confirmed_among bndls bndl /\
               deposits_into addr bndl /\ reported_consistent consistent bndl.

(** *** Balances, as the two scans see them *)

(** The sum of a list of balances, without wrap-around. *)
Definition total (balances : list Z) : Z := foldr Z.add 0 balances.

(** The balances of the primary selection that are not below the expected
    amount: the ones the primary scan adds to the sum. *)
Fixpoint counted_balances (sels : list selection) (balances : list Z) : list Z :=
  match sels, balances with
  | s :: sels, balance :: balances =>
      ((if below_expected s balance then [] else [balance])
       ++ counted_balances sels balances)%list
  | _, _ => []
  end.

(** The inputs the primary selection offers: an address counts when its
    balance is not below the expected amount and is not zero. *)
Fixpoint funded_inputs (sels : list selection) (addrs : Hashes) (balances : list Z)
  : list Input :=
  match sels, addrs, balances with
  | s :: sels, addr :: addrs, balance :: balances =>
      ((if below_expected s balance || (balance <=? 0) then []
        else [{| Address := addr; KeyIndex := keyIndex s; Balance := balance;
                 Security := SecurityLevel (req s) |}])
       ++ funded_inputs sels addrs balances)%list
  | _, _, _ => []
  end.

(** The balances that belong to the secondary selection of [c] in the answer
    [balances] of the ledger. *)
Definition secondary_balances (c : candidates) (balances : list Z) : list Z :=
  take (length (secondarySelection c)) (drop (length (primarySelection c)) balances).

Definition uint64 (z : Z) : Prop := 0 <= z < 2 ^ 64.

(** [returns_only Q m]: when [m] returns, the value satisfies [Q]. *)
Definition returns_only {A} (Q : A -> Prop) (m : M A) : Prop :=
  forall w a, (m w).1 = Returned a -> Q a.

(** A result of input selection that carries no inputs and no indices. *)
Definition nothing_selected (r : selected) : Prop :=
  r.1.1.2 = [] /\ r.1.2 = [].

(** A result of input selection that, if it is an error, carries a zero sum,
    no inputs and no indices. *)
Definition error_selects_nothing (r : selected) : Prop :=
  is_Some r.2 -> r.1.1.1 = 0 /\ r.1.1.2 = [] /\ r.1.2 = [].

(** *** The log of a send *)

Definition persist_failure : string := "unable to store pending transfer in send op.".

(** The three ways a send can go, read off the calls [new] it added to the
    log [base]: it never got to record the pending transfer; or recording it
    failed, the send returned that error, and nothing but [closing] followed;
    or the pending transfer was recorded and the very next call was the
    broadcast of the same trytes, the only one. *)
Definition send_shape (st : Store) (ident : string) (closing base : history)
    (o : outcome (Bundle * option error)) (new : history) : Prop :=
  Forall before_persist new \/
  (exists tail trytes indices earlier err,
     new = (closing ++ StoreAddPendingTransfer tail trytes indices :: earlier)%list /\
     Forall before_persist earlier /\
     AddPendingTransfer st (earlier ++ base) ident tail trytes indices = Some err /\
     o = Returned ([], Some (Wrap err persist_failure))) \/
  (exists later tail trytes indices earlier,
     new = (later ++ ApiStoreAndBroadcast trytes
                  :: StoreAddPendingTransfer tail trytes indices :: earlier)%list /\
     Forall before_persist later /\
     Forall before_persist earlier /\
     AddPendingTransfer st (earlier ++ base) ident tail trytes indices = None /\
     exists first more tailTx,
       trytes = first :: more /\ AsTransactionObject first = Ok tailTx /\
       tail = tx_Hash tailTx).

(** *** Vocabulary of the further properties *)

(** Not a write to the store. *)
Definition no_store_write (e : effect) : Prop := ~ store_write e.

(** What a send without value may log: no input selection, no allocation, a
    bundle prepared without inputs and without remainder address, a pending
    transfer that frees no index. *)
Definition spends_nothing (e : effect) : Prop :=
  match e with
  | StoreGetDepositRequests | ApiGetLatestSolidSubtangleMilestone
  | ApiGetBalances _ _ _ | ApiGetBundlesFromAddresses _ | ApiCheckConsistency _
  | StoreWriteIndex _ | StoreAddDepositRequest _ _ => False
  | StoreAddPendingTransfer _ _ indices => indices = []
  | ApiPrepareTransfers _ _ opts => opt_Inputs opts = [] /\ opt_RemainderAddress opts = None
  | _ => True
  end.

(** The sum of the values of the recipients, without wrap-around. *)
Definition total_value (recps : Recipients) : Z := total (rcp_Value <$> recps).

(** The address derived for a stored deposit request. *)
Definition address_of (seed : Trytes) (kr : Z * StoredDepositRequest) : Hash :=
  (GenerateAddress seed kr.1 (SecurityLevel kr.2) false).1.

Definition start_failure : string := "unable to start plugin %T".
Definition shutdown_failure : string := "unable to shutdown plugin %T".

(** How a loop over the plugins went, [call] being the call it makes on a
    plugin, [e] the entry it logs and [msg] the message it wraps a failure
    in: either every plugin answered without error, each one seeing the
    calls of the plugins before it in the log; or the plugin at position [k]
    was the first to fail, and the plugins after it were not called. *)
Definition plugins_visited (call : Plugin -> history -> option error) (e : effect)
    (msg : string) (ps : list Plugin) (w : world) (r : outcome (option error) * world)
  : Prop :=
  ((forall i p, ps !! i = Some p -> call p (replicate i e ++ w_log w)%list = None) /\
   r = (Returned None, after (replicate (length ps) e) w)) \/
  (exists k p err,
     ps !! k = Some p /\
     (forall i q, (i < k)%nat -> ps !! i = Some q ->
                  call q (replicate i e ++ w_log w)%list = None) /\
     call p (replicate k e ++ w_log w)%list = Some err /\
     r = (Returned (Some (Wrap err msg)), after (replicate (S k) e) w)).

Definition with_setts (s : Settings) (acc : account) : account :=
  {| id := id acc; running := running acc; setts := s; lastKeyIndex := lastKeyIndex acc |}.

Definition with_running (b : bool) (acc : account) : account :=
  {| id := id acc; running := b; setts := setts acc; lastKeyIndex := lastKeyIndex acc |}.

Definition update_stop_failure : string :=
  "unable to shutdown plugin in update settings op.".
Definition update_start_failure : string := "unable to start plugin in update settings op.".
Definition startup_failure : string := "unable to read latest used key index in startup".
Definition shutdown_op_failure : string := "unable to shutdown plugin in shutdown op.".

(** *** The candidates, declaratively *)

(** The request has a timeout and it lies before [now]. *)
Definition timed_out (now : Time) (r : StoredDepositRequest) : bool :=
  match TimeoutAt (stored_Request r) with
  | Some timeoutAt => now >? timeoutAt
  | None => false
  end.

(** The request is not timed out, and it is not a multi-use request without
    expected amount. *)
Definition primary (now : Time) (r : StoredDepositRequest) : bool :=
  match TimeoutAt (stored_Request r) with
  | Some timeoutAt =>
      negb (now >? timeoutAt)
      && (negb (MultiUse (stored_Request r))
          || bool_decide (is_Some (ExpectedAmount (stored_Request r))))
  | None => true
  end.

Definition selection_from (kr : Z * StoredDepositRequest) : selection :=
  {| keyIndex := kr.1; req := kr.2 |}.

(** The inputs cover the sum: the sum is the sum of their balances modulo
    2^64, each input holds something, and the key index of each input is
    among the indices to remove, in the same order. *)
Definition well_covered (t : tally) : Prop :=
  uint64 (t_sum t) /\
  t_sum t = sum_balances 0 (Balance <$> t_inputs t) /\
  Forall (fun input => 0 < Balance input) (t_inputs t) /\
  sublist (KeyIndex <$> t_inputs t) (t_toRemove t).

(** *** The deposit requests the account stores *)

(** A remainder request: no timeout, not multi-use, a positive expected
    amount. *)
Definition remainder_request (r : Request) : Prop :=
  TimeoutAt r = None /\ MultiUse r = false /\
  exists amount, ExpectedAmount r = Some amount /\ 0 < amount.

(** If the call stores a deposit request, it is a remainder request. *)
Definition stores_remainder (e : effect) : Prop :=
  match e with
  | StoreAddDepositRequest _ r => remainder_request (stored_Request r)
  | _ => True
  end.

(** If the call stores a deposit request, it is [req] and [req] has a
    timeout. *)
Definition stores_timed (req : Request) (e : effect) : Prop :=
  match e with
  | StoreAddDepositRequest _ r => stored_Request r = req /\ is_Some (TimeoutAt req)
  | _ => True
  end.

(** If the call stores a deposit request, input selection can classify it
    without panic. *)
Definition stores_classifiable (e : effect) : Prop :=
  match e with
  | StoreAddDepositRequest index r => ~ remainder_without_amount (index, r)
  | _ => True
  end.

(** *** The consistency checks of a timed out address *)

(** A bundle the loop may ask the node about: its first transaction is
    unconfirmed and one of its transactions deposits onto [addr]. *)
Definition checkable (addr : Hash) (bndl : Bundle) : bool :=
  match bndl with
  | tail :: _ => bool_decide (tx_Persistence tail = Some false) && isDepositToAddr addr bndl
  | [] => false
  end.

(** The hash of the first transaction of a bundle. *)
Definition tail_hash (bndl : Bundle) : Hash := from_option tx_Hash "" (head bndl).

(** ** Reasoning about computations *)

(** [simpl] in the goal and in the hypotheses that are propositions. *)
Ltac simpl_all :=
  simpl;
  repeat match goal with
         | H : ?T |- _ => match type of T with Prop => progress (simpl in H) end
         end.

Lemma run_bind {A B} (m : M A) (k : A -> M B) (w : world) :
  (m ≫= k) w =
  match m w with
  | (Returned a, w') => k a w'
  | (Panicked msg, w') => (Panicked msg, w')
  end.
Proof. reflexivity. Qed.

Lemma logs_ret {A} P (a : A) : logs P (mret a).
Proof. intros w. exists []. split; [reflexivity | constructor]. Qed.

Lemma logs_panic {A} P msg : logs P (@panic A msg).
Proof. intros w. exists []. split; [reflexivity | constructor]. Qed.

Lemma logs_liftOutcome {A} P (o : outcome A) : logs P (liftOutcome o).
Proof. intros w. exists []. split; [reflexivity | constructor]. Qed.

Lemma logs_getAcc P : logs P getAcc.
Proof. intros w. exists []. split; [reflexivity | constructor]. Qed.

Lemma logs_putAcc P a : logs P (putAcc a).
Proof. intros w. exists []. split; [reflexivity | constructor]. Qed.

Lemma logs_perform {A} (P : effect -> Prop) e (f : Settings -> history -> A) :
  P e -> logs P (perform e f).
Proof. intros He w. exists [e]. split; [reflexivity | repeat constructor; exact He]. Qed.

Lemma logs_bind {A B} P (m : M A) (k : A -> M B) :
  logs P m -> (forall a, logs P (k a)) -> logs P (m ≫= k).
Proof.
  intros Hm Hk w. rewrite run_bind.
  destruct (Hm w) as [n1 [E1 F1]]. destruct (m w) as [[a|msg] w1]; simpl_all.
  - destruct (Hk a w1) as [n2 [E2 F2]]. exists (n2 ++ n1)%list.
    rewrite E2, E1, app_assoc. split; [reflexivity | apply Forall_app; auto].
  - exists n1. auto.
Qed.

Lemma logs_defer {A} P (d : M unit) (body : M A) :
  logs P d -> logs P body -> logs P (defer d body).
Proof.
  intros Hd Hb w. unfold defer.
  destruct (Hb w) as [n1 [E1 F1]]. destruct (body w) as [o w1]; simpl_all.
  destruct (Hd w1) as [n2 [E2 F2]]. exists (n2 ++ n1)%list.
  rewrite E2, E1, app_assoc. split; [reflexivity | apply Forall_app; auto].
Qed.

Lemma logs_weaken {A} (P Q : effect -> Prop) (m : M A) :
  (forall e, P e -> Q e) -> logs P m -> logs Q m.
Proof.
  intros HPQ Hm w. destruct (Hm w) as [n [E F]]. exists n. split; [exact E|].
  eapply Forall_impl; eauto.
Qed.

Lemma keeps_ret {A} (a : A) : keeps_acc (mret a).
Proof. intros w. reflexivity. Qed.

Lemma keeps_panic {A} msg : keeps_acc (@panic A msg).
Proof. intros w. reflexivity. Qed.

Lemma keeps_liftOutcome {A} (o : outcome A) : keeps_acc (liftOutcome o).
Proof. intros w. reflexivity. Qed.

Lemma keeps_getAcc : keeps_acc getAcc.
Proof. intros w. reflexivity. Qed.

Lemma keeps_perform {A} e (f : Settings -> history -> A) : keeps_acc (perform e f).
Proof. intros w. reflexivity. Qed.

Lemma keeps_bind {A B} (m : M A) (k : A -> M B) :
  keeps_acc m -> (forall a, keeps_acc (k a)) -> keeps_acc (m ≫= k).
Proof.
  intros Hm Hk w. rewrite run_bind. specialize (Hm w).
  destruct (m w) as [[a|msg] w1]; simpl_all.
  - rewrite Hk. exact Hm.
  - exact Hm.
Qed.

Lemma keeps_defer {A} (d : M unit) (body : M A) :
  keeps_acc d -> keeps_acc body -> keeps_acc (defer d body).
Proof.
  intros Hd Hb w. unfold defer. specialize (Hb w).
  destruct (body w) as [o w1]; simpl_all. rewrite Hd. exact Hb.
Qed.

(** Goals [logs P m] and [keeps_acc m] follow the shape of [m]. *)
Ltac shape_step :=
  match goal with
  | |- logs _ (mret _) => apply logs_ret
  | |- logs _ (panic _) => apply logs_panic
  | |- logs _ (liftOutcome _) => apply logs_liftOutcome
  | |- logs _ getAcc => apply logs_getAcc
  | |- logs _ (putAcc _) => apply logs_putAcc
  | |- logs _ (perform _ _) => apply logs_perform; simpl; auto
  | |- logs _ (defer _ _) => apply logs_defer
  | |- logs _ (_ ≫= _) => apply logs_bind; [| intros ?]
  | |- logs _ (match ?x with _ => _ end) => destruct x
  | |- logs _ (let _ := _ in _) => cbv zeta
  | |- keeps_acc (mret _) => apply keeps_ret
  | |- keeps_acc (panic _) => apply keeps_panic
  | |- keeps_acc (liftOutcome _) => apply keeps_liftOutcome
  | |- keeps_acc getAcc => apply keeps_getAcc
  | |- keeps_acc (perform _ _) => apply keeps_perform
  | |- keeps_acc (defer _ _) => apply keeps_defer
  | |- keeps_acc (_ ≫= _) => apply keeps_bind; [| intros ?]
  | |- keeps_acc (match ?x with _ => _ end) => destruct x
  | |- keeps_acc (let _ := _ in _) => cbv zeta
  end.

Ltac shape := repeat shape_step; eauto.

(** *** What input selection may touch *)

Lemma selection_read_no_write e : selection_read e -> ~ store_write e.
Proof. destruct e; simpl; intros H1 H2; first [exact H1 | exact H2]. Qed.

Lemma hasIncoming_loop_logs addr bndls persisted :
  logs selection_read (hasIncoming_loop addr bndls persisted).
Proof.
  revert persisted. induction bndls as [|bndl rest IH]; intros persisted; simpl.
  - shape.
  - destruct bndl as [|tail more]; [shape|].
    destruct (tx_Persistence tail) as [[|]|]; [apply IH| |shape].
    destruct (decide _); [apply IH|].
    destruct (negb _); [apply IH|].
    apply logs_bind; [shape; exact I|]. intros [[|]|]; shape.
Qed.

Lemma hasIncoming_loop_keeps addr bndls persisted :
  keeps_acc (hasIncoming_loop addr bndls persisted).
Proof.
  revert persisted. induction bndls as [|bndl rest IH]; intros persisted; simpl.
  - shape.
  - destruct bndl as [|tail more]; [shape|].
    destruct (tx_Persistence tail) as [[|]|]; [apply IH| |shape].
    destruct (decide _); [apply IH|].
    destruct (negb _); [apply IH|].
    apply keeps_bind; [shape|]. intros [[|]|]; shape.
Qed.

Lemma hasIncoming_logs addr : logs selection_read (hasIncomingConsistentValueTransfer addr).
Proof.
  unfold hasIncomingConsistentValueTransfer.
  apply logs_bind; [shape; exact I|]. intros [bndls|e]; [apply hasIncoming_loop_logs|shape].
Qed.

Lemma hasIncoming_keeps addr : keeps_acc (hasIncomingConsistentValueTransfer addr).
Proof.
  unfold hasIncomingConsistentValueTransfer.
  apply keeps_bind; [shape|]. intros [bndls|e]; [apply hasIncoming_loop_keeps|shape].
Qed.

Lemma secondary_loop_logs V bc addrs bals start i sels t :
  logs selection_read (secondary_loop V bc addrs bals start i sels t).
Proof.
  revert i t. induction sels as [|s rest IH]; intros i t; simpl.
  - shape.
  - destruct (addrs !! i); [|shape]. destruct (bals !! _); [|shape].
    destruct (_ =? 0).
    + apply logs_bind; [apply hasIncoming_logs|]. intros [has err].
      destruct (has || _); apply IH.
    + destruct (_ && _); [shape | apply IH].
Qed.

Lemma secondary_loop_keeps V bc addrs bals start i sels t :
  keeps_acc (secondary_loop V bc addrs bals start i sels t).
Proof.
  revert i t. induction sels as [|s rest IH]; intros i t; simpl.
  - shape.
  - destruct (addrs !! i); [|shape]. destruct (bals !! _); [|shape].
    destruct (_ =? 0).
    + apply keeps_bind; [apply hasIncoming_keeps|]. intros [has err].
      destruct (has || _); apply IH.
    + destruct (_ && _); [shape | apply IH].
Qed.

Lemma defaultInputSelection_logs V bc :
  logs selection_read (defaultInputSelection V bc).
Proof.
  unfold defaultInputSelection.
  shape; try exact I; try apply secondary_loop_logs.
Qed.

Lemma defaultInputSelection_keeps V bc : keeps_acc (defaultInputSelection V bc).
Proof.
  unfold defaultInputSelection.
  shape; try apply secondary_loop_keeps.
Qed.

Ltac run_goal :=
  unfold mbind, M_bind, mret, M_ret, defer, lock, unlock, rlock, runlock,
         perform, getAcc, putAcc, panic, liftOutcome;
  simpl.

Ltac run_in H :=
  unfold mbind, M_bind, mret, M_ret, defer, lock, unlock, rlock, runlock,
         perform, getAcc, putAcc, panic, liftOutcome in H;
  simpl in H.

(** Unfolds the plumbing of computations in the goal and in the hypotheses. *)
Ltac run :=
  run_goal;
  repeat match goal with
         | H : ?T |- _ => match type of T with Prop => progress (run_in H) end
         end.

(** C4.  On a running account, [AllocateDepositRequest] rejects a request
    without timeout with [ErrTimeoutNotSpecified]; once the clock has given
    the current time, it rejects a timeout less than five minutes after it
    with [ErrTimeoutTooLow], and hands a timeout at least five minutes after
    it over to [allocateDepositRequest]. *)
Theorem AllocateDepositRequest_timeout (req : Request) (w : world) :
  running (w_acc w) = true ->
  (TimeoutAt req = None ->
     AllocateDepositRequest req w =
       (Returned (None, Some ErrTimeoutNotSpecified),
        {| w_acc := w_acc w; w_log := MuUnlock :: MuLock :: w_log w |})) /\
  (forall timeoutAt currentTime,
     TimeoutAt req = Some timeoutAt ->
     Now (clock (setts (w_acc w))) (MuLock :: w_log w) = Ok currentTime ->
     (timeoutAt < currentTime + 5 * Minute ->
        AllocateDepositRequest req w =
          (Returned (None, Some ErrTimeoutTooLow),
           {| w_acc := w_acc w; w_log := MuUnlock :: ClockNow :: MuLock :: w_log w |})) /\
     (currentTime + 5 * Minute <= timeoutAt ->
        AllocateDepositRequest req w =
          defer unlock (allocateDepositRequest req)
            {| w_acc := w_acc w; w_log := ClockNow :: MuLock :: w_log w |})).
Proof.
  intros Hrun. split.
  - intros Hnil. unfold AllocateDepositRequest. run. rewrite Hrun, Hnil. reflexivity.
  - intros timeoutAt currentTime Hsome Hnow. split; intros Hcmp.
    + unfold AllocateDepositRequest. run. rewrite Hrun, Hsome. simpl. rewrite Hnow.
      destruct (Z.ltb_spec (timeoutAt + - (5 * Minute)) currentTime); [reflexivity | lia].
    + unfold AllocateDepositRequest. run. rewrite Hrun, Hsome. simpl. rewrite Hnow.
      destruct (Z.ltb_spec (timeoutAt + - (5 * Minute)) currentTime); [lia | reflexivity].
Qed.

Lemma selection_read_before_persist e : selection_read e -> before_persist e.
Proof. destruct e; simpl; intros H; first [exact I | exact H]. Qed.

Lemma runInputSelection_logs V bc : logs selection_read (runInputSelection V bc).
Proof.
  unfold runInputSelection. shape. apply defaultInputSelection_logs.
Qed.

Lemma runInputSelection_keeps V bc : keeps_acc (runInputSelection V bc).
Proof.
  unfold runInputSelection. shape. apply defaultInputSelection_keeps.
Qed.

Lemma allocateDepositRequest_logs req : logs before_persist (allocateDepositRequest req).
Proof. unfold allocateDepositRequest. shape. Qed.

Lemma startPlugins_logs : logs any_call startPlugins.
Proof.
  unfold startPlugins. apply logs_bind; [shape|]. intros acc.
  induction (plugins (setts acc)) as [|p ps IH]; simpl; shape; exact I.
Qed.

Lemma shutdownPlugins_logs : logs any_call shutdownPlugins.
Proof.
  unfold shutdownPlugins. apply logs_bind; [shape|]. intros acc.
  induction (plugins (setts acc)) as [|p ps IH]; simpl; shape; exact I.
Qed.

Lemma send_prepared_logs targets inputs remainderAddress forRemoval :
  logs any_call (send_prepared targets inputs remainderAddress forRemoval).
Proof. unfold send_prepared. shape; exact I. Qed.

Lemma send_logs targets : logs any_call (send targets).
Proof.
  unfold send. shape; try apply send_prepared_logs.
  - eapply logs_weaken; [|apply runInputSelection_logs]. intros; exact I.
  - eapply logs_weaken; [|apply allocateDepositRequest_logs]. intros; exact I.
Qed.

Lemma totalBalance_logs : logs any_call totalBalance.
Proof. unfold totalBalance. shape; exact I. Qed.

Lemma availableBalance_logs : logs any_call availableBalance.
Proof.
  unfold availableBalance. shape.
  eapply logs_weaken; [|apply runInputSelection_logs]. intros; exact I.
Qed.

(** An operation that locks, defers the unlock and runs [body]. *)
Lemma locked_log {A} (body : M A) (w : world) :
  logs any_call body ->
  exists mid,
    w_log ((lock ≫= fun _ => defer unlock body) w).2 = MuUnlock :: (mid ++ MuLock :: w_log w)%list.
Proof.
  intros Hb. run.
  destruct (Hb {| w_acc := w_acc w; w_log := MuLock :: w_log w |}) as [mid [E _]].
  exists mid. destruct (body _) as [o w1]. simpl_all. rewrite E. reflexivity.
Qed.

Lemma rlocked_log {A} (body : M A) (w : world) :
  logs any_call body ->
  exists mid,
    w_log ((rlock ≫= fun _ => defer runlock body) w).2
    = MuRUnlock :: (mid ++ MuRLock :: w_log w)%list.
Proof.
  intros Hb. run.
  destruct (Hb {| w_acc := w_acc w; w_log := MuRLock :: w_log w |}) as [mid [E _]].
  exists mid. destruct (body _) as [o w1]. simpl_all. rewrite E. reflexivity.
Qed.

(** C6 (amended).  On a stopped account [Shutdown], [Send],
    [AllocateDepositRequest], [UpdateSettings], [AvailableBalance],
    [TotalBalance] and [IsNew] return [ErrAccountNotRunning] having done
    nothing but lock and unlock (exclusive for the first four, shared for the
    last three).  [ID] takes no lock and returns the identifier whatever the
    flag.  [Start] takes the exclusive lock and does not look at the flag: it
    succeeds when the state loads and the plugins start.  All operations but
    [ID] lock first and unlock last, running or not. *)
Theorem public_operations_lock_and_NotRunning (w : world) :
  (running (w_acc w) = false ->
     Shutdown w = (Returned (Some ErrAccountNotRunning), after [MuUnlock; MuLock] w) /\
     (forall recipients,
        Send recipients w = (Returned ([], Some ErrAccountNotRunning), after [MuUnlock; MuLock] w)) /\
     (forall req,
        AllocateDepositRequest req w
        = (Returned (None, Some ErrAccountNotRunning), after [MuUnlock; MuLock] w)) /\
     (forall new_setts,
        UpdateSettings new_setts w
        = (Returned (Some ErrAccountNotRunning), after [MuUnlock; MuLock] w)) /\
     AvailableBalance w = (Returned (0, Some ErrAccountNotRunning), after [MuRUnlock; MuRLock] w) /\
     TotalBalance w = (Returned (0, Some ErrAccountNotRunning), after [MuRUnlock; MuRLock] w) /\
     IsNew w = (Returned (false, Some ErrAccountNotRunning), after [MuRUnlock; MuRLock] w)) /\
  ID w = (Returned (id (w_acc w)), w) /\
  (forall state,
     LoadAccount (store (setts (w_acc w))) (MuLock :: w_log w) (id (w_acc w)) = Ok state ->
     plugins (setts (w_acc w)) = [] ->
     Start w =
       (Returned None,
        {| w_acc := {| id := id (w_acc w); running := true; setts := setts (w_acc w);
                       lastKeyIndex := state_KeyIndex state |};
           w_log := MuUnlock :: StoreLoadAccount :: MuLock :: w_log w |})) /\
  (exists mid, w_log (Start w).2 = MuUnlock :: (mid ++ MuLock :: w_log w)%list) /\
  (exists mid, w_log (Shutdown w).2 = MuUnlock :: (mid ++ MuLock :: w_log w)%list) /\
  (forall recipients,
     exists mid, w_log (Send recipients w).2 = MuUnlock :: (mid ++ MuLock :: w_log w)%list) /\
  (forall req,
     exists mid,
       w_log (AllocateDepositRequest req w).2 = MuUnlock :: (mid ++ MuLock :: w_log w)%list) /\
  (forall new_setts,
     exists mid,
       w_log (UpdateSettings new_setts w).2 = MuUnlock :: (mid ++ MuLock :: w_log w)%list) /\
  (exists mid, w_log (AvailableBalance w).2 = MuRUnlock :: (mid ++ MuRLock :: w_log w)%list) /\
  (exists mid, w_log (TotalBalance w).2 = MuRUnlock :: (mid ++ MuRLock :: w_log w)%list) /\
  (exists mid, w_log (IsNew w).2 = MuRUnlock :: (mid ++ MuRLock :: w_log w)%list).
Proof.
  split; [intros Hstop; repeat split; intros;
          unfold Shutdown, Send, AllocateDepositRequest, UpdateSettings, AvailableBalance,
            TotalBalance, IsNew; run; rewrite Hstop; reflexivity|].
  split; [reflexivity|].
  split; [intros state Hload Hplug; unfold Start, startPlugins; run;
          rewrite Hload; simpl; rewrite Hplug; reflexivity|].
  repeat split; intros;
    (apply locked_log || apply rlocked_log); shape;
    try exact I;
    try (eapply logs_weaken; [|first [apply startPlugins_logs|apply shutdownPlugins_logs
           |apply send_logs|apply allocateDepositRequest_logs|apply availableBalance_logs
           |apply totalBalance_logs]]; intros; exact I).
Qed.

(** *** Allocation of key indices *)


Lemma allocateDepositRequest_step req w :
  exists new k',
    w_log (allocateDepositRequest req w).2 = (new ++ w_log w)%list /\
    w_acc (allocateDepositRequest req w).2 = with_lastKeyIndex k' (w_acc w) /\
    ((k' = lastKeyIndex (w_acc w) /\ issued new = []) \/
     (k' = wrap64 (lastKeyIndex (w_acc w) + 1) /\ (issued new = [] \/ issued new = [k']))).
Proof.
  unfold allocateDepositRequest. run.
  destruct (Seed _ _) as [seed|e]; simpl.
  - destruct (GenerateAddress _ _ _ _) as [addr [e|]]; simpl.
    + eexists [SeedProvSeed], _. repeat split. right. split; [reflexivity|]. left. reflexivity.
    + destruct (WriteIndex _ _ _ _) as [e|]; simpl.
      * eexists [_; _], _. repeat split. right. split; [reflexivity|]. right. reflexivity.
      * destruct (AddDepositRequest _ _ _ _ _) as [e|]; simpl;
          (eexists [_; _; _], _; repeat split; right; split; [reflexivity|];
           right; reflexivity).
  - exists [SeedProvSeed], (lastKeyIndex (w_acc w)). repeat split.
    + destruct w as [[? ? ? ?] ?]; reflexivity.
    + left. split; reflexivity.
Qed.




(** *** Panics *)

Lemma panics_ret {A} Q (a : A) : panics_only Q (mret a).
Proof. intros w msg H. discriminate. Qed.

Lemma panics_panic {A} (Q : string -> Prop) msg : Q msg -> panics_only Q (@panic A msg).
Proof. intros HQ w msg' H. injection H as <-. exact HQ. Qed.

Lemma panics_getAcc Q : panics_only Q getAcc.
Proof. intros w msg H. discriminate. Qed.

Lemma panics_perform {A} Q e (f : Settings -> history -> A) : panics_only Q (perform e f).
Proof. intros w msg H. discriminate. Qed.

Lemma panics_liftOutcome {A} (Q : string -> Prop) (o : outcome A) :
  (forall msg, o = Panicked msg -> Q msg) -> panics_only Q (liftOutcome o).
Proof. intros Ho w msg H. apply Ho. exact H. Qed.

Lemma panics_bind {A B} Q (m : M A) (k : A -> M B) :
  panics_only Q m -> (forall a, panics_only Q (k a)) -> panics_only Q (m ≫= k).
Proof.
  intros Hm Hk w msg. rewrite run_bind. specialize (Hm w).
  destruct (m w) as [[a|msg'] w1]; simpl_all.
  - apply Hk.
  - intros [= <-]. apply Hm. reflexivity.
Qed.

Ltac panics_step :=
  match goal with
  | |- panics_only _ (mret _) => apply panics_ret
  | |- panics_only _ (panic _) => apply panics_panic
  | |- panics_only _ getAcc => apply panics_getAcc
  | |- panics_only _ (perform _ _) => apply panics_perform
  | |- panics_only _ (liftOutcome _) => apply panics_liftOutcome
  | |- panics_only _ (_ ≫= _) => apply panics_bind; [| intros ?]
  | |- panics_only _ (match ?x with _ => _ end) => destruct x
  | |- panics_only _ (let _ := _ in _) => cbv zeta
  end.

Lemma hasIncoming_loop_panics addr bndls persisted :
  panics_only runtime_error (hasIncoming_loop addr bndls persisted).
Proof.
  revert persisted. induction bndls as [|bndl rest IH]; intros persisted; simpl.
  - apply panics_ret.
  - destruct bndl as [|tail more]; [apply panics_panic; left; reflexivity|].
    destruct (tx_Persistence tail) as [[|]|];
      [apply IH| |apply panics_panic; right; reflexivity].
    destruct (decide _); [apply IH|].
    destruct (negb _); [apply IH|].
    apply panics_bind; [apply panics_perform|]. intros [[|]|]; try apply panics_ret. apply IH.
Qed.

Lemma hasIncoming_panics addr :
  panics_only runtime_error (hasIncomingConsistentValueTransfer addr).
Proof.
  unfold hasIncomingConsistentValueTransfer.
  apply panics_bind; [apply panics_perform|].
  intros [bndls|e]; [apply hasIncoming_loop_panics | apply panics_ret].
Qed.

Lemma secondary_loop_panics V bc addrs bals start i sels t :
  panics_only runtime_error (secondary_loop V bc addrs bals start i sels t).
Proof.
  revert i t. induction sels as [|s rest IH]; intros i t; simpl.
  - apply panics_ret.
  - destruct (addrs !! i); [|apply panics_panic; left; reflexivity].
    destruct (bals !! _); [|apply panics_panic; left; reflexivity].
    destruct (_ =? 0).
    + apply panics_bind; [apply hasIncoming_panics|]. intros [has err].
      destruct (has || _); apply IH.
    + destruct (_ && _); [apply panics_ret | apply IH].
Qed.

Lemma primary_loop_panics V bc addrs bals sels : forall i t msg,
  primary_loop V bc addrs bals i sels t = Panicked msg -> msg = index_out_of_range.
Proof.
  induction sels as [|s rest IH]; intros i t msg; simpl.
  - discriminate.
  - destruct (bals !! i); [|intros [= <-]; reflexivity].
    destruct (below_expected s _); [apply IH|].
    destruct (_ <=? 0); [apply IH|].
    destruct (addrs !! i); [|intros [= <-]; reflexivity].
    destruct (_ && _); [discriminate | apply IH].
Qed.

Lemma classify_panics seed now reqs : forall c msg,
  classify seed now reqs c = Panicked msg ->
  msg = remainder_panic /\ Exists remainder_without_amount reqs.
Proof.
  induction reqs as [|[keyIndex req] rest IH]; intros c msg; simpl.
  - discriminate.
  - destruct (TimeoutAt (stored_Request req)) as [timeoutAt|] eqn:Ht.
    + intros H. enough (msg = remainder_panic /\ Exists remainder_without_amount rest)
        as [? ?] by (split; [assumption | apply Exists_cons_tl; assumption]).
      destruct (now >? timeoutAt); [eapply IH; exact H|].
      destruct (MultiUse _); [|eapply IH; exact H].
      destruct (ExpectedAmount _); eapply IH; exact H.
    + destruct (ExpectedAmount (stored_Request req)) eqn:He.
      * intros H. apply IH in H as [? ?]. split; [assumption | apply Exists_cons_tl; assumption].
      * intros [= <-]. split; [reflexivity|]. apply Exists_cons_hd. split; assumption.
Qed.

Lemma classify_remainder_panic seed now reqs : forall c,
  Exists remainder_without_amount reqs ->
  classify seed now reqs c = Panicked remainder_panic.
Proof.
  induction reqs as [|[keyIndex req] rest IH]; intros c Hbad.
  - inversion Hbad.
  - simpl. destruct (TimeoutAt (stored_Request req)) as [timeoutAt|] eqn:Ht.
    + assert (Hrest : Exists remainder_without_amount rest).
      { inversion Hbad as [? ? [Hbad1 _]|]; subst; [|assumption].
        simpl in Hbad1. congruence. }
      destruct (now >? timeoutAt); [apply IH; exact Hrest|].
      destruct (MultiUse _); [|apply IH; exact Hrest].
      destruct (ExpectedAmount _); apply IH; exact Hrest.
    + destruct (ExpectedAmount (stored_Request req)) eqn:He; [|reflexivity].
      apply IH. inversion Hbad as [? ? [_ Hbad2]|]; subst; [|assumption].
      simpl in Hbad2. congruence.
Qed.

Lemma defaultInputSelection_panics V bc :
  panics_only (fun msg => msg = remainder_panic \/ runtime_error msg)
    (defaultInputSelection V bc).
Proof.
  unfold defaultInputSelection.
  repeat panics_step; try (intros ? [= <-]).
  - intros msg H. apply classify_panics in H as [-> _]. left. reflexivity.
  - intros msg H. apply primary_loop_panics in H as ->. right. left. reflexivity.
  - intros w msg H. right. eapply secondary_loop_panics. exact H.
Qed.

Arguments classify : simpl never.

Lemma remainder_panic_no_runtime_error : ~ runtime_error remainder_panic.
Proof. intros [H|H]; discriminate H. Qed.

(** C10.  Once the store has yielded the deposit requests and the
    checkpoint, the clock and the seed lookups have succeeded, input
    selection panics with the remainder message, in transfer mode and in
    probe mode alike, exactly when some stored request has neither a timeout
    nor an expected amount; the balance query and a send of a positive sum
    panic with it on such a store. *)
Theorem remainder_without_amount_panics V bc w reqs ms now seed :
  GetDepositRequests (store (setts (w_acc w))) (w_log w) (id (w_acc w)) = Ok reqs ->
  GetLatestSolidSubtangleMilestone (api (setts (w_acc w)))
    (StoreGetDepositRequests :: w_log w) = Ok ms ->
  Now (clock (setts (w_acc w)))
    (ApiGetLatestSolidSubtangleMilestone :: StoreGetDepositRequests :: w_log w) = Ok now ->
  Seed (seedProv (setts (w_acc w)))
    (ClockNow :: ApiGetLatestSolidSubtangleMilestone :: StoreGetDepositRequests :: w_log w)
  = Ok seed ->
  ((defaultInputSelection V bc w).1 = Panicked remainder_panic
   <-> Exists remainder_without_amount reqs) /\
  (Exists remainder_without_amount reqs ->
   (availableBalance w).1 = Panicked remainder_panic) /\
  (Exists remainder_without_amount reqs ->
   forall targets, Sum targets > 0 -> (send targets w).1 = Panicked remainder_panic).
Proof.
  intros Hreqs Hms Hnow Hseed.
  assert (Hpanic : forall V' bc', Exists remainder_without_amount reqs ->
            (defaultInputSelection V' bc' w).1 = Panicked remainder_panic).
  { intros V' bc' Hbad. unfold defaultInputSelection. run. rewrite Hreqs. simpl.
    destruct reqs as [|kr rest]; [inversion Hbad|]. simpl.
    rewrite Hms. simpl. rewrite Hnow. simpl. rewrite Hseed. simpl.
    rewrite (classify_remainder_panic seed now (kr :: rest) no_candidates Hbad).
    reflexivity. }
  split; [split|split].
  - unfold defaultInputSelection. run. rewrite Hreqs. simpl.
    destruct reqs as [|kr rest]; simpl; [destruct bc; discriminate|].
    rewrite Hms. simpl. rewrite Hnow. simpl. rewrite Hseed. simpl.
    destruct (classify seed now (kr :: rest) no_candidates) as [c|msg] eqn:Hc; simpl.
    + destruct (GetBalances _ _ _ _ _) as [bals|e]; simpl; [|discriminate].
      destruct (primary_loop _ _ _ _ _ _ _) as [t|msg] eqn:Hp; simpl.
      * match goal with
        | |- context [ (if ?b then ?m else _) ?w0 ] =>
            destruct b; simpl;
            [pose proof (secondary_loop_panics V bc (secondaryAddrs c) bals
                           (length (primarySelection c)) 0 (secondarySelection c) t w0) as Hs;
             destruct (secondary_loop _ _ _ _ _ _ _ _ _) as [[t'|msg] w1]; simpl_all|]
        end.
        -- destruct bc; [discriminate|]. destruct (_ <? _); discriminate.
        -- intros [= ->]. exfalso. apply remainder_panic_no_runtime_error.
           apply Hs. reflexivity.
        -- destruct bc; [discriminate|]. destruct (_ <? _); discriminate.
      * apply primary_loop_panics in Hp. subst msg. discriminate.
    + intros [= ->]. apply classify_panics in Hc as [_ Hbad]. exact Hbad.
  - apply Hpanic.
  - intros Hbad. unfold availableBalance, runInputSelection. run.
    destruct (inputSelectionStrategy _).
    specialize (Hpanic 0 true Hbad).
    destruct (defaultInputSelection 0 true w) as [[r|msg] w1]; simpl_all; congruence.
  - intros Hbad targets Hsum. unfold send, runInputSelection. run.
    destruct (Z.gtb_spec (Sum targets) 0); [|lia].
    destruct (inputSelectionStrategy _).
    specialize (Hpanic (Sum targets) false Hbad).
    destruct (defaultInputSelection (Sum targets) false w) as [[r|msg] w1]; simpl_all;
      congruence.
Qed.

(** C8.  In the loop over the timed out addresses, when the address at hand
    has a zero balance and [hasIncomingConsistentValueTransfer] comes back
    with an error, the loop goes on with the remaining addresses from the
    same sum, inputs and removal list: the address is not marked for removal
    and the error is dropped.  A failed bundle lookup is such an error. *)
Theorem failed_probe_keeps_address V bc addrs bals start i secSelect rest t w addr :
  addrs !! i = Some addr ->
  bals !! (start + i)%nat = Some 0 ->
  (forall has err w1,
     hasIncomingConsistentValueTransfer addr w = (Returned (has, Some err), w1) ->
     secondary_loop V bc addrs bals start i (secSelect :: rest) t w
     = secondary_loop V bc addrs bals start (S i) rest t w1) /\
  (forall err,
     GetBundlesFromAddresses (api (setts (w_acc w))) (w_log w) [addr] true = Err err ->
     secondary_loop V bc addrs bals start i (secSelect :: rest) t w
     = secondary_loop V bc addrs bals start (S i) rest t
         (after [ApiGetBundlesFromAddresses [addr]] w)).
Proof.
  intros Haddr Hbal.
  assert (Hgen : forall has err w1,
     hasIncomingConsistentValueTransfer addr w = (Returned (has, Some err), w1) ->
     secondary_loop V bc addrs bals start i (secSelect :: rest) t w
     = secondary_loop V bc addrs bals start (S i) rest t w1).
  { intros has err w1 Hprobe. simpl. rewrite Haddr, Hbal. simpl.
    rewrite run_bind, Hprobe. rewrite orb_true_r. reflexivity. }
  split; [exact Hgen|].
  intros err Hlookup. apply (Hgen false err).
  unfold hasIncomingConsistentValueTransfer. run. rewrite Hlookup. reflexivity.
Qed.

(** *** The consistency check *)

Lemma isDepositToAddr_spec addr bndl :
  isDepositToAddr addr bndl = true <-> deposits_into addr bndl.
Proof.
  unfold deposits_into. induction bndl as [|tx rest IH]; simpl.
  - split; [discriminate|]. intros (tx & Hin & _). inversion Hin.
  - destruct (Z.gtb_spec (tx_Value tx) 0) as [Hpos|Hneg]; simpl.
    + destruct (String.eqb_spec (tx_Address tx) addr) as [Heq|Hne].
      * split; [|reflexivity]. intros _. exists tx. split; [left|]. split; [lia | exact Heq].
      * rewrite IH. split.
        -- intros (tx' & Hin & H). exists tx'. split; [right; exact Hin | exact H].
        -- intros (tx' & Hin & Hv & Ha). inversion Hin; subst; [contradiction|].
           exists tx'. auto.
    + rewrite IH. split.
      * intros (tx' & Hin & H). exists tx'. split; [right; exact Hin | exact H].
      * intros (tx' & Hin & Hv & Ha). inversion Hin; subst; [lia|].
        exists tx'. auto.
Qed.

Arguments isDepositToAddr : simpl never.

Lemma hasIncoming_loop_spec addr (consistent : Hash -> bool) bndls :
  forall earlier (persisted : gset string) w,
  (forall h tail,
     CheckConsistency (api (setts (w_acc w))) h tail = Ok (consistent tail)) ->
  (forall hash, hash ∈ persisted <->
     exists c, c ∈ earlier /\ confirmed c /\ bundle_hash c = Some hash) ->
  Forall well_formed bndls ->
  exists has w',
    hasIncoming_loop addr bndls persisted w = (Returned (has, None), w') /\
    (has = true <->
     exists pre bndl post,
       bndls = (pre ++ bndl :: post)%list /\
       incoming_after addr consistent (earlier ++ pre) bndl).
Proof.
  induction bndls as [|bndl rest IH]; intros earlier persisted w Hcons Hpers Hwf.
  - exists false, w. split; [reflexivity|]. split; [discriminate|].
    intros (pre & b & post & H & _). destruct pre; discriminate H.
  - inversion Hwf as [|? ? (tail & more & p & -> & Hp) Hwf']; subst.
    (* an earlier bundle is never the one at hand *)
    assert (Hshift : forall b0,
      (exists pre b post, rest = (pre ++ b :: post)%list /\
         incoming_after addr consistent ((earlier ++ [b0]) ++ pre) b) ->
      exists pre b post, b0 :: rest = (pre ++ b :: post)%list /\
         incoming_after addr consistent (earlier ++ pre) b).
    { intros b0 (pre & b & post & -> & Hin). exists (b0 :: pre), b, post.
      split; [reflexivity|]. rewrite <- app_assoc in Hin. exact Hin. }
    assert (Hunshift : forall b0,
      ~ incoming_after addr consistent earlier b0 ->
      (exists pre b post, b0 :: rest = (pre ++ b :: post)%list /\
         incoming_after addr consistent (earlier ++ pre) b) ->
      exists pre b post, rest = (pre ++ b :: post)%list /\
         incoming_after addr consistent ((earlier ++ [b0]) ++ pre) b).
    { intros b0 Hnot (pre & b & post & Heq & Hin). destruct pre as [|b1 pre].
      - simpl in Heq. injection Heq as <- <-. rewrite app_nil_r in Hin. contradiction.
      - simpl in Heq. injection Heq as <- ->. exists pre, b, post.
        split; [reflexivity|]. rewrite <- app_assoc. exact Hin. }
    simpl. rewrite Hp. destruct p.
    + (* confirmed: remembered *)
      destruct (IH (earlier ++ [tail :: more])%list ({[tx_Bundle tail]} ∪ persisted) w)
        as (has & w' & Hrun & Hiff); auto.
      { intros hash. rewrite elem_of_union, elem_of_singleton, Hpers. split.
        - intros [->|(c & Hc & Hconf & Hh)].
          + exists (tail :: more). split; [apply elem_of_app; right; left|].
            split; [exists tail, more; auto | reflexivity].
          + exists c. split; [apply elem_of_app; left; exact Hc | auto].
        - intros (c & Hc & Hconf & Hh). apply elem_of_app in Hc as [Hc|Hc].
          + right. exists c. auto.
          + apply list_elem_of_singleton in Hc as ->. left. unfold bundle_hash in Hh. simpl in Hh. congruence. }
      exists has, w'. split; [exact Hrun|]. rewrite Hiff. split; [apply Hshift|].
      apply Hunshift. intros ((t0 & m0 & [= <- <-] & Hun) & _). congruence.
    + (* unconfirmed *)
      assert (Hsame : forall hash, hash ∈ persisted <->
                exists c, c ∈ (earlier ++ [tail :: more])%list /\ confirmed c /\
                          bundle_hash c = Some hash).
      { intros hash. rewrite Hpers. split.
        - intros (c & Hc & H). exists c. split; [apply elem_of_app; left; exact Hc | exact H].
        - intros (c & Hc & Hconf & Hh). apply elem_of_app in Hc as [Hc|Hc].
          + exists c. auto.
          + apply list_elem_of_singleton in Hc as ->.
            destruct Hconf as (t0 & m0 & [= <- <-] & Hconf). congruence. }
      destruct (decide (tx_Bundle tail ∈ persisted)) as [Hseen|Hnew].
      * destruct (IH (earlier ++ [tail :: more])%list persisted w)
          as (has & w' & Hrun & Hiff); auto.
        exists has, w'. split; [exact Hrun|]. rewrite Hiff. split; [apply Hshift|].
        apply Hunshift. intros (_ & Hnot & _). apply Hnot.
        apply Hpers in Hseen as (c & Hc & Hconf & Hh). exists c. auto.
      * destruct (isDepositToAddr addr (tail :: more)) eqn:Hdep; simpl.
        -- run. rewrite Hcons.
           destruct (consistent (tx_Hash tail)) eqn:Hok.
           ++ eexists true, _. split; [reflexivity|]. split; [|reflexivity]. intros _.
              exists [], (tail :: more), rest. split; [reflexivity|].
              rewrite app_nil_r. split; [exists tail, more; auto|]. split.
              ** intros (c & Hc & Hconf & Hh). apply Hnew, Hpers. exists c. auto.
              ** split; [apply isDepositToAddr_spec; exact Hdep|].
                 exists tail. auto.
           ++ destruct (IH (earlier ++ [tail :: more])%list persisted
                          {| w_acc := w_acc w;
                             w_log := ApiCheckConsistency (tx_Hash tail) :: w_log w |})
                as (has & w' & Hrun & Hiff); auto.
              exists has, w'. split; [exact Hrun|]. rewrite Hiff. split; [apply Hshift|].
              apply Hunshift. intros (_ & _ & _ & (t0 & [= <-] & Ht0)). congruence.
        -- destruct (IH (earlier ++ [tail :: more])%list persisted w)
             as (has & w' & Hrun & Hiff); auto.
           exists has, w'. split; [exact Hrun|]. rewrite Hiff. split; [apply Hshift|].
           apply Hunshift. intros (_ & _ & Hd & _).
           apply isDepositToAddr_spec in Hd. congruence.
Qed.

(** *** The two scans *)

Lemma wrap64_range z : uint64 (wrap64 z).
Proof. unfold uint64, wrap64. apply Z.mod_pos_bound. lia. Qed.

Lemma wrap64_small z : uint64 z -> wrap64 z = z.
Proof. unfold uint64, wrap64. intros H. apply Z.mod_small. exact H. Qed.

Lemma sum_balances_app s l1 l2 :
  sum_balances s (l1 ++ l2) = sum_balances (sum_balances s l1) l2.
Proof. revert s. induction l1 as [|b l1 IH]; intros s; simpl; [reflexivity | apply IH]. Qed.

Lemma sum_balances_range s l : uint64 s -> uint64 (sum_balances s l).
Proof.
  revert s. induction l as [|b l IH]; intros s Hs; simpl; [exact Hs|].
  apply IH, wrap64_range.
Qed.

Lemma total_app l1 l2 : total (l1 ++ l2) = total l1 + total l2.
Proof. unfold total. induction l1 as [|b l1 IH]; simpl; [reflexivity | lia]. Qed.

Lemma total_nonneg l : Forall (fun b => 0 <= b) l -> 0 <= total l.
Proof. unfold total. induction 1; simpl; lia. Qed.

(** With wrap-around a sum can only get smaller. *)
Lemma sum_balances_le s l :
  0 <= s -> Forall (fun b => 0 <= b) l -> sum_balances s l <= s + total l.
Proof.
  revert s. induction l as [|b l IH]; intros s Hs Hl; simpl.
  - unfold total. simpl. lia.
  - inversion Hl as [|? ? Hb Hl']; subst.
    assert (Hw : 0 <= wrap64 (s + b) <= s + b).
    { unfold wrap64. split; [apply Z.mod_pos_bound; lia | apply Z.mod_le; lia]. }
    specialize (IH (wrap64 (s + b)) (proj1 Hw) Hl'). unfold total in *. simpl. lia.
Qed.

(** Without overflow it is the plain sum. *)
Lemma sum_balances_total s l :
  0 <= s -> Forall (fun b => 0 <= b) l -> s + total l < 2 ^ 64 ->
  sum_balances s l = s + total l.
Proof.
  revert s. induction l as [|b l IH]; intros s Hs Hl Hlt; simpl.
  - unfold total. simpl. lia.
  - inversion Hl as [|? ? Hb Hl']; subst.
    pose proof (total_nonneg l Hl') as Hnn.
    unfold total in *. simpl_all.
    rewrite (wrap64_small (s + b)) by (unfold uint64; lia).
    rewrite IH; [lia | lia | exact Hl' | lia].
Qed.

Lemma counted_balances_nonneg sels : forall bals,
  Forall (fun b => 0 <= b) bals -> Forall (fun b => 0 <= b) (counted_balances sels bals).
Proof.
  induction sels as [|s sels IH]; intros bals Hb; simpl; [constructor|].
  destruct bals as [|b bals]; [constructor|]. inversion Hb; subst.
  apply Forall_app. split; [destruct (below_expected s b); repeat constructor; assumption|].
  apply IH. assumption.
Qed.

(** The primary scan when it never stops early: in probe mode, or when no
    partial sum exceeds the target. *)
Lemma primary_loop_all V bc addrs bals sels : forall i t,
  (length sels + i <= length addrs)%nat ->
  (length sels + i <= length bals)%nat ->
  bc = true \/
    (forall p q, counted_balances sels (drop i bals) = (p ++ q)%list ->
                 sum_balances (t_sum t) p <= V) ->
  exists t',
    primary_loop V bc addrs bals i sels t = Returned t' /\
    t_sum t' = sum_balances (t_sum t) (counted_balances sels (drop i bals)).
Proof.
  induction sels as [|s rest IH]; intros i t Ha Hb Hall; simpl.
  - exists t. split; reflexivity.
  - simpl in Ha, Hb.
    destruct (lookup_lt_is_Some_2 bals i) as [b Hbi]; [lia|].
    destruct (lookup_lt_is_Some_2 addrs i) as [a Hai]; [lia|].
    rewrite Hbi. rewrite (drop_S _ _ _ Hbi) in *. simpl_all.
    destruct (below_expected s b) eqn:Hbelow; simpl_all.
    + apply IH; [lia | lia | exact Hall].
    + assert (Hnext : bc = true \/
         (forall p q, counted_balances rest (drop (S i) bals) = (p ++ q)%list ->
                      sum_balances (t_sum (add_to_sum b t)) p <= V)).
      { destruct Hall as [Hall|Hall]; [left; exact Hall|]. right. intros p q Hpq.
        apply (Hall (b :: p) q). simpl. rewrite Hpq. reflexivity. }
      destruct (b <=? 0).
      * destruct (IH (S i) (add_to_sum b t)) as (t' & Hrun & Hsum); [lia | lia | exact Hnext|].
        exists t'. split; [exact Hrun | exact Hsum].
      * rewrite Hai.
        assert (Hcont : (t_sum
                  (markForRemoval bc (keyIndex s)
                     (addAsInput bc
                        {| Address := a; KeyIndex := keyIndex s; Balance := b;
                           Security := SecurityLevel (req s) |} (add_to_sum b t)))
                  >? V) && negb bc = false).
        { destruct Hall as [->|Hall]; [apply andb_false_r|].
          apply andb_false_iff. left. simpl.
          specialize (Hall [b] (counted_balances rest (drop (S i) bals)) eq_refl).
          simpl in Hall. destruct bc; simpl; lia. }
        rewrite Hcont.
        match goal with |- context [primary_loop _ _ _ _ _ _ ?t1] =>
          destruct (IH (S i) t1) as (t' & Hrun & Hsum); [lia | lia | |] end.
        { destruct bc; simpl; exact Hnext. }
        exists t'. split; [exact Hrun|]. rewrite Hsum. destruct bc; reflexivity.
Qed.

Lemma hasIncoming_loop_returns addr bndls :
  Forall well_formed bndls ->
  forall persisted w,
  exists r w', hasIncoming_loop addr bndls persisted w = (Returned r, w').
Proof.
  induction 1 as [|bndl rest (tail & more & p & -> & Hp) _ IH]; intros persisted w; simpl.
  - eauto.
  - rewrite Hp. destruct p; [apply IH|].
    destruct (decide _); [apply IH|].
    destruct (negb _); [apply IH|].
    run. destruct (CheckConsistency _ _ _) as [[|]|e]; eauto.
Qed.

Lemma hasIncoming_returns addr w :
  (forall bndls,
     GetBundlesFromAddresses (api (setts (w_acc w))) (w_log w) [addr] true = Ok bndls ->
     Forall well_formed bndls) ->
  exists r w', hasIncomingConsistentValueTransfer addr w = (Returned r, w').
Proof.
  intros Hwf. unfold hasIncomingConsistentValueTransfer. run.
  destruct (GetBundlesFromAddresses _ _ _ _) as [bndls|e]; [|eauto].
  apply hasIncoming_loop_returns. apply Hwf. reflexivity.
Qed.

(** The scan of the timed out addresses when it never stops early. *)
Lemma secondary_loop_all V bc addrs bals start sels : forall i t w,
  (forall h addr bndls,
     GetBundlesFromAddresses (api (setts (w_acc w))) h [addr] true = Ok bndls ->
     Forall well_formed bndls) ->
  (length sels + i <= length addrs)%nat ->
  (length sels + (start + i) <= length bals)%nat ->
  uint64 (t_sum t) ->
  bc = true \/
    (forall p q, take (length sels) (drop (start + i) bals) = (p ++ q)%list ->
                 sum_balances (t_sum t) p <= V) ->
  exists t' w',
    secondary_loop V bc addrs bals start i sels t w = (Returned t', w') /\
    t_sum t' = sum_balances (t_sum t) (take (length sels) (drop (start + i) bals)).
Proof.
  induction sels as [|s rest IH]; intros i t w Hwf Ha Hb Ht Hall; simpl.
  - exists t, w. split; reflexivity.
  - simpl in Ha, Hb.
    destruct (lookup_lt_is_Some_2 bals (start + i)) as [b Hbi]; [lia|].
    destruct (lookup_lt_is_Some_2 addrs i) as [a Hai]; [lia|].
    rewrite Hai, Hbi. rewrite (drop_S _ _ _ Hbi) in *. simpl_all.
    replace (S (start + i)) with (start + S i)%nat in * by lia.
    assert (Hnext : bc = true \/
       (forall p q, take (length rest) (drop (start + S i) bals) = (p ++ q)%list ->
                    sum_balances (wrap64 (t_sum t + b)) p <= V)).
    { destruct Hall as [Hall|Hall]; [left; exact Hall|]. right. intros p q Hpq.
      apply (Hall (b :: p) q). simpl. rewrite Hpq. reflexivity. }
    destruct (Z.eqb_spec b 0) as [->|Hnz].
    + rewrite Z.add_0_r, (wrap64_small _ Ht) in *.
      rewrite run_bind.
      pose proof (hasIncoming_keeps a w) as Hkeep.
      destruct (hasIncoming_returns a w) as ([has err] & w1 & Hprobe); [apply Hwf|].
      rewrite Hprobe in *. simpl in Hkeep.
      destruct (has || _).
      * apply IH; try assumption; try lia. rewrite Hkeep. exact Hwf.
      * match goal with |- context [secondary_loop _ _ _ _ _ _ _ ?t1 _] =>
          destruct (IH (S i) t1 w1) as (t' & w' & Hrun & Hsum) end;
          try lia.
        -- rewrite Hkeep. exact Hwf.
        -- destruct bc; exact Ht.
        -- destruct bc; exact Hnext.
        -- exists t', w'. split; [exact Hrun|]. rewrite Hsum. destruct bc; reflexivity.
    + assert (Hcont : (t_sum
                (addAsInput bc
                   {| Address := a; KeyIndex := keyIndex s; Balance := b;
                      Security := SecurityLevel (req s) |}
                   (add_to_sum b (markForRemoval bc (keyIndex s) t))) >? V)
                && negb bc = false).
      { destruct Hall as [->|Hall]; [apply andb_false_r|].
        apply andb_false_iff. left.
        specialize (Hall [b] (take (length rest) (drop (start + S i) bals)) eq_refl).
        simpl in Hall. destruct bc; simpl; lia. }
      rewrite Hcont.
      match goal with |- context [secondary_loop _ _ _ _ _ _ _ ?t1 _] =>
        destruct (IH (S i) t1 w) as (t' & w' & Hrun & Hsum) end;
        try assumption; try lia.
      * destruct bc; simpl; apply wrap64_range.
      * destruct bc; simpl; exact Hnext.
      * exists t', w'. split; [exact Hrun|]. rewrite Hsum. destruct bc; reflexivity.
Qed.

Lemma classify_lengths seed now reqs : forall c0 c,
  classify seed now reqs c0 = Returned c ->
  length (primaryAddrs c0) = length (primarySelection c0) ->
  length (secondaryAddrs c0) = length (secondarySelection c0) ->
  length (primaryAddrs c) = length (primarySelection c) /\
  length (secondaryAddrs c) = length (secondarySelection c).
Proof.
  induction reqs as [|[k r] rest IH]; intros c0 c; unfold classify; fold classify.
  - intros [= <-]. auto.
  - assert (Hp : forall a s,
        length (primaryAddrs c0) = length (primarySelection c0) ->
        length (primaryAddrs (add_primary a s c0)) = length (primarySelection (add_primary a s c0)))
      by (intros; simpl; rewrite !length_app; simpl; lia).
    assert (Hs : forall a s,
        length (secondaryAddrs c0) = length (secondarySelection c0) ->
        length (secondaryAddrs (add_secondary a s c0))
        = length (secondarySelection (add_secondary a s c0)))
      by (intros; simpl; rewrite !length_app; simpl; lia).
    destruct (TimeoutAt _) as [timeoutAt|].
    + destruct (now >? timeoutAt); [intros H H1 H2; eapply IH; eauto|].
      destruct (MultiUse _).
      * destruct (ExpectedAmount _); intros H H1 H2; eapply IH; eauto.
      * intros H H1 H2; eapply IH; eauto.
    + destruct (ExpectedAmount _); [|discriminate]. intros H H1 H2; eapply IH; eauto.
Qed.

Lemma total_prefix_le p q :
  Forall (fun b => 0 <= b) (p ++ q) -> total p <= total (p ++ q).
Proof.
  intros H. apply Forall_app in H as [_ Hq]. rewrite total_app.
  pose proof (total_nonneg q Hq). lia.
Qed.

Lemma Forall_take_drop_nonneg (bals : list Z) n m :
  Forall (fun b => 0 <= b) bals -> Forall (fun b => 0 <= b) (take n (drop m bals)).
Proof. intros H. apply Forall_take, Forall_drop, H. Qed.

(** Input selection when neither scan stops early: in probe mode, or when the
    counted primary balances and the secondary balances together stay below
    the target. *)
Lemma defaultInputSelection_exhaustive V bc w reqs ms now seed c bals :
  GetDepositRequests (store (setts (w_acc w))) (w_log w) (id (w_acc w)) = Ok reqs ->
  GetLatestSolidSubtangleMilestone (api (setts (w_acc w)))
    (StoreGetDepositRequests :: w_log w) = Ok ms ->
  Now (clock (setts (w_acc w)))
    (ApiGetLatestSolidSubtangleMilestone :: StoreGetDepositRequests :: w_log w) = Ok now ->
  Seed (seedProv (setts (w_acc w)))
    (ClockNow :: ApiGetLatestSolidSubtangleMilestone :: StoreGetDepositRequests :: w_log w)
  = Ok seed ->
  classify seed now reqs no_candidates = Returned c ->
  GetBalances (api (setts (w_acc w)))
    (SeedProvSeed :: ClockNow :: ApiGetLatestSolidSubtangleMilestone
       :: StoreGetDepositRequests :: w_log w)
    (primaryAddrs c ++ secondaryAddrs c) 100 ms = Ok bals ->
  (length (primarySelection c) + length (secondarySelection c) <= length bals)%nat ->
  (forall h addr bndls,
     GetBundlesFromAddresses (api (setts (w_acc w))) h [addr] true = Ok bndls ->
     Forall well_formed bndls) ->
  bc = true \/
    (Forall (fun b => 0 <= b) bals /\
     total (counted_balances (primarySelection c) bals) + total (secondary_balances c bals)
     < V) ->
  exists w',
    defaultInputSelection V bc w =
    (Returned
       (if bc
        then (sum_balances 0
                (counted_balances (primarySelection c) bals ++ secondary_balances c bals),
              [], [], None)
        else (0, [], [], Some ErrInsufficientBalance)),
     w').
Proof.
  intros Hreqs Hms Hnow Hseed Hc Hbals Hlen Hwf Hall.
  assert (Hle : forall p q,
    Forall (fun b => 0 <= b) bals ->
    (counted_balances (primarySelection c) bals ++ secondary_balances c bals = p ++ q)%list ->
    sum_balances 0 p
    <= total (counted_balances (primarySelection c) bals) + total (secondary_balances c bals)).
  { intros p q Hnn Hpq. rewrite <- total_app, Hpq.
    assert (Hpqnn : Forall (fun b => 0 <= b) (p ++ q)).
    { rewrite <- Hpq. apply Forall_app. split;
        [apply counted_balances_nonneg, Hnn | apply Forall_take_drop_nonneg, Hnn]. }
    pose proof (sum_balances_le 0 p (Z.le_refl 0) (proj1 (proj1 (Forall_app _ _ _) Hpqnn))).
    pose proof (total_prefix_le p q Hpqnn). lia. }
  unfold defaultInputSelection. run. rewrite Hreqs. simpl.
  destruct reqs as [|kr rest]; simpl.
  - unfold classify in Hc. injection Hc as <-.
    destruct bc; eexists; reflexivity.
  - rewrite Hms. simpl. rewrite Hnow. simpl. rewrite Hseed. simpl. rewrite Hc. simpl.
    rewrite Hbals. simpl.
    destruct (classify_lengths _ _ _ _ _ Hc eq_refl eq_refl) as [Hlp Hls].
    destruct (primary_loop_all V bc (primaryAddrs c) bals (primarySelection c) 0
                {| t_sum := 0; t_inputs := []; t_toRemove := [] |})
      as (t1 & Hrun1 & Hsum1); [lia | lia | |].
    { destruct Hall as [Hall|[Hnn Hlt]]; [left; exact Hall|]. right. intros p q Hpq.
      rewrite drop_0 in Hpq. simpl.
      specialize (Hle p (q ++ secondary_balances c bals)%list Hnn).
      rewrite app_assoc, <- Hpq in Hle. specialize (Hle eq_refl). lia. }
    rewrite Hrun1. simpl. rewrite drop_0 in Hsum1. simpl in Hsum1.
    assert (Henter : (t_sum t1 <? V) || bc = true).
    { destruct Hall as [->|[Hnn Hlt]]; [apply orb_true_r|].
      apply orb_true_iff. left. apply Z.ltb_lt. rewrite Hsum1.
      specialize (Hle (counted_balances (primarySelection c) bals)
                    (secondary_balances c bals) Hnn eq_refl). lia. }
    rewrite Henter.
    match goal with |- context [secondary_loop _ _ _ _ _ _ _ _ ?w1] =>
      destruct (secondary_loop_all V bc (secondaryAddrs c) bals (length (primarySelection c))
                  (secondarySelection c) 0 t1 w1) as (t2 & w2 & Hrun2 & Hsum2) end.
    + exact Hwf.
    + lia.
    + lia.
    + rewrite Hsum1. apply sum_balances_range. unfold uint64. lia.
    + destruct Hall as [Hall|[Hnn Hlt]]; [left; exact Hall|]. right. intros p q Hpq.
      rewrite Nat.add_0_r in Hpq. rewrite Hsum1, <- sum_balances_app.
      specialize (Hle (counted_balances (primarySelection c) bals ++ p)%list q Hnn).
      rewrite <- app_assoc, <- Hpq in Hle. specialize (Hle eq_refl). lia.
    + rewrite Hrun2. rewrite Nat.add_0_r in Hsum2.
      fold (secondary_balances c bals) in Hsum2.
      rewrite Hsum1, <- sum_balances_app in Hsum2.
      destruct bc.
      * eexists. rewrite Hsum2. reflexivity.
      * destruct Hall as [Hall|[Hnn Hlt]]; [discriminate|].
        specialize (Hle (counted_balances (primarySelection c) bals
                         ++ secondary_balances c bals)%list [] Hnn).
        rewrite app_nil_r in Hle. specialize (Hle eq_refl).
        destruct (Z.ltb_spec (t_sum t2) V); [|lia]. eexists. reflexivity.
Qed.

(** *** What input selection returns *)

Lemma returns_ret {A} (Q : A -> Prop) (a : A) : Q a -> returns_only Q (mret a).
Proof. intros HQ w a' [= <-]. exact HQ. Qed.

Lemma returns_bind {A B} (Q : B -> Prop) (m : M A) (k : A -> M B) :
  (forall a, returns_only Q (k a)) -> returns_only Q (m ≫= k).
Proof.
  intros Hk w b. rewrite run_bind. destruct (m w) as [[a|msg] w1]; simpl.
  - apply Hk.
  - discriminate.
Qed.

Ltac returns_step :=
  match goal with
  | |- returns_only _ (mret _) => apply returns_ret
  | |- returns_only _ (_ ≫= _) => apply returns_bind; intros ?
  | |- returns_only _ (match ?x with _ => _ end) => destruct x
  | |- returns_only _ (let _ := _ in _) => cbv zeta
  end.

Lemma probe_selects_nothing V : returns_only nothing_selected (defaultInputSelection V true).
Proof.
  unfold defaultInputSelection. repeat returns_step; split; reflexivity.
Qed.

Lemma failure_selects_nothing V bc :
  returns_only error_selects_nothing (defaultInputSelection V bc).
Proof.
  unfold defaultInputSelection.
  repeat returns_step; intros Herr; simpl_all;
    try (repeat split; reflexivity); destruct Herr; discriminate.
Qed.

(** C5.  In probe mode marking an index for removal and adding an input do
    nothing; input selection leaves the account as it is, makes no
    call but reads of the store, the ledger, the clock and the seed (so no
    store write), and whenever it returns, the input list and the removal
    list are empty.  When the collaborators answer, the store holds no
    remainder without expected amount, the ledger reports a balance for
    every candidate and hands out well formed bundles, it returns the sum,
    modulo 2^64, of all counted primary balances and all secondary balances:
    both scans run to their end. *)
Theorem probe_mode_only_reads V w :
  (forall keyIndex input t,
     markForRemoval true keyIndex t = t /\ addAsInput true input t = t) /\
  w_acc (defaultInputSelection V true w).2 = w_acc w /\
  (exists new,
     w_log (defaultInputSelection V true w).2 = (new ++ w_log w)%list /\
     Forall (fun e => selection_read e /\ ~ store_write e) new) /\
  (forall sum ins rem err,
     (defaultInputSelection V true w).1 = Returned (sum, ins, rem, err) ->
     ins = [] /\ rem = []) /\
  (forall reqs ms now seed c bals,
     GetDepositRequests (store (setts (w_acc w))) (w_log w) (id (w_acc w)) = Ok reqs ->
     GetLatestSolidSubtangleMilestone (api (setts (w_acc w)))
       (StoreGetDepositRequests :: w_log w) = Ok ms ->
     Now (clock (setts (w_acc w)))
       (ApiGetLatestSolidSubtangleMilestone :: StoreGetDepositRequests :: w_log w) = Ok now ->
     Seed (seedProv (setts (w_acc w)))
       (ClockNow :: ApiGetLatestSolidSubtangleMilestone :: StoreGetDepositRequests :: w_log w)
     = Ok seed ->
     classify seed now reqs no_candidates = Returned c ->
     GetBalances (api (setts (w_acc w)))
       (SeedProvSeed :: ClockNow :: ApiGetLatestSolidSubtangleMilestone
          :: StoreGetDepositRequests :: w_log w)
       (primaryAddrs c ++ secondaryAddrs c) 100 ms = Ok bals ->
     (length (primarySelection c) + length (secondarySelection c) <= length bals)%nat ->
     (forall h addr bndls,
        GetBundlesFromAddresses (api (setts (w_acc w))) h [addr] true = Ok bndls ->
        Forall well_formed bndls) ->
     (defaultInputSelection V true w).1 =
     Returned
       (sum_balances 0
          (counted_balances (primarySelection c) bals ++ secondary_balances c bals),
        [], [], None)).
Proof.
  split; [intros; split; reflexivity|].
  split; [apply defaultInputSelection_keeps|]. split; [|split].
  - destruct (defaultInputSelection_logs V true w) as (new & Hlog & Hreads).
    exists new. split; [exact Hlog|]. eapply Forall_impl; [exact Hreads|].
    intros e He. split; [exact He | apply selection_read_no_write, He].
  - intros sum ins rem err Hrun. apply (probe_selects_nothing V w _ Hrun).
  - intros reqs ms now seed c bals Hreqs Hms Hnow Hseed Hc Hbals Hlen Hwf.
    destruct (defaultInputSelection_exhaustive V true w reqs ms now seed c bals)
      as (w' & Hrun); auto.
    rewrite Hrun. reflexivity.
Qed.

(** C2 (amended).  In transfer mode, whenever input selection fails it returns
    a zero sum, no inputs and no indices to remove, so the indices marked in
    the secondary pass are dropped; it leaves the account as it is and makes
    no store write.  When the counted primary balances and the secondary
    balances together stay below the target it fails with
    [ErrInsufficientBalance], and [send] then stops with the wrapped error in
    the world input selection left, before any store write: nothing is
    freed. *)
Theorem insufficient_balance_frees_nothing V w :
  (forall sum ins rem err,
     (defaultInputSelection V false w).1 = Returned (sum, ins, rem, Some err) ->
     sum = 0 /\ ins = [] /\ rem = []) /\
  w_acc (defaultInputSelection V false w).2 = w_acc w /\
  (exists new,
     w_log (defaultInputSelection V false w).2 = (new ++ w_log w)%list /\
     Forall (fun e => selection_read e /\ ~ store_write e) new) /\
  (forall reqs ms now seed c bals,
     GetDepositRequests (store (setts (w_acc w))) (w_log w) (id (w_acc w)) = Ok reqs ->
     GetLatestSolidSubtangleMilestone (api (setts (w_acc w)))
       (StoreGetDepositRequests :: w_log w) = Ok ms ->
     Now (clock (setts (w_acc w)))
       (ApiGetLatestSolidSubtangleMilestone :: StoreGetDepositRequests :: w_log w) = Ok now ->
     Seed (seedProv (setts (w_acc w)))
       (ClockNow :: ApiGetLatestSolidSubtangleMilestone :: StoreGetDepositRequests :: w_log w)
     = Ok seed ->
     classify seed now reqs no_candidates = Returned c ->
     GetBalances (api (setts (w_acc w)))
       (SeedProvSeed :: ClockNow :: ApiGetLatestSolidSubtangleMilestone
          :: StoreGetDepositRequests :: w_log w)
       (primaryAddrs c ++ secondaryAddrs c) 100 ms = Ok bals ->
     (length (primarySelection c) + length (secondarySelection c) <= length bals)%nat ->
     (forall h addr bndls,
        GetBundlesFromAddresses (api (setts (w_acc w))) h [addr] true = Ok bndls ->
        Forall well_formed bndls) ->
     Forall (fun b => 0 <= b) bals ->
     total (counted_balances (primarySelection c) bals) + total (secondary_balances c bals)
     < V ->
     (defaultInputSelection V false w).1 = Returned (0, [], [], Some ErrInsufficientBalance)) /\
  (forall targets sum ins rem err,
     Sum targets = V ->
     V > 0 ->
     (defaultInputSelection V false w).1 = Returned (sum, ins, rem, Some err) ->
     send targets w =
     (Returned ([], Some (Wrap err "failed to perform input selection in send op.")),
      (defaultInputSelection V false w).2)).
Proof.
  split; [|split; [apply defaultInputSelection_keeps|split; [|split]]].
  - intros sum ins rem err Hrun.
    apply (failure_selects_nothing V false w _ Hrun). simpl. eauto.
  - destruct (defaultInputSelection_logs V false w) as (new & Hlog & Hreads).
    exists new. split; [exact Hlog|]. eapply Forall_impl; [exact Hreads|].
    intros e He. split; [exact He | apply selection_read_no_write, He].
  - intros reqs ms now seed c bals Hreqs Hms Hnow Hseed Hc Hbals Hlen Hwf Hnn Hlt.
    destruct (defaultInputSelection_exhaustive V false w reqs ms now seed c bals)
      as (w' & Hrun); auto.
    rewrite Hrun. reflexivity.
  - intros targets sum ins rem err HV Hpos Hrun. unfold send, runInputSelection. run.
    rewrite HV. destruct (Z.gtb_spec V 0); [|lia].
    destruct (inputSelectionStrategy _).
    destruct (defaultInputSelection V false w) as [o w1]. simpl_all. subst o. reflexivity.
Qed.

(** *** The primary scan in transfer mode *)

Lemma funded_inputs_positive sels : forall addrs bals,
  Forall (fun input => 0 < Balance input) (funded_inputs sels addrs bals).
Proof.
  induction sels as [|s sels IH]; intros addrs bals; simpl; [constructor|].
  destruct addrs as [|a addrs]; [constructor|]. destruct bals as [|b bals]; [constructor|].
  apply Forall_app. split; [|apply IH].
  destruct (below_expected s b); simpl; [constructor|].
  destruct (Z.leb_spec b 0); repeat constructor. simpl. lia.
Qed.

Lemma total_balances_nonneg (inputs : list Input) :
  Forall (fun input => 0 < Balance input) inputs -> 0 <= total (Balance <$> inputs).
Proof.
  intros H. apply total_nonneg. apply Forall_fmap. eapply Forall_impl; [exact H|].
  simpl. intros; lia.
Qed.

Lemma primary_loop_greedy V addrs bals sels : forall i t,
  (length sels + i <= length addrs)%nat ->
  (length sels + i <= length bals)%nat ->
  Forall (fun b => 0 <= b) bals ->
  0 <= t_sum t <= V ->
  t_sum t + total (Balance <$> funded_inputs sels (drop i addrs) (drop i bals)) < 2 ^ 64 ->
  exists chosen rest,
    funded_inputs sels (drop i addrs) (drop i bals) = (chosen ++ rest)%list /\
    primary_loop V false addrs bals i sels t
    = Returned {| t_sum := t_sum t + total (Balance <$> chosen);
                  t_inputs := t_inputs t ++ chosen;
                  t_toRemove := t_toRemove t ++ (KeyIndex <$> chosen) |} /\
    (rest = [] \/ V < t_sum t + total (Balance <$> chosen)) /\
    (forall p x q, chosen = (p ++ x :: q)%list -> t_sum t + total (Balance <$> p) <= V).
Proof.
  induction sels as [|s sels IH]; intros i [sum ins rem] Ha Hb Hnn Hsum Hno; simpl_all.
  - exists [], []. repeat split.
    + unfold total. simpl. rewrite Z.add_0_r, !app_nil_r. reflexivity.
    + left. reflexivity.
    + intros p x q H. destruct p; discriminate H.
  - destruct (lookup_lt_is_Some_2 bals i) as [b Hbi]; [lia|].
    destruct (lookup_lt_is_Some_2 addrs i) as [a Hai]; [lia|].
    assert (Hb0 : 0 <= b).
    { eapply (proj1 (Forall_forall _ _) Hnn). eapply list_elem_of_lookup_2. exact Hbi. }
    rewrite Hbi. rewrite (drop_S _ _ _ Hbi), (drop_S _ _ _ Hai) in *. simpl_all.
    pose proof (total_balances_nonneg _
                  (funded_inputs_positive sels (drop (S i) addrs) (drop (S i) bals))) as Hrest.
    destruct (below_expected s b); simpl_all.
    + apply (IH (S i) {| t_sum := sum; t_inputs := ins; t_toRemove := rem |});
        simpl; auto; lia.
    + destruct (Z.leb_spec b 0) as [Hz|Hpos]; simpl_all.
      * assert (b = 0) by lia. subst b. unfold add_to_sum. simpl.
        rewrite Z.add_0_r, wrap64_small by (unfold uint64; lia).
        apply (IH (S i) {| t_sum := sum; t_inputs := ins; t_toRemove := rem |});
          simpl; auto; lia.
      * rewrite Hai. unfold add_to_sum, addAsInput, markForRemoval. simpl.
        assert (Hno' : sum + (b + total (Balance <$> funded_inputs sels (drop (S i) addrs)
                                           (drop (S i) bals))) < 2 ^ 64) by exact Hno.
        rewrite wrap64_small by (unfold uint64; lia).
        rewrite andb_true_r.
        set (input := {| Address := a; KeyIndex := keyIndex s; Balance := b;
                         Security := SecurityLevel (req s) |}).
        destruct (Z.gtb_spec (sum + b) V) as [Hgt|Hle].
        -- exists [input], (funded_inputs sels (drop (S i) addrs) (drop (S i) bals)).
           split; [reflexivity|]. split.
           { unfold total. simpl. rewrite Z.add_0_r. reflexivity. }
           split.
           { right. unfold total. simpl. lia. }
           intros p x q H. destruct p as [|y p]; [unfold total; simpl; lia|].
           destruct p; discriminate H.
        -- assert (Htot : forall l, total (Balance <$> input :: l) = b + total (Balance <$> l))
             by (intros; reflexivity).
           destruct (IH (S i) {| t_sum := sum + b; t_inputs := ins ++ [input];
                                 t_toRemove := rem ++ [keyIndex s] |})
             as (chosen & rest & Hsplit & Hrun & Hstop & Hmin);
             cbn [t_sum t_inputs t_toRemove]; auto; try lia.
           cbn [t_sum t_inputs t_toRemove] in Hrun, Hstop, Hmin.
           exists (input :: chosen), rest. split; [rewrite Hsplit; reflexivity|].
           split.
           { rewrite Hrun. f_equal.
             f_equal; [rewrite Htot; lia | rewrite <- app_assoc; reflexivity
                      | rewrite <- app_assoc; reflexivity]. }
           split.
           { destruct Hstop as [Hstop|Hstop]; [left; exact Hstop|].
             right. rewrite Htot. lia. }
           intros p x q H. destruct p as [|y p]; [unfold total; simpl; lia|].
           injection H as <- H. specialize (Hmin p x q H).
           rewrite Htot. lia.
Qed.

(** C1 (amended).  In transfer mode, when the store holds deposit requests
    none of which is a remainder without expected amount, the collaborators
    answer, the ledger reports a balance for every primary address, and the
    funded primary addresses (balance not below the expected amount and not
    zero), taken in the order in which the store's map was visited, sum up to
    at least the target without exceeding 64 bits, input selection returns
    the shortest prefix of them whose sum exceeds the target (all of them if
    none does), the sum of that prefix, and the key indices of exactly those
    addresses as the ones to remove; the secondary addresses are not looked
    at. *)
Theorem primary_selection_is_greedy_prefix V w reqs ms now seed c bals :
  GetDepositRequests (store (setts (w_acc w))) (w_log w) (id (w_acc w)) = Ok reqs ->
  reqs <> [] ->
  GetLatestSolidSubtangleMilestone (api (setts (w_acc w)))
    (StoreGetDepositRequests :: w_log w) = Ok ms ->
  Now (clock (setts (w_acc w)))
    (ApiGetLatestSolidSubtangleMilestone :: StoreGetDepositRequests :: w_log w) = Ok now ->
  Seed (seedProv (setts (w_acc w)))
    (ClockNow :: ApiGetLatestSolidSubtangleMilestone :: StoreGetDepositRequests :: w_log w)
  = Ok seed ->
  classify seed now reqs no_candidates = Returned c ->
  GetBalances (api (setts (w_acc w)))
    (SeedProvSeed :: ClockNow :: ApiGetLatestSolidSubtangleMilestone
       :: StoreGetDepositRequests :: w_log w)
    (primaryAddrs c ++ secondaryAddrs c) 100 ms = Ok bals ->
  (length (primarySelection c) <= length bals)%nat ->
  Forall (fun b => 0 <= b) bals ->
  0 <= V ->
  V <= total (Balance <$> funded_inputs (primarySelection c) (primaryAddrs c) bals) ->
  total (Balance <$> funded_inputs (primarySelection c) (primaryAddrs c) bals) < 2 ^ 64 ->
  exists chosen rest,
    funded_inputs (primarySelection c) (primaryAddrs c) bals = (chosen ++ rest)%list /\
    (rest = [] \/ V < total (Balance <$> chosen)) /\
    (forall p x q, chosen = (p ++ x :: q)%list -> total (Balance <$> p) <= V) /\
    defaultInputSelection V false w =
    (Returned (total (Balance <$> chosen), chosen, KeyIndex <$> chosen, None),
     after [ApiGetBalances (primaryAddrs c ++ secondaryAddrs c) 100 ms; SeedProvSeed;
            ClockNow; ApiGetLatestSolidSubtangleMilestone; StoreGetDepositRequests] w).
Proof.
  intros Hreqs Hne Hms Hnow Hseed Hc Hbals Hlen Hnn HV Hge Hno.
  destruct (classify_lengths _ _ _ _ _ Hc eq_refl eq_refl) as [Hlp _].
  destruct (primary_loop_greedy V (primaryAddrs c) bals (primarySelection c) 0
              {| t_sum := 0; t_inputs := []; t_toRemove := [] |})
    as (chosen & rest & Hsplit & Hrun & Hstop & Hmin);
    cbn [t_sum t_inputs t_toRemove]; rewrite ?drop_0; auto; try lia.
  cbn [t_sum t_inputs t_toRemove] in Hrun, Hstop, Hmin. rewrite !drop_0 in Hsplit.
  rewrite Z.add_0_l in Hrun, Hstop. rewrite !app_nil_l in Hrun.
  exists chosen, rest. split; [exact Hsplit|]. split; [exact Hstop|]. split.
  { intros p x q H. specialize (Hmin p x q H). lia. }
  assert (Hreached : V <= total (Balance <$> chosen)).
  { destruct Hstop as [->|Hgt]; [|lia]. rewrite app_nil_r in Hsplit.
    rewrite <- Hsplit. exact Hge. }
  unfold defaultInputSelection. run. rewrite Hreqs. simpl.
  destruct reqs as [|kr more]; [contradiction|]. simpl.
  rewrite Hms. simpl. rewrite Hnow. simpl. rewrite Hseed. simpl. rewrite Hc. simpl.
  rewrite Hbals. simpl. rewrite Hrun. simpl.
  destruct (Z.ltb_spec (total (Balance <$> chosen)) V) as [Hlt|_]; [lia|]. simpl.
  destruct (Z.ltb_spec (total (Balance <$> chosen)) V) as [Hlt|_]; [lia|].
  reflexivity.
Qed.

(** *** Sending *)

Ltac quiet := repeat constructor; exact I.

Lemma send_prepared_shape targets inputs remainderAddress forRemoval w :
  exists new,
    w_log (send_prepared targets inputs remainderAddress forRemoval w).2
    = (new ++ w_log w)%list /\
    send_shape (store (setts (w_acc w))) (id (w_acc w)) [] (w_log w)
      (send_prepared targets inputs remainderAddress forRemoval w).1 new.
Proof.
  unfold send_prepared. run.
  destruct (Now _ _) as [currentTime|e]; simpl;
    [|exists [ClockNow]; split; [reflexivity | left; quiet]].
  destruct (Seed _ _) as [seed|e]; simpl;
    [|eexists [_; _]; split; [reflexivity | left; quiet]].
  destruct (PrepareTransfers _ _ _ _ _) as [bundleTrytes|e]; simpl;
    [|eexists [_; _; _]; split; [reflexivity | left; quiet]].
  destruct (GetTransactionsToApprove _ _ _) as [[trunk branch]|e]; simpl;
    [|eexists [_; _; _; _]; split; [reflexivity | left; quiet]].
  destruct (AttachToTangle _ _ _ _ _ _) as [powedTrytes|e]; simpl;
    [|eexists [_; _; _; _; _]; split; [reflexivity | left; quiet]].
  destruct powedTrytes as [|tailTrytes more]; simpl;
    [eexists [_; _; _; _; _]; split; [reflexivity | left; quiet]|].
  destruct (AsTransactionObject tailTrytes) as [tailTx|e] eqn:Htail; simpl;
    [|eexists [_; _; _; _; _]; split; [reflexivity | left; quiet]].
  destruct (AddPendingTransfer _ _ _ _ _ _) as [e|] eqn:Hstore; simpl.
  { eexists (_ :: [_; _; _; _; _]). split; [reflexivity|]. right. left.
    eexists _, _, _, _, e. split; [reflexivity|]. split; [quiet|].
    split; [exact Hstore | reflexivity]. }
  destruct (StoreAndBroadcast _ _ _) as [bndlTrytes|e]; simpl.
  - destruct (AsTransactionObjects bndlTrytes) as [bndl|e]; simpl.
    + eexists (_ :: _ :: _ :: [_; _; _; _; _]). split; [reflexivity|]. right. right.
      eexists [_], _, _, _, _. split; [reflexivity|]. split; [quiet|]. split; [quiet|].
      split; [exact Hstore|]. exists tailTrytes, more, tailTx. auto.
    + eexists (_ :: _ :: [_; _; _; _; _]). split; [reflexivity|]. right. right.
      eexists [], _, _, _, _. split; [reflexivity|]. split; [quiet|]. split; [quiet|].
      split; [exact Hstore|]. exists tailTrytes, more, tailTx. auto.
  - eexists (_ :: _ :: [_; _; _; _; _]). split; [reflexivity|]. right. right.
    eexists [], _, _, _, _. split; [reflexivity|]. split; [quiet|]. split; [quiet|].
    split; [exact Hstore|]. exists tailTrytes, more, tailTx. auto.
Qed.

(** Calls made before the send proper do not change its shape. *)
Lemma send_shape_extend st ident closing base o n1 n2 :
  Forall before_persist n1 ->
  send_shape st ident closing (n1 ++ base) o n2 ->
  send_shape st ident closing base o (n2 ++ n1).
Proof.
  intros Hq [Hquiet|[(tail & trytes & idx & earlier & err & -> & He & Hstore & Ho)
                    |(later & tail & trytes & idx & earlier & -> & Hl & He & Hstore & Htail)]].
  - left. apply Forall_app. split; assumption.
  - right. left. exists tail, trytes, idx, (earlier ++ n1)%list, err.
    split; [rewrite <- app_assoc; reflexivity|].
    split; [apply Forall_app; split; assumption|].
    split; [rewrite <- app_assoc; exact Hstore | exact Ho].
  - right. right. exists later, tail, trytes, idx, (earlier ++ n1)%list.
    split; [rewrite <- app_assoc; reflexivity|].
    split; [exact Hl|]. split; [apply Forall_app; split; assumption|].
    split; [rewrite <- app_assoc; exact Hstore | exact Htail].
Qed.

(** A panic or a return before the send proper. *)
Lemma send_shape_quiet st ident closing base o new :
  Forall before_persist new -> send_shape st ident closing base o new.
Proof. intros H. left. exact H. Qed.

Lemma send_shape_of_send targets w :
  exists new,
    w_log (send targets w).2 = (new ++ w_log w)%list /\
    send_shape (store (setts (w_acc w))) (id (w_acc w)) [] (w_log w) (send targets w).1 new.
Proof.
  (* the send proper, started in a world [w1] reached by quiet calls [n1] *)
  assert (Hprep : forall ins ra rem w1 n1,
            w_log w1 = (n1 ++ w_log w)%list -> Forall before_persist n1 ->
            setts (w_acc w1) = setts (w_acc w) -> id (w_acc w1) = id (w_acc w) ->
            exists new,
              w_log (send_prepared targets ins ra rem w1).2 = (new ++ w_log w)%list /\
              send_shape (store (setts (w_acc w))) (id (w_acc w)) [] (w_log w)
                (send_prepared targets ins ra rem w1).1 new).
  { intros ins ra rem w1 n1 Hlog Hq Hs Hi.
    destruct (send_prepared_shape targets ins ra rem w1) as (n2 & Hlog2 & Hshape).
    exists (n2 ++ n1)%list. split; [rewrite Hlog2, Hlog, app_assoc; reflexivity|].
    apply send_shape_extend; [exact Hq|]. rewrite <- Hlog, <- Hs, <- Hi. exact Hshape. }
  unfold send. destruct (Sum targets >? 0).
  - rewrite run_bind.
    destruct (runInputSelection_logs (Sum targets) false w) as (n1 & Hlog1 & Hreads).
    pose proof (runInputSelection_keeps (Sum targets) false w) as Hkeep1.
    assert (Hq1 : Forall before_persist n1)
      by (eapply Forall_impl; [exact Hreads | apply selection_read_before_persist]).
    destruct (runInputSelection (Sum targets) false w) as [[[[[sum ins] rem] err]|msg] w1];
      simpl_all; [|exists n1; split; [exact Hlog1 | left; exact Hq1]].
    destruct err as [err|];
      [exists n1; split; [exact Hlog1 | left; exact Hq1]|].
    destruct (sum >? Sum targets).
    + rewrite run_bind.
      match goal with |- context [allocateDepositRequest ?r w1] =>
        destruct (allocateDepositRequest_logs r w1) as (n2 & Hlog2 & Hq2);
        destruct (allocateDepositRequest_step r w1) as (n2' & k' & _ & Hacc2 & _);
        destruct (allocateDepositRequest r w1) as [[[depCond err]|msg] w2]
      end; simpl_all.
      * assert (Hlog12 : w_log w2 = ((n2 ++ n1) ++ w_log w)%list)
          by (rewrite Hlog2, Hlog1, app_assoc; reflexivity).
        assert (Hq12 : Forall before_persist (n2 ++ n1))
          by (apply Forall_app; split; assumption).
        destruct err as [err|]; [exists (n2 ++ n1)%list; split; [exact Hlog12 | left; exact Hq12]|].
        destruct depCond as [depCond|];
          [|exists (n2 ++ n1)%list; split; [exact Hlog12 | left; exact Hq12]].
        apply (Hprep _ _ _ w2 (n2 ++ n1)%list Hlog12 Hq12);
          rewrite Hacc2, Hkeep1; reflexivity.
      * exists (n2 ++ n1)%list. split; [rewrite Hlog2, Hlog1, app_assoc; reflexivity|].
        left. apply Forall_app; split; assumption.
    + apply (Hprep _ _ _ w1 n1 Hlog1 Hq1); rewrite Hkeep1; reflexivity.
  - apply (Hprep _ _ _ w []); [reflexivity | constructor | reflexivity | reflexivity].
Qed.

Lemma send_shape_close st ident base o new :
  send_shape st ident [] base o new ->
  send_shape st ident [MuUnlock] base o (MuUnlock :: new).
Proof.
  intros [Hquiet|[(tail & trytes & idx & earlier & err & -> & He & Hstore & Ho)
                 |(later & tail & trytes & idx & earlier & -> & Hl & He & Hstore & Htail)]].
  - left. constructor; [exact I | exact Hquiet].
  - right. left. exists tail, trytes, idx, earlier, err. auto.
  - right. right. exists (MuUnlock :: later), tail, trytes, idx, earlier.
    split; [reflexivity|]. split; [constructor; [exact I | exact Hl]|]. auto.
Qed.

(** C9.  The calls a [Send] adds to the log come in one of three shapes: no
    pending transfer is recorded and nothing is broadcast; or the recording
    of the pending transfer fails, [Send] returns that error and only the
    unlock follows; or the pending transfer (hash of the tail transaction,
    the trytes, the indices to free) is recorded successfully and the very
    next call is the one broadcast of the send, of the same trytes.  So a
    broadcast always comes right after the successful recording, and a failed
    recording is never followed by a broadcast. *)
Theorem pending_transfer_persisted_before_broadcast recipients w :
  exists new,
    w_log (Send recipients w).2 = (new ++ w_log w)%list /\
    (Forall before_persist new \/
     (exists tail trytes indices earlier err,
        new = MuUnlock :: StoreAddPendingTransfer tail trytes indices :: earlier /\
        Forall before_persist earlier /\
        AddPendingTransfer (store (setts (w_acc w))) (earlier ++ w_log w) (id (w_acc w))
          tail trytes indices = Some err /\
        (Send recipients w).1 = Returned ([], Some (Wrap err persist_failure))) \/
     (exists later tail trytes indices earlier,
        new = (later ++ ApiStoreAndBroadcast trytes
                     :: StoreAddPendingTransfer tail trytes indices :: earlier)%list /\
        Forall before_persist later /\
        Forall before_persist earlier /\
        AddPendingTransfer (store (setts (w_acc w))) (earlier ++ w_log w) (id (w_acc w))
          tail trytes indices = None /\
        exists first more tailTx,
          trytes = first :: more /\ AsTransactionObject first = Ok tailTx /\
          tail = tx_Hash tailTx)).
Proof.
  change (exists new,
    w_log (Send recipients w).2 = (new ++ w_log w)%list /\
    send_shape (store (setts (w_acc w))) (id (w_acc w)) [MuUnlock] (w_log w)
      (Send recipients w).1 new).
  unfold Send. run.
  destruct (running (w_acc w)); simpl;
    [|exists [MuUnlock; MuLock]; split; [reflexivity | left; quiet]].
  destruct (bool_decide _); simpl;
    [exists [MuUnlock; MuLock]; split; [reflexivity | left; quiet]|].
  destruct (forallb _ _); simpl;
    [|exists [MuUnlock; MuLock]; split; [reflexivity | left; quiet]].
  destruct (send_shape_of_send recipients {| w_acc := w_acc w; w_log := MuLock :: w_log w |})
    as (new & Hlog & Hshape).
  destruct (send recipients _) as [o w1]. simpl_all.
  exists (MuUnlock :: new ++ [MuLock])%list. split.
  - rewrite Hlog. simpl. rewrite <- app_assoc. reflexivity.
  - apply send_shape_close. apply send_shape_extend; [quiet | exact Hshape].
Qed.

(** C7 (amended).  When the bundle lookup answers with well formed bundles
    and every consistency check answers, [consistent] being what it reports,
    [hasIncomingConsistentValueTransfer] returns without error, and it
    returns true exactly when some listed bundle is unconfirmed, deposits a
    positive value onto the address, is reported consistent, and no confirmed
    bundle of the same bundle hash is listed before it: a confirmed bundle
    makes the loop skip the bundles of its family that are listed after
    it. *)
Theorem hasIncoming_skips_later_reattachments addr w bndls (consistent : Hash -> bool) :
  GetBundlesFromAddresses (api (setts (w_acc w))) (w_log w) [addr] true = Ok bndls ->
  Forall well_formed bndls ->
  (forall h tail,
     CheckConsistency (api (setts (w_acc w))) h tail = Ok (consistent tail)) ->
  exists has w',
    hasIncomingConsistentValueTransfer addr w = (Returned (has, None), w') /\
    (has = true <->
     exists pre bndl post,
       bndls = (pre ++ bndl :: post)%list /\
       unconfirmed bndl /\
       ~ confirmed_among pre bndl /\
       deposits_into addr bndl /\
       reported_consistent consistent bndl).
Proof.
  intros Hlookup Hwf Hcons.
  unfold hasIncomingConsistentValueTransfer. run. rewrite Hlookup.
  destruct (hasIncoming_loop_spec addr consistent bndls [] ∅
              {| w_acc := w_acc w;
                 w_log := ApiGetBundlesFromAddresses [addr] :: w_log w |})
    as (has & w' & Hrun & Hiff); auto.
  { intros hash. split; [intros H; apply not_elem_of_empty in H; contradiction|].
    intros (c & Hc & _). inversion Hc. }
  exists has, w'. split; [exact Hrun | exact Hiff].
Qed.

(** ** Further properties of the package *)

Lemma wrap64_add_l a b : wrap64 (wrap64 a + b) = wrap64 (a + b).
Proof. unfold wrap64. apply Zplus_mod_idemp_l. Qed.

Lemma wrap64_add_r a b : wrap64 (a + wrap64 b) = wrap64 (a + b).
Proof. unfold wrap64. apply Zplus_mod_idemp_r. Qed.

Lemma sum_balances_wrap s l : wrap64 (sum_balances s l) = wrap64 (s + total l).
Proof.
  revert s. induction l as [|b l IH]; intros s; simpl.
  - unfold total. simpl. rewrite Z.add_0_r. reflexivity.
  - rewrite IH. unfold total. simpl. rewrite wrap64_add_l. f_equal. lia.
Qed.

Lemma sum_balances_0 l : sum_balances 0 l = wrap64 (total l).
Proof.
  pose proof (sum_balances_wrap 0 l) as H. rewrite Z.add_0_l in H. rewrite <- H.
  symmetry. apply wrap64_small. apply sum_balances_range. unfold uint64. lia.
Qed.

Lemma Sum_from_sum_balances s recps :
  Sum_from s recps = sum_balances s (rcp_Value <$> recps).
Proof. revert s. induction recps as [|r recps IH]; intros s; simpl; [reflexivity | apply IH]. Qed.

Lemma Sum_uint64 (recps : Recipients) : uint64 (Sum recps).
Proof.
  unfold Sum. rewrite Sum_from_sum_balances, sum_balances_0. apply wrap64_range.
Qed.

(** X1.  [Recipients.Sum] is the sum of the values modulo 2^64, and the sum
    of two lists put together is the sum of their sums modulo 2^64. *)
Theorem Sum_is_total_modulo (recps more : Recipients) :
  Sum recps = wrap64 (total_value recps) /\
  uint64 (Sum recps) /\
  Sum (recps ++ more) = wrap64 (Sum recps + Sum more).
Proof.
  unfold Sum, total_value. rewrite !Sum_from_sum_balances, !sum_balances_0.
  split; [reflexivity|]. split; [apply wrap64_range|].
  rewrite fmap_app, total_app, wrap64_add_l, wrap64_add_r. reflexivity.
Qed.

Lemma totalBalance_keeps : keeps_acc totalBalance.
Proof. unfold totalBalance. shape. Qed.

Lemma availableBalance_keeps : keeps_acc availableBalance.
Proof. unfold availableBalance. shape. apply runInputSelection_keeps. Qed.

Lemma totalBalance_reads : logs no_store_write totalBalance.
Proof. unfold totalBalance. shape; intros []. Qed.

Lemma availableBalance_reads : logs no_store_write availableBalance.
Proof.
  unfold availableBalance. shape.
  eapply logs_weaken; [|apply runInputSelection_logs]. apply selection_read_no_write.
Qed.

(** X2.  [TotalBalance] on a running account: without deposit requests it
    returns zero after loading the state and asks the ledger nothing; when
    the checkpoint, the seed and the balances are available it asks for the
    balances of the addresses of all deposit requests, in one query, and
    returns their sum modulo 2^64. *)
Theorem TotalBalance_sums_all_addresses (w : world) (state : AccountState) :
  running (w_acc w) = true ->
  LoadAccount (store (setts (w_acc w))) (MuRLock :: w_log w) (id (w_acc w)) = Ok state ->
  (DepositRequests state = [] ->
   TotalBalance w = (Returned (0, None), after [MuRUnlock; StoreLoadAccount; MuRLock] w)) /\
  (forall ms seed balances,
     DepositRequests state <> [] ->
     GetLatestSolidSubtangleMilestone (api (setts (w_acc w)))
       (StoreLoadAccount :: MuRLock :: w_log w) = Ok ms ->
     Seed (seedProv (setts (w_acc w)))
       (ApiGetLatestSolidSubtangleMilestone :: StoreLoadAccount :: MuRLock :: w_log w)
     = Ok seed ->
     GetBalances (api (setts (w_acc w)))
       (SeedProvSeed :: ApiGetLatestSolidSubtangleMilestone :: StoreLoadAccount
          :: MuRLock :: w_log w)
       (map (address_of seed) (DepositRequests state)) 100 ms = Ok balances ->
     TotalBalance w =
     (Returned (wrap64 (total balances), None),
      after [MuRUnlock; ApiGetBalances (map (address_of seed) (DepositRequests state)) 100 ms;
             SeedProvSeed; ApiGetLatestSolidSubtangleMilestone; StoreLoadAccount; MuRLock]
        w)).
Proof.
  intros Hrun Hload. split.
  - intros Hnone. unfold TotalBalance, totalBalance. run_goal. rewrite Hrun. simpl.
    rewrite Hload, Hnone. reflexivity.
  - intros ms seed balances Hsome Hms Hseed Hbal.
    unfold TotalBalance, totalBalance. run_goal. rewrite Hrun. simpl. rewrite Hload.
    rewrite bool_decide_eq_false_2
      by (destruct (DepositRequests state); [contradiction | discriminate]).
    simpl. rewrite Hms. simpl. rewrite Hseed. simpl.
    change (map (fun kr : Z * StoredDepositRequest =>
                   (GenerateAddress seed kr.1 (SecurityLevel kr.2) false).1)
              (DepositRequests state))
      with (map (address_of seed) (DepositRequests state)).
    rewrite Hbal. simpl. rewrite sum_balances_0. reflexivity.
Qed.

(** X3.  [AvailableBalance], [TotalBalance] and [IsNew] only read: they
    leave the account struct as it is and make no write to the store. *)
Theorem balance_queries_only_read (w : world) :
  (w_acc (AvailableBalance w).2 = w_acc w /\
   exists new, w_log (AvailableBalance w).2 = (new ++ w_log w)%list /\
               Forall no_store_write new) /\
  (w_acc (TotalBalance w).2 = w_acc w /\
   exists new, w_log (TotalBalance w).2 = (new ++ w_log w)%list /\
               Forall no_store_write new) /\
  (w_acc (IsNew w).2 = w_acc w /\
   exists new, w_log (IsNew w).2 = (new ++ w_log w)%list /\
               Forall no_store_write new).
Proof.
  assert (Hk : forall A (m : M A), keeps_acc m -> forall w0, w_acc (m w0).2 = w_acc w0)
    by (intros A m H; exact H).
  repeat split.
  - apply Hk. unfold AvailableBalance, rlock, runlock. shape. apply availableBalance_keeps.
  - assert (H : logs no_store_write AvailableBalance)
      by (unfold AvailableBalance, rlock, runlock; shape; try (intros []);
          apply availableBalance_reads).
    apply H.
  - apply Hk. unfold TotalBalance, rlock, runlock. shape. apply totalBalance_keeps.
  - assert (H : logs no_store_write TotalBalance)
      by (unfold TotalBalance, rlock, runlock; shape; try (intros []);
          apply totalBalance_reads).
    apply H.
  - apply Hk. unfold IsNew, rlock, runlock. shape.
  - assert (H : logs no_store_write IsNew)
      by (unfold IsNew, rlock, runlock; shape; intros []).
    apply H.
Qed.

(** X4.  [Send] on a running account validates before it does anything: an
    empty recipient list is rejected with [ErrEmptyRecipients], a recipient
    whose address is not 90 trytes long with [ErrInvalidAddress], both before
    any collaborator is called; otherwise the recipients go to [send]. *)
Theorem Send_validates_first (recipients : Recipients) (w : world) :
  running (w_acc w) = true ->
  (recipients = [] ->
   Send recipients w
   = (Returned ([], Some ErrEmptyRecipients), after [MuUnlock; MuLock] w)) /\
  (recipients <> [] ->
   Exists (fun target => IsTrytesOfExactLength (rcp_Address target) 90 = false) recipients ->
   Send recipients w
   = (Returned ([], Some ErrInvalidAddress), after [MuUnlock; MuLock] w)) /\
  (recipients <> [] ->
   Forall (fun target => IsTrytesOfExactLength (rcp_Address target) 90 = true) recipients ->
   Send recipients w = defer unlock (send recipients) (after [MuLock] w)).
Proof.
  intros Hrun. split; [|split].
  - intros ->. unfold Send. run_goal. rewrite Hrun. reflexivity.
  - intros Hne Hbad. unfold Send. run_goal. rewrite Hrun. simpl.
    rewrite bool_decide_eq_false_2 by (destruct recipients; [contradiction | discriminate]).
    replace (forallb _ recipients) with false; [reflexivity|].
    symmetry. apply not_true_is_false. intros Hall.
    rewrite forallb_forall in Hall. apply Exists_exists in Hbad as (target & Hin & Hlen).
    apply list_elem_of_In in Hin. specialize (Hall target Hin).
    change (HashTrytesSize + AddressChecksumTrytesSize) with 90 in Hall. congruence.
  - intros Hne Hok. unfold Send. run_goal. rewrite Hrun. simpl.
    rewrite bool_decide_eq_false_2 by (destruct recipients; [contradiction | discriminate]).
    replace (forallb _ recipients) with true; [reflexivity|].
    symmetry. apply forallb_forall. intros target Hin. apply list_elem_of_In in Hin.
    rewrite Forall_forall in Hok. apply (Hok target Hin).
Qed.

Lemma send_prepared_keeps targets inputs remainderAddress forRemoval :
  keeps_acc (send_prepared targets inputs remainderAddress forRemoval).
Proof. unfold send_prepared. shape. Qed.

Lemma send_prepared_spends_nothing targets :
  logs spends_nothing (send_prepared targets [] None []).
Proof. unfold send_prepared. shape; try exact I; split; reflexivity. Qed.

(** X5.  A [Send] whose values add up to zero (modulo 2^64) runs no input
    selection and allocates no remainder address: the bundle is prepared
    without inputs and without remainder address, the pending transfer frees
    no key index, and the account struct is left as it is. *)
Theorem Send_without_value_spends_nothing (recipients : Recipients) (w : world) :
  Sum recipients = 0 ->
  w_acc (Send recipients w).2 = w_acc w /\
  exists new,
    w_log (Send recipients w).2 = (new ++ w_log w)%list /\ Forall spends_nothing new.
Proof.
  intros Hzero.
  assert (Hsend : send recipients = send_prepared recipients [] None [])
    by (unfold send; rewrite Hzero; reflexivity).
  split.
  - assert (H : keeps_acc (Send recipients)).
    { unfold Send, lock, unlock. rewrite Hsend. shape. apply send_prepared_keeps. }
    apply H.
  - assert (H : logs spends_nothing (Send recipients)).
    { unfold Send, lock, unlock. rewrite Hsend. shape; try exact I.
      apply send_prepared_spends_nothing. }
    apply H.
Qed.

(** *** Plugins and the life cycle *)

Lemma replicate_shift {A} (x : A) i l :
  (replicate i x ++ x :: l)%list = (replicate (S i) x ++ l)%list.
Proof. induction i as [|i IH]; simpl; [reflexivity|]. rewrite IH. reflexivity. Qed.

Lemma after_after n1 n2 w : after n2 (after n1 w) = after (n2 ++ n1) w.
Proof. unfold after. simpl. rewrite app_assoc. reflexivity. Qed.

Lemma after_shift e k w : after (replicate k e) (after [e] w) = after (replicate (S k) e) w.
Proof.
  unfold after. cbn [w_acc w_log]. f_equal. simpl app at 2. apply replicate_shift.
Qed.

Lemma plugins_visited_step call e msg p ps w r :
  call p (w_log w) = None ->
  plugins_visited call e msg ps (after [e] w) r ->
  plugins_visited call e msg (p :: ps) w r.
Proof.
  intros Hp [[Hall ->]|(k & q & err & Hq & Hbefore & Hfail & ->)].
  - left. split.
    + intros [|i] p' Hi; simpl in Hi.
      * injection Hi as <-. exact Hp.
      * specialize (Hall i p' Hi). simpl in Hall. rewrite replicate_shift in Hall.
        exact Hall.
    + rewrite after_shift. reflexivity.
  - right. exists (S k), q, err. split; [exact Hq|]. split; [|split].
    + intros [|i] p' Hlt Hi; simpl in Hi.
      * injection Hi as <-. exact Hp.
      * specialize (Hbefore i p' ltac:(lia) Hi). simpl in Hbefore.
        rewrite replicate_shift in Hbefore. exact Hbefore.
    + simpl in Hfail. rewrite replicate_shift in Hfail. exact Hfail.
    + rewrite after_shift. reflexivity.
Qed.

Lemma startPlugins_loop_visited ps : forall w,
  plugins_visited plugin_Start PluginStart start_failure ps w (startPlugins_loop ps w).
Proof.
  induction ps as [|p ps IH]; intros w.
  - left. split; [intros i p Hi; discriminate Hi|]. destruct w; reflexivity.
  - simpl. rewrite run_bind. run_goal.
    destruct (plugin_Start p (w_log w)) as [err|] eqn:Hp.
    + right. exists 0%nat, p, err. repeat split; try assumption.
      intros i q Hlt. lia.
    + apply plugins_visited_step; [exact Hp|]. apply IH.
Qed.

Lemma shutdownPlugins_loop_visited ps : forall w,
  plugins_visited plugin_Shutdown PluginShutdown shutdown_failure ps w
    (shutdownPlugins_loop ps w).
Proof.
  induction ps as [|p ps IH]; intros w.
  - left. split; [intros i p Hi; discriminate Hi|]. destruct w; reflexivity.
  - simpl. rewrite run_bind. run_goal.
    destruct (plugin_Shutdown p (w_log w)) as [err|] eqn:Hp.
    + right. exists 0%nat, p, err. repeat split; try assumption.
      intros i q Hlt. lia.
    + apply plugins_visited_step; [exact Hp|]. apply IH.
Qed.

Lemma startPlugins_visited (w : world) :
  plugins_visited plugin_Start PluginStart start_failure
    (plugins (setts (w_acc w))) w (startPlugins w).
Proof. unfold startPlugins. rewrite run_bind. run_goal. apply startPlugins_loop_visited. Qed.

Lemma shutdownPlugins_visited (w : world) :
  plugins_visited plugin_Shutdown PluginShutdown shutdown_failure
    (plugins (setts (w_acc w))) w (shutdownPlugins w).
Proof.
  unfold shutdownPlugins. rewrite run_bind. run_goal. apply shutdownPlugins_loop_visited.
Qed.

(** X6.  [startPlugins] and [shutdownPlugins] call the plugins of the
    settings in force in list order, each one after the ones before it, and
    stop at the first plugin that fails: its error comes back wrapped and the
    plugins after it are not called; without failure every plugin is called
    once and no error comes back. *)
Theorem plugins_stop_at_first_failure (w : world) :
  plugins_visited plugin_Start PluginStart start_failure
    (plugins (setts (w_acc w))) w (startPlugins w) /\
  plugins_visited plugin_Shutdown PluginShutdown shutdown_failure
    (plugins (setts (w_acc w))) w (shutdownPlugins w).
Proof. split; [apply startPlugins_visited | apply shutdownPlugins_visited]. Qed.

Lemma plugins_visited_result call e msg ps w r :
  plugins_visited call e msg ps w r ->
  (r = (Returned None, after (replicate (length ps) e) w)) \/
  (exists k err, (k < length ps)%nat /\
                 r = (Returned (Some (Wrap err msg)), after (replicate (S k) e) w)).
Proof.
  intros [[_ ->]|(k & p & err & Hp & _ & _ & ->)]; [left; reflexivity|].
  right. exists k, err. split; [|reflexivity]. eapply lookup_lt_Some. exact Hp.
Qed.

(** X7.  [UpdateSettings] on a running account first shuts down the plugins
    of the old settings.  If one of them fails the settings are kept, no
    plugin is started and the error of the stop phase comes back.  If all of
    them shut down the new settings are in force from then on, whether the
    plugins of the new settings start or not: a failure to start one comes
    back as an error of the start phase, after the swap. *)
Theorem UpdateSettings_swaps_after_stop (new_setts : Settings) (w : world) :
  running (w_acc w) = true ->
  (exists k err,
     (k < length (plugins (setts (w_acc w))))%nat /\
     UpdateSettings new_setts w =
     (Returned (Some (Wrap (Wrap err shutdown_failure) update_stop_failure)),
      after (MuUnlock :: replicate (S k) PluginShutdown ++ [MuLock]) w)) \/
  (exists k res,
     UpdateSettings new_setts w =
     (Returned res,
      {| w_acc := with_setts new_setts (w_acc w);
         w_log := MuUnlock
                  :: (replicate k PluginStart
                      ++ replicate (length (plugins (setts (w_acc w)))) PluginShutdown
                      ++ MuLock :: w_log w)%list |}) /\
     ((res = None /\ k = length (plugins new_setts)) \/
      (exists err, res = Some (Wrap (Wrap err start_failure) update_start_failure) /\
                   (0 < k <= length (plugins new_setts))%nat))).
Proof.
  intros Hrun. unfold UpdateSettings. run_goal. rewrite Hrun. simpl.
  pose proof (shutdownPlugins_visited
                {| w_acc := w_acc w; w_log := MuLock :: w_log w |}) as Hstop.
  apply plugins_visited_result in Hstop. cbn [w_acc w_log] in Hstop.
  destruct Hstop as [Hstop|(k & err & Hk & Hstop)]; rewrite Hstop; simpl.
  - right.
    match goal with |- context [startPlugins ?w1] =>
      pose proof (startPlugins_visited w1) as Hstart end.
    apply plugins_visited_result in Hstart. cbn [w_acc w_log setts] in Hstart.
    destruct Hstart as [Hstart|(k & err & Hk & Hstart)]; rewrite Hstart; simpl.
    + exists (length (plugins new_setts)), None. split; [|left; split; reflexivity].
      unfold with_setts. rewrite Hrun, <- ?app_assoc. reflexivity.
    + exists (S k), (Some (Wrap (Wrap err start_failure) update_start_failure)).
      split; [|right; exists err; split; [reflexivity | lia]].
      unfold with_setts. rewrite Hrun, <- ?app_assoc. reflexivity.
  - left. exists k, err. split; [exact Hk|]. unfold after. simpl.
    rewrite <- ?app_assoc. reflexivity.
Qed.

(** X8.  [Start] does not look at the running flag.  When the state cannot
    be loaded it changes nothing.  When the state loads it replaces the last
    key index in memory by the stored one, whatever it was, and then starts
    the plugins: the flag is set only if all of them start; when one fails
    the flag is left as it was, with the stored key index already in
    place. *)
Theorem Start_loads_index_then_plugins (w : world) :
  (forall e,
     LoadAccount (store (setts (w_acc w))) (MuLock :: w_log w) (id (w_acc w)) = Err e ->
     Start w = (Returned (Some (Wrap e startup_failure)),
                after [MuUnlock; StoreLoadAccount; MuLock] w)) /\
  (forall state,
     LoadAccount (store (setts (w_acc w))) (MuLock :: w_log w) (id (w_acc w)) = Ok state ->
     (exists k err,
        (k < length (plugins (setts (w_acc w))))%nat /\
        Start w =
        (Returned (Some (Wrap err start_failure)),
         {| w_acc := with_lastKeyIndex (state_KeyIndex state) (w_acc w);
            w_log := MuUnlock
                     :: (replicate (S k) PluginStart
                         ++ StoreLoadAccount :: MuLock :: w_log w)%list |})) \/
     Start w =
     (Returned None,
      {| w_acc := with_running true (with_lastKeyIndex (state_KeyIndex state) (w_acc w));
         w_log := MuUnlock
                  :: (replicate (length (plugins (setts (w_acc w)))) PluginStart
                      ++ StoreLoadAccount :: MuLock :: w_log w)%list |})).
Proof.
  split.
  - intros e Hload. unfold Start. run_goal. rewrite Hload. reflexivity.
  - intros state Hload. unfold Start. run_goal. rewrite Hload. simpl.
    match goal with |- context [startPlugins ?w1] =>
      pose proof (startPlugins_visited w1) as Hstart end.
    apply plugins_visited_result in Hstart. cbn [w_acc w_log setts] in Hstart.
    destruct Hstart as [Hstart|(k & err & Hk & Hstart)]; rewrite Hstart; simpl.
    + right. reflexivity.
    + left. exists k, err. split; [exact Hk | reflexivity].
Qed.

(** X9.  [Shutdown] on a running account clears the flag before it shuts the
    plugins down, and the flag stays cleared when one of them fails: the
    error comes back, the plugins after the failing one are not shut down and
    no shutdown event is emitted.  When all plugins shut down the event is
    emitted once, after them. *)
Theorem Shutdown_clears_flag_first (w : world) :
  running (w_acc w) = true ->
  (exists k err,
     (k < length (plugins (setts (w_acc w))))%nat /\
     Shutdown w =
     (Returned (Some (Wrap (Wrap err shutdown_failure) shutdown_op_failure)),
      {| w_acc := with_running false (w_acc w);
         w_log := MuUnlock :: (replicate (S k) PluginShutdown ++ MuLock :: w_log w)%list |})) \/
  Shutdown w =
  (Returned None,
   {| w_acc := with_running false (w_acc w);
      w_log := MuUnlock :: EmitEvent EventShutdown
               :: (replicate (length (plugins (setts (w_acc w)))) PluginShutdown
                   ++ MuLock :: w_log w)%list |}).
Proof.
  intros Hrun. unfold Shutdown. run_goal. rewrite Hrun. simpl.
  match goal with |- context [shutdownPlugins ?w1] =>
    pose proof (shutdownPlugins_visited w1) as Hstop end.
  apply plugins_visited_result in Hstop. cbn [w_acc w_log setts] in Hstop.
  destruct Hstop as [Hstop|(k & err & Hk & Hstop)]; rewrite Hstop; simpl.
  - right. reflexivity.
  - left. exists k, err. split; [exact Hk | reflexivity].
Qed.

(** *** The candidates *)

Lemma classify_filter seed now reqs : forall c0 c,
  classify seed now reqs c0 = Returned c ->
  primarySelection c
  = (primarySelection c0
     ++ (selection_from <$> filter (fun kr => primary now kr.2 = true) reqs))%list /\
  primaryAddrs c
  = (primaryAddrs c0
     ++ (address_of seed <$> filter (fun kr => primary now kr.2 = true) reqs))%list /\
  secondarySelection c
  = (secondarySelection c0
     ++ (selection_from <$> filter (fun kr => timed_out now kr.2 = true) reqs))%list /\
  secondaryAddrs c
  = (secondaryAddrs c0
     ++ (address_of seed <$> filter (fun kr => timed_out now kr.2 = true) reqs))%list.
Proof.
  induction reqs as [|[k r] rest IH]; intros c0 c; unfold classify; fold classify.
  - intros [= <-]. rewrite !app_nil_r. auto.
  - intros H.
    assert (Hp : forall c1,
      classify seed now rest c1 = Returned c ->
      c1 = add_primary (address_of seed (k, r)) (selection_from (k, r)) c0 ->
      primary now r = true -> timed_out now r = false ->
      primarySelection c
      = (primarySelection c0
         ++ (selection_from <$> filter (fun kr => primary now kr.2 = true) ((k, r) :: rest)))%list /\
      primaryAddrs c
      = (primaryAddrs c0
         ++ (address_of seed <$> filter (fun kr => primary now kr.2 = true) ((k, r) :: rest)))%list /\
      secondarySelection c
      = (secondarySelection c0
         ++ (selection_from <$> filter (fun kr => timed_out now kr.2 = true) ((k, r) :: rest)))%list /\
      secondaryAddrs c
      = (secondaryAddrs c0
         ++ (address_of seed <$> filter (fun kr => timed_out now kr.2 = true) ((k, r) :: rest)))%list).
    { intros c1 Hc1 -> Hprim Hout. apply IH in Hc1 as (H1 & H2 & H3 & H4).
      rewrite filter_cons_True by exact Hprim.
      rewrite filter_cons_False by (simpl; congruence).
      rewrite H1, H2, H3, H4. simpl. rewrite <- !app_assoc. auto. }
    assert (Hs : forall c1,
      classify seed now rest c1 = Returned c ->
      c1 = add_secondary (address_of seed (k, r)) (selection_from (k, r)) c0 ->
      primary now r = false -> timed_out now r = true ->
      primarySelection c
      = (primarySelection c0
         ++ (selection_from <$> filter (fun kr => primary now kr.2 = true) ((k, r) :: rest)))%list /\
      primaryAddrs c
      = (primaryAddrs c0
         ++ (address_of seed <$> filter (fun kr => primary now kr.2 = true) ((k, r) :: rest)))%list /\
      secondarySelection c
      = (secondarySelection c0
         ++ (selection_from <$> filter (fun kr => timed_out now kr.2 = true) ((k, r) :: rest)))%list /\
      secondaryAddrs c
      = (secondaryAddrs c0
         ++ (address_of seed <$> filter (fun kr => timed_out now kr.2 = true) ((k, r) :: rest)))%list).
    { intros c1 Hc1 -> Hprim Hout. apply IH in Hc1 as (H1 & H2 & H3 & H4).
      rewrite filter_cons_False by (simpl; congruence).
      rewrite filter_cons_True by exact Hout.
      rewrite H1, H2, H3, H4. simpl. rewrite <- !app_assoc. auto. }
    assert (Hd : classify seed now rest c0 = Returned c ->
      primary now r = false -> timed_out now r = false ->
      primarySelection c
      = (primarySelection c0
         ++ (selection_from <$> filter (fun kr => primary now kr.2 = true) ((k, r) :: rest)))%list /\
      primaryAddrs c
      = (primaryAddrs c0
         ++ (address_of seed <$> filter (fun kr => primary now kr.2 = true) ((k, r) :: rest)))%list /\
      secondarySelection c
      = (secondarySelection c0
         ++ (selection_from <$> filter (fun kr => timed_out now kr.2 = true) ((k, r) :: rest)))%list /\
      secondaryAddrs c
      = (secondaryAddrs c0
         ++ (address_of seed <$> filter (fun kr => timed_out now kr.2 = true) ((k, r) :: rest)))%list).
    { intros Hc1 Hprim Hout. apply IH in Hc1 as (H1 & H2 & H3 & H4).
      rewrite !filter_cons_False by (simpl; congruence). auto. }
    unfold primary, timed_out in Hp, Hs, Hd.
    destruct (TimeoutAt (stored_Request r)) as [timeoutAt|].
    + destruct (now >? timeoutAt).
      * eapply Hs; [exact H | reflexivity | reflexivity | reflexivity].
      * destruct (MultiUse (stored_Request r)).
        -- destruct (ExpectedAmount (stored_Request r)).
           ++ eapply Hp; [exact H | reflexivity | reflexivity | reflexivity].
           ++ apply Hd; [exact H | reflexivity | reflexivity].
        -- eapply Hp; [exact H | reflexivity | reflexivity | reflexivity].
    + destruct (ExpectedAmount (stored_Request r)); [|discriminate H].
      eapply Hp; [exact H | reflexivity | reflexivity | reflexivity].
Qed.

(** X10.  When the first loop of input selection does not panic, the primary
    selection is made of the stored requests that are not timed out, save the
    multi-use requests without expected amount, the secondary selection of
    the timed out requests, both in the order of the store and each with the
    address derived for its key index; no request is in both, and a multi-use
    request without expected amount that is not timed out is in neither. *)
Theorem classify_partitions_requests seed now reqs c :
  classify seed now reqs no_candidates = Returned c ->
  primarySelection c
  = selection_from <$> filter (fun kr => primary now kr.2 = true) reqs /\
  primaryAddrs c = address_of seed <$> filter (fun kr => primary now kr.2 = true) reqs /\
  secondarySelection c
  = selection_from <$> filter (fun kr => timed_out now kr.2 = true) reqs /\
  secondaryAddrs c = address_of seed <$> filter (fun kr => timed_out now kr.2 = true) reqs /\
  (forall r, ~ (primary now r = true /\ timed_out now r = true)) /\
  (forall r timeoutAt,
     TimeoutAt (stored_Request r) = Some timeoutAt -> now <= timeoutAt ->
     MultiUse (stored_Request r) = true -> ExpectedAmount (stored_Request r) = None ->
     primary now r = false /\ timed_out now r = false).
Proof.
  intros Hc. apply classify_filter in Hc as (H1 & H2 & H3 & H4). simpl in H1, H2, H3, H4.
  split; [exact H1|]. split; [exact H2|]. split; [exact H3|]. split; [exact H4|]. split.
  - intros r [Hp Ht]. unfold primary, timed_out in Hp, Ht.
    destruct (TimeoutAt (stored_Request r)); [|discriminate].
    rewrite Ht in Hp. discriminate.
  - intros r timeoutAt Htimeout Hle Hmulti Hnone. unfold primary, timed_out.
    rewrite Htimeout, Hmulti, Hnone. simpl.
    destruct (Z.gtb_spec now timeoutAt); [lia | split; reflexivity].
Qed.

(** *** What a successful selection returns *)

Lemma well_covered_start : well_covered {| t_sum := 0; t_inputs := []; t_toRemove := [] |}.
Proof.
  split; [unfold uint64; simpl; lia|]. split; [reflexivity|].
  split; [constructor | constructor].
Qed.

Lemma well_covered_mark k t :
  well_covered t ->
  well_covered {| t_sum := t_sum t; t_inputs := t_inputs t;
                  t_toRemove := t_toRemove t ++ [k] |}.
Proof.
  intros (Hr & Hs & Hp & Hk). split; [exact Hr|]. split; [exact Hs|]. split; [exact Hp|].
  cbn [t_inputs t_toRemove]. apply sublist_inserts_r. exact Hk.
Qed.

Lemma well_covered_add addr k b sec t :
  well_covered t -> 0 < b ->
  well_covered {| t_sum := wrap64 (t_sum t + b);
                  t_inputs := t_inputs t ++ [{| Address := addr; KeyIndex := k;
                                                Balance := b; Security := sec |}];
                  t_toRemove := t_toRemove t ++ [k] |}.
Proof.
  intros (Hr & Hs & Hp & Hk) Hb. unfold well_covered. cbn [t_sum t_inputs t_toRemove].
  split; [apply wrap64_range|]. split; [|split].
  - rewrite fmap_app, sum_balances_app, <- Hs. reflexivity.
  - apply Forall_app. split; [exact Hp|]. repeat constructor. exact Hb.
  - rewrite fmap_app. apply sublist_app; [exact Hk|]. reflexivity.
Qed.

Lemma primary_loop_covered V addrs bals sels : forall i t t',
  Forall (fun b => 0 <= b) bals ->
  well_covered t ->
  primary_loop V false addrs bals i sels t = Returned t' ->
  well_covered t'.
Proof.
  induction sels as [|s sels IH]; intros i t t' Hnn Ht; simpl.
  - intros [= <-]. exact Ht.
  - destruct (bals !! i) as [b|] eqn:Hbi; [|discriminate].
    assert (Hb0 : 0 <= b).
    { eapply (proj1 (Forall_forall _ _) Hnn). eapply list_elem_of_lookup_2. exact Hbi. }
    destruct (below_expected s b); [apply IH; assumption|].
    destruct (Z.leb_spec b 0) as [Hz|Hpos].
    + apply IH; [exact Hnn|]. assert (b = 0) by lia. subst b.
      destruct Ht as (Hr & Hs & Hp & Hk). unfold add_to_sum.
      split; cbn [t_sum t_inputs t_toRemove];
        [rewrite Z.add_0_r, wrap64_small by exact Hr; exact Hr|].
      split; [rewrite Z.add_0_r, wrap64_small by exact Hr; exact Hs|].
      split; assumption.
    + destruct (addrs !! i) as [a|]; [|discriminate].
      pose proof (well_covered_add a (keyIndex s) b (SecurityLevel (req s)) t Ht Hpos) as Ht1.
      unfold addAsInput, markForRemoval, add_to_sum. cbn [t_sum t_inputs t_toRemove].
      rewrite andb_true_r. destruct (_ >? V).
      * intros [= <-]. exact Ht1.
      * apply IH; assumption.
Qed.

Lemma secondary_loop_covered V addrs bals start sels : forall i t w t' w',
  Forall (fun b => 0 <= b) bals ->
  well_covered t ->
  secondary_loop V false addrs bals start i sels t w = (Returned t', w') ->
  well_covered t'.
Proof.
  induction sels as [|s sels IH]; intros i t w t' w' Hnn Ht; simpl.
  - intros [= <- _]. exact Ht.
  - destruct (addrs !! i) as [a|]; [|discriminate].
    destruct (bals !! (start + i)%nat) as [b|] eqn:Hbi; [|discriminate].
    assert (Hb0 : 0 <= b).
    { eapply (proj1 (Forall_forall _ _) Hnn). eapply list_elem_of_lookup_2. exact Hbi. }
    destruct (Z.eqb_spec b 0) as [->|Hnz].
    + rewrite run_bind.
      destruct (hasIncomingConsistentValueTransfer a w) as [[[has err]|msg] w1];
        [|discriminate].
      destruct (has || _).
      * apply IH; assumption.
      * apply IH; [exact Hnn|]. apply well_covered_mark. exact Ht.
    + assert (Hpos : 0 < b) by lia.
      pose proof (well_covered_add a (keyIndex s) b (SecurityLevel (req s)) t Ht Hpos) as Ht1.
      unfold addAsInput, markForRemoval, add_to_sum. cbn [t_sum t_inputs t_toRemove].
      rewrite andb_true_r. destruct (_ >? V).
      * intros [= <- _]. exact Ht1.
      * apply IH; assumption.
Qed.

(** X11.  When the ledger reports balances that are not negative, every
    successful selection in transfer mode returns a sum that reaches the
    target and is the sum, modulo 2^64, of the balances of the inputs it
    returns; every input holds something, and the key indices of the inputs
    are among the indices to remove, in the same order. *)
Theorem successful_selection_covers_target V w sum ins rem :
  (forall h query threshold tip bals,
     GetBalances (api (setts (w_acc w))) h query threshold tip = Ok bals ->
     Forall (fun b => 0 <= b) bals) ->
  (defaultInputSelection V false w).1 = Returned (sum, ins, rem, None) ->
  V <= sum /\
  uint64 sum /\
  sum = sum_balances 0 (Balance <$> ins) /\
  Forall (fun input => 0 < Balance input) ins /\
  sublist (KeyIndex <$> ins) rem.
Proof.
  intros Hledger. unfold defaultInputSelection. run_goal.
  destruct (GetDepositRequests _ _ _) as [reqs|e]; simpl; [|discriminate].
  destruct (bool_decide _); simpl; [discriminate|].
  destruct (GetLatestSolidSubtangleMilestone _ _) as [ms|e]; simpl; [|discriminate].
  destruct (Now _ _) as [now|e]; simpl; [|discriminate].
  destruct (Seed _ _) as [seed|e]; simpl; [|discriminate].
  destruct (classify seed now reqs no_candidates) as [c|msg]; simpl; [|discriminate].
  destruct (GetBalances _ _ _ _ _) as [bals|e] eqn:Hbals; simpl; [|discriminate].
  apply Hledger in Hbals.
  destruct (primary_loop _ _ _ _ _ _ _) as [t1|msg] eqn:Hp; simpl; [|discriminate].
  apply primary_loop_covered in Hp; [|exact Hbals | apply well_covered_start].
  assert (Hfinal : forall t, well_covered t ->
    (if t_sum t <? V
     then (Returned (0, @nil Input, @nil Z, Some ErrInsufficientBalance))
     else Returned (t_sum t, t_inputs t, t_toRemove t, None))
    = Returned (sum, ins, rem, None) ->
    V <= sum /\ uint64 sum /\ sum = sum_balances 0 (Balance <$> ins) /\
    Forall (fun input => 0 < Balance input) ins /\ sublist (KeyIndex <$> ins) rem).
  { intros t (Hr & Hs & Hpos & Hk). destruct (Z.ltb_spec (t_sum t) V); [discriminate|].
    intros [= <- <- <-]. auto. }
  rewrite orb_false_r. destruct (t_sum t1 <? V) eqn:Hshort.
  - destruct (secondary_loop _ _ _ _ _ _ _ _ _) as [[t2|msg] w2] eqn:Hs; simpl;
      [|discriminate].
    apply secondary_loop_covered in Hs; [|exact Hbals | exact Hp].
    intros H. apply (Hfinal t2 Hs).
    destruct (t_sum t2 <? V); simpl in H |- *; congruence.
  - simpl. intros H. apply (Hfinal t1 Hp). rewrite Hshort in H |- *. exact H.
Qed.

(** *** Primary and secondary addresses together *)

Lemma total_cons b l : total (b :: l) = b + total l.
Proof. reflexivity. Qed.

Arguments total : simpl never.

Lemma primary_loop_exceeds_or_all V addrs bals sels : forall i t,
  (length sels + i <= length addrs)%nat ->
  (length sels + i <= length bals)%nat ->
  Forall (fun b => 0 <= b) bals ->
  0 <= t_sum t ->
  t_sum t + total (counted_balances sels (drop i bals)) < 2 ^ 64 ->
  exists t',
    primary_loop V false addrs bals i sels t = Returned t' /\
    t_sum t <= t_sum t' <= t_sum t + total (counted_balances sels (drop i bals)) /\
    (V < t_sum t' \/ t_sum t' = t_sum t + total (counted_balances sels (drop i bals))).
Proof.
  induction sels as [|s sels IH]; intros i t Ha Hb Hnn Ht Hno; simpl.
  - exists t. split; [reflexivity|]. unfold total. simpl. split; [lia | right; lia].
  - simpl in Ha, Hb.
    destruct (lookup_lt_is_Some_2 bals i) as [b Hbi]; [lia|].
    destruct (lookup_lt_is_Some_2 addrs i) as [a Hai]; [lia|].
    assert (Hb0 : 0 <= b).
    { eapply (proj1 (Forall_forall _ _) Hnn). eapply list_elem_of_lookup_2. exact Hbi. }
    rewrite Hbi. rewrite (drop_S _ _ _ Hbi) in Hno |- *. simpl in Hno |- *.
    pose proof (total_nonneg _ (counted_balances_nonneg sels (drop (S i) bals)
                                  (Forall_drop _ _ _ Hnn))) as Hrest.
    destruct (below_expected s b); simpl in Hno |- *.
    + apply IH; auto; lia.
    + rewrite total_cons in Hno |- *.
      assert (Hw : wrap64 (t_sum t + b) = t_sum t + b)
        by (apply wrap64_small; unfold uint64; lia).
      assert (Hnext : forall t1, t_sum t1 = t_sum t + b ->
        exists t',
          primary_loop V false addrs bals (S i) sels t1 = Returned t' /\
          t_sum t <= t_sum t'
          <= t_sum t + (b + total (counted_balances sels (drop (S i) bals))) /\
          (V < t_sum t' \/
           t_sum t' = t_sum t + (b + total (counted_balances sels (drop (S i) bals))))).
      { intros t1 Ht1. destruct (IH (S i) t1) as (t' & Hrun & Hbound & Hend);
          try rewrite Ht1; auto; try lia.
        exists t'. split; [exact Hrun|]. rewrite Ht1 in Hbound, Hend. split; lia. }
      destruct (b <=? 0).
      * apply Hnext. unfold add_to_sum. simpl. exact Hw.
      * rewrite Hai. unfold addAsInput, markForRemoval, add_to_sum.
        cbn [t_sum t_inputs t_toRemove]. rewrite andb_true_r, Hw.
        destruct (Z.gtb_spec (t_sum t + b) V) as [Hgt|Hle].
        -- eexists. split; [reflexivity|]. cbn [t_sum]. split; [lia | left; lia].
        -- apply Hnext. reflexivity.
Qed.

Lemma secondary_loop_exceeds_or_all V addrs bals start sels : forall i t w,
  (forall h addr bndls,
     GetBundlesFromAddresses (api (setts (w_acc w))) h [addr] true = Ok bndls ->
     Forall well_formed bndls) ->
  (length sels + i <= length addrs)%nat ->
  (length sels + (start + i) <= length bals)%nat ->
  Forall (fun b => 0 <= b) bals ->
  0 <= t_sum t ->
  t_sum t + total (take (length sels) (drop (start + i) bals)) < 2 ^ 64 ->
  exists t' w',
    secondary_loop V false addrs bals start i sels t w = (Returned t', w') /\
    t_sum t <= t_sum t' <= t_sum t + total (take (length sels) (drop (start + i) bals)) /\
    (V < t_sum t' \/
     t_sum t' = t_sum t + total (take (length sels) (drop (start + i) bals))).
Proof.
  induction sels as [|s sels IH]; intros i t w Hwf Ha Hb Hnn Ht Hno; simpl.
  - exists t, w. split; [reflexivity|]. unfold total. simpl. split; [lia | right; lia].
  - simpl in Ha, Hb.
    destruct (lookup_lt_is_Some_2 bals (start + i)) as [b Hbi]; [lia|].
    destruct (lookup_lt_is_Some_2 addrs i) as [a Hai]; [lia|].
    assert (Hb0 : 0 <= b).
    { eapply (proj1 (Forall_forall _ _) Hnn). eapply list_elem_of_lookup_2. exact Hbi. }
    rewrite Hai, Hbi. rewrite (drop_S _ _ _ Hbi) in Hno |- *. simpl in Hno |- *.
    replace (S (start + i)) with (start + S i)%nat in Hno |- * by lia.
    pose proof (total_nonneg _ (Forall_take_drop_nonneg bals (length sels) (start + S i) Hnn))
      as Hrest.
    rewrite total_cons in Hno |- *.
    assert (Hnext : forall t1 w1, t_sum t1 = t_sum t + b -> w_acc w1 = w_acc w ->
      exists t' w',
        secondary_loop V false addrs bals start (S i) sels t1 w1 = (Returned t', w') /\
        t_sum t <= t_sum t'
        <= t_sum t + (b + total (take (length sels) (drop (start + S i) bals))) /\
        (V < t_sum t' \/
         t_sum t' = t_sum t + (b + total (take (length sels) (drop (start + S i) bals))))).
    { intros t1 w1 Ht1 Hw1.
      destruct (IH (S i) t1 w1) as (t' & w' & Hrun & Hbound & Hend);
        try rewrite Ht1; try rewrite Hw1; auto; try lia.
      exists t', w'. split; [exact Hrun|]. rewrite Ht1 in Hbound, Hend. split; lia. }
    destruct (Z.eqb_spec b 0) as [->|Hnz].
    + rewrite run_bind.
      pose proof (hasIncoming_keeps a w) as Hkeep.
      destruct (hasIncoming_returns a w) as ([has err] & w1 & Hprobe); [apply Hwf|].
      rewrite Hprobe in Hkeep |- *. simpl in Hkeep.
      destruct (has || _); apply Hnext; auto; simpl; lia.
    + unfold addAsInput, markForRemoval, add_to_sum. cbn [t_sum t_inputs t_toRemove].
      assert (Hw : wrap64 (t_sum t + b) = t_sum t + b)
        by (apply wrap64_small; unfold uint64; lia).
      rewrite andb_true_r, Hw.
      destruct (Z.gtb_spec (t_sum t + b) V) as [Hgt|Hle].
      * eexists _, _. split; [reflexivity|]. cbn [t_sum]. split; [lia | left; lia].
      * apply Hnext; reflexivity.
Qed.

(** X12.  In transfer mode, when the store holds deposit requests, the
    collaborators answer with balances that are not negative and with well
    formed bundles, and the counted primary balances and the secondary
    balances together reach the target without exceeding 64 bits, input
    selection succeeds, with the primary addresses alone or with primary and
    timed out addresses together, and the sum it returns lies between the
    target and that total. *)
Theorem selection_succeeds_with_secondary V w reqs ms now seed c bals :
  GetDepositRequests (store (setts (w_acc w))) (w_log w) (id (w_acc w)) = Ok reqs ->
  reqs <> [] ->
  GetLatestSolidSubtangleMilestone (api (setts (w_acc w)))
    (StoreGetDepositRequests :: w_log w) = Ok ms ->
  Now (clock (setts (w_acc w)))
    (ApiGetLatestSolidSubtangleMilestone :: StoreGetDepositRequests :: w_log w) = Ok now ->
  Seed (seedProv (setts (w_acc w)))
    (ClockNow :: ApiGetLatestSolidSubtangleMilestone :: StoreGetDepositRequests :: w_log w)
  = Ok seed ->
  classify seed now reqs no_candidates = Returned c ->
  GetBalances (api (setts (w_acc w)))
    (SeedProvSeed :: ClockNow :: ApiGetLatestSolidSubtangleMilestone
       :: StoreGetDepositRequests :: w_log w)
    (primaryAddrs c ++ secondaryAddrs c) 100 ms = Ok bals ->
  (length (primarySelection c) + length (secondarySelection c) <= length bals)%nat ->
  (forall h addr bndls,
     GetBundlesFromAddresses (api (setts (w_acc w))) h [addr] true = Ok bndls ->
     Forall well_formed bndls) ->
  Forall (fun b => 0 <= b) bals ->
  V <= total (counted_balances (primarySelection c) bals) + total (secondary_balances c bals) ->
  total (counted_balances (primarySelection c) bals) + total (secondary_balances c bals)
  < 2 ^ 64 ->
  exists sum ins rem w',
    defaultInputSelection V false w = (Returned (sum, ins, rem, None), w') /\
    V <= sum
    <= total (counted_balances (primarySelection c) bals)
       + total (secondary_balances c bals).
Proof.
  intros Hreqs Hne Hms Hnow Hseed Hc Hbals Hlen Hwf Hnn HV Hno.
  destruct (classify_lengths _ _ _ _ _ Hc eq_refl eq_refl) as [Hlp Hls].
  pose proof (total_nonneg _ (Forall_take_drop_nonneg bals (length (secondarySelection c))
                                (length (primarySelection c)) Hnn)) as HQ.
  fold (secondary_balances c bals) in HQ.
  destruct (primary_loop_exceeds_or_all V (primaryAddrs c) bals (primarySelection c) 0
              {| t_sum := 0; t_inputs := []; t_toRemove := [] |})
    as (t1 & Hrun1 & Hbound1 & Hend1); cbn [t_sum]; rewrite ?drop_0; auto; try lia.
  cbn [t_sum] in Hbound1, Hend1. rewrite drop_0 in Hbound1, Hend1.
  unfold defaultInputSelection. run_goal. rewrite Hreqs. simpl.
  destruct reqs as [|kr more]; [contradiction|]. simpl.
  rewrite Hms. simpl. rewrite Hnow. simpl. rewrite Hseed. simpl. rewrite Hc. simpl.
  rewrite Hbals. simpl. rewrite Hrun1. simpl. rewrite orb_false_r.
  destruct (Z.ltb_spec (t_sum t1) V) as [Hshort|Henough].
  - match goal with |- context [secondary_loop _ _ _ _ _ _ _ _ ?w1] =>
      destruct (secondary_loop_exceeds_or_all V (secondaryAddrs c) bals
                  (length (primarySelection c)) (secondarySelection c) 0 t1 w1)
        as (t2 & w2 & Hrun2 & Hbound2 & Hend2) end;
      rewrite ?Nat.add_0_r; fold (secondary_balances c bals); auto; try lia.
    rewrite Nat.add_0_r in Hbound2, Hend2.
    fold (secondary_balances c bals) in Hbound2, Hend2.
    rewrite Hrun2. simpl.
    destruct (Z.ltb_spec (t_sum t2) V) as [Hshort2|Henough2]; [lia|].
    eexists _, _, _, _. split; [reflexivity|]. lia.
  - simpl. destruct (Z.ltb_spec (t_sum t1) V) as [Hshort|_]; [lia|].
    eexists _, _, _, _. split; [reflexivity|]. lia.
Qed.

(** *** The deposit requests the account stores *)

Lemma logs_bind_returns {A B} (P : effect -> Prop) (Q : A -> Prop) (m : M A) (k : A -> M B) :
  logs P m -> returns_only Q m -> (forall a, Q a -> logs P (k a)) -> logs P (m ≫= k).
Proof.
  intros Hm HQ Hk w. rewrite run_bind.
  destruct (Hm w) as [n1 [E1 F1]]. specialize (HQ w).
  destruct (m w) as [[a|msg] w1]; simpl in E1, HQ |- *.
  - destruct (Hk a (HQ a eq_refl) w1) as [n2 [E2 F2]]. exists (n2 ++ n1)%list.
    rewrite E2, E1, app_assoc. split; [reflexivity | apply Forall_app; auto].
  - exists n1. auto.
Qed.

Lemma returns_bind_returns {A B} (Q : B -> Prop) (Qa : A -> Prop) (m : M A) (k : A -> M B) :
  returns_only Qa m -> (forall a, Qa a -> returns_only Q (k a)) -> returns_only Q (m ≫= k).
Proof.
  intros Hm Hk w b. rewrite run_bind. specialize (Hm w).
  destruct (m w) as [[a|msg] w1]; simpl in Hm |- *.
  - apply Hk. apply Hm. reflexivity.
  - discriminate.
Qed.

Lemma primary_loop_sum_range V bc addrs bals sels : forall i t t',
  uint64 (t_sum t) ->
  primary_loop V bc addrs bals i sels t = Returned t' -> uint64 (t_sum t').
Proof.
  induction sels as [|s sels IH]; intros i t t' Ht; simpl.
  - intros [= <-]. exact Ht.
  - destruct (bals !! i) as [b|]; [|discriminate].
    destruct (below_expected s b); [apply IH; exact Ht|].
    destruct (b <=? 0); [apply IH; apply wrap64_range|].
    destruct (addrs !! i) as [a|]; [|discriminate].
    destruct (_ && _).
    + intros [= <-]. destruct bc; apply wrap64_range.
    + apply IH. destruct bc; apply wrap64_range.
Qed.

Lemma secondary_loop_sum_range V bc addrs bals start sels : forall i t,
  uint64 (t_sum t) ->
  returns_only (fun t' => uint64 (t_sum t'))
    (secondary_loop V bc addrs bals start i sels t).
Proof.
  induction sels as [|s sels IH]; intros i t Ht; simpl.
  - apply returns_ret. exact Ht.
  - destruct (addrs !! i) as [a|]; [|intros w t' H; discriminate H].
    destruct (bals !! (start + i)%nat) as [b|]; [|intros w t' H; discriminate H].
    destruct (b =? 0).
    + apply returns_bind. intros [has err]. destruct (has || _); apply IH.
      * exact Ht.
      * destruct bc; exact Ht.
    + destruct (_ && _).
      * apply returns_ret. destruct bc; apply wrap64_range.
      * apply IH. destruct bc; apply wrap64_range.
Qed.

Lemma defaultInputSelection_sum_range V bc :
  returns_only (fun r : selected => uint64 r.1.1.1) (defaultInputSelection V bc).
Proof.
  assert (H0 : uint64 0) by (unfold uint64; lia).
  unfold defaultInputSelection.
  apply returns_bind. intros acc. apply returns_bind. intros [reqs|e]; [|apply returns_ret, H0].
  destruct (bool_decide _); [destruct bc; apply returns_ret, H0|].
  apply returns_bind. intros [ms|e]; [|apply returns_ret, H0].
  apply returns_bind. intros [now|e]; [|apply returns_ret, H0].
  apply returns_bind. intros [seed|e]; [|apply returns_ret, H0].
  apply returns_bind. intros c. cbv zeta.
  apply returns_bind. intros [bals|e]; [|apply returns_ret, H0].
  apply (returns_bind_returns _ (fun t => uint64 (t_sum t))).
  { intros w t H. eapply primary_loop_sum_range; [|exact H]. exact H0. }
  intros t1 Ht1.
  apply (returns_bind_returns _ (fun t => uint64 (t_sum t))).
  { destruct (_ || _); [apply secondary_loop_sum_range, Ht1 | apply returns_ret, Ht1]. }
  intros t2 Ht2. destruct bc; [apply returns_ret, Ht2|].
  destruct (_ <? _); apply returns_ret; [exact H0 | exact Ht2].
Qed.

Lemma allocateDepositRequest_stores req (P : effect -> Prop) :
  (forall index sec, P (StoreAddDepositRequest index
                          {| SecurityLevel := sec; stored_Request := req |})) ->
  (forall e, match e with StoreAddDepositRequest _ _ => False | _ => True end -> P e) ->
  logs P (allocateDepositRequest req).
Proof.
  intros Hstore Hother. unfold allocateDepositRequest.
  shape; try (apply Hother; exact I); try apply Hstore.
Qed.

(** X13.  The deposit requests the account writes to the store never make
    input selection panic.  [AllocateDepositRequest] stores nothing but the
    request it was given, and only when that request has a timeout.  [Send]
    stores nothing but remainder requests: no timeout, not multi-use, and a
    positive expected amount. *)
Theorem stored_requests_are_classifiable (w : world) :
  (forall req,
     exists new,
       w_log (AllocateDepositRequest req w).2 = (new ++ w_log w)%list /\
       Forall (stores_timed req) new /\ Forall stores_classifiable new) /\
  (forall recipients,
     exists new,
       w_log (Send recipients w).2 = (new ++ w_log w)%list /\
       Forall stores_remainder new /\ Forall stores_classifiable new).
Proof.
  split.
  - intros req.
    assert (H : logs (fun e => stores_timed req e /\ stores_classifiable e)
                  (AllocateDepositRequest req)).
    { unfold AllocateDepositRequest, lock, unlock.
      destruct (TimeoutAt req) as [timeoutAt|] eqn:Htimeout;
        shape; try (split; exact I).
      apply allocateDepositRequest_stores.
      - intros index sec. split; [split; [reflexivity | rewrite Htimeout; eauto]|].
        intros [Hnone _]. simpl in Hnone. congruence.
      - intros e He. destruct e; try (split; exact I). contradiction. }
    destruct (H w) as (new & Hlog & Hall). exists new. split; [exact Hlog|].
    split; eapply Forall_impl; try exact Hall; simpl; intros e [? ?]; assumption.
  - intros recipients.
    assert (Hprep : forall ins ra rem,
              logs (fun e => stores_remainder e /\ stores_classifiable e)
                (send_prepared recipients ins ra rem)).
    { intros. unfold send_prepared. shape; split; exact I. }
    assert (Hsel : forall V bc,
              logs (fun e => stores_remainder e /\ stores_classifiable e)
                (runInputSelection V bc)).
    { intros. eapply logs_weaken; [|apply runInputSelection_logs].
      intros e He. destruct e; try (split; exact I); contradiction. }
    assert (H : logs (fun e => stores_remainder e /\ stores_classifiable e)
                  (Send recipients)).
    { unfold Send, lock, unlock. shape; try (split; exact I).
      unfold send. destruct (Z.gtb_spec (Sum recipients) 0) as [Hpos|_]; [|apply Hprep].
      apply (logs_bind_returns _ (fun r : selected => uint64 r.1.1.1)); [apply Hsel| |].
      { unfold runInputSelection. apply returns_bind. intros acc0.
        destruct (inputSelectionStrategy _). apply defaultInputSelection_sum_range. }
      intros [[[sum ins] rem] err] Hsum. simpl in Hsum.
      destruct err as [err|]; [shape|].
      destruct (Z.gtb_spec sum (Sum recipients)) as [Hmore|_]; [|apply Hprep].
      apply logs_bind.
      - apply allocateDepositRequest_stores.
        + intros index sec.
          pose proof (Sum_uint64 recipients) as Hrange.
          assert (Hamount : wrap64 (sum - Sum recipients) = sum - Sum recipients)
            by (apply wrap64_small; unfold uint64 in Hsum, Hrange |- *; lia).
          split.
          * split; [reflexivity|]. split; [reflexivity|]. simpl.
            eexists. split; [reflexivity|]. rewrite Hamount. lia.
          * intros [_ Hnone]. simpl in Hnone. discriminate Hnone.
        + intros e He. destruct e; try (split; exact I). contradiction.
      - intros [depCond err]. shape; try apply Hprep. }
    destruct (H w) as (new & Hlog & Hall). exists new. split; [exact Hlog|].
    split; eapply Forall_impl; try exact Hall; simpl; intros e [? ?]; assumption.
Qed.

Lemma hasIncoming_loop_checks addr bndls persisted w :
  w_acc (hasIncoming_loop addr bndls persisted w).2 = w_acc w /\
  exists hs,
    w_log (hasIncoming_loop addr bndls persisted w).2
    = (rev (ApiCheckConsistency <$> hs) ++ w_log w)%list /\
    sublist hs (tail_hash <$> filter (fun bndl => checkable addr bndl = true) bndls).
Proof.
  revert persisted w. induction bndls as [|bndl rest IH]; intros persisted w.
  - split; [reflexivity|]. exists []. split; [reflexivity | constructor].
  - assert (Hskip : forall p,
              checkable addr bndl = true \/ checkable addr bndl = false ->
              w_acc (hasIncoming_loop addr rest p w).2 = w_acc w /\
              exists hs,
                w_log (hasIncoming_loop addr rest p w).2
                = (rev (ApiCheckConsistency <$> hs) ++ w_log w)%list /\
                sublist hs (tail_hash <$>
                              filter (fun bndl => checkable addr bndl = true) (bndl :: rest))).
    { intros p Hc. destruct (IH p w) as (Hacc & hs & Hlog & Hsub).
      split; [exact Hacc|]. exists hs. split; [exact Hlog|].
      rewrite filter_cons. destruct (decide _); [|exact Hsub].
      rewrite fmap_cons. apply sublist_cons, Hsub. }
    assert (Hnone : w_acc w = w_acc w /\
              exists hs,
                w_log w = (rev (ApiCheckConsistency <$> hs) ++ w_log w)%list /\
                sublist hs (tail_hash <$>
                              filter (fun bndl => checkable addr bndl = true) (bndl :: rest))).
    { split; [reflexivity|]. exists []. split; [reflexivity | apply sublist_nil_l]. }
    simpl hasIncoming_loop. destruct bndl as [|tail more]; [exact Hnone|].
    destruct (tx_Persistence tail) as [[|]|] eqn:Hp; [apply Hskip | | exact Hnone].
    { destruct (checkable addr (tail :: more)); auto. }
    destruct (decide _); [apply Hskip; destruct (checkable addr (tail :: more)); auto|].
    destruct (isDepositToAddr addr (tail :: more)) eqn:Hdep; simpl negb; cbv iota;
      [|apply Hskip; destruct (checkable addr (tail :: more)); auto].
    assert (Hin : checkable addr (tail :: more) = true).
    { unfold checkable. rewrite Hp, Hdep. reflexivity. }
    assert (Hone : forall w1 : world,
              w_acc w1 = w_acc w ->
              w_log w1 = (ApiCheckConsistency (tx_Hash tail) :: w_log w)%list ->
              w_acc w1 = w_acc w /\
              exists hs,
                w_log w1 = (rev (ApiCheckConsistency <$> hs) ++ w_log w)%list /\
                sublist hs (tail_hash <$>
                              filter (fun bndl => checkable addr bndl = true)
                                (( tail :: more) :: rest))).
    { intros w1 Hacc Hlog. split; [exact Hacc|]. exists [tx_Hash tail].
      split; [exact Hlog|]. rewrite filter_cons, decide_True by exact Hin.
      rewrite fmap_cons. apply sublist_skip, sublist_nil_l. }
    run_goal.
    destruct (CheckConsistency _ _ _) as [[|]|err]; simpl.
    + apply (Hone {| w_acc := w_acc w;
                     w_log := ApiCheckConsistency (tx_Hash tail) :: w_log w |});
        reflexivity.
    + match goal with
      | |- context [hasIncoming_loop addr rest persisted ?w1] =>
          destruct (IH persisted w1) as (Hacc & hs & Hlog & Hsub)
      end.
      split; [exact Hacc|]. exists (tx_Hash tail :: hs). split.
      * rewrite Hlog. simpl. rewrite <- app_assoc. reflexivity.
      * rewrite filter_cons, decide_True by exact Hin. rewrite fmap_cons.
        apply sublist_skip, Hsub.
    + apply (Hone {| w_acc := w_acc w;
                     w_log := ApiCheckConsistency (tx_Hash tail) :: w_log w |});
        reflexivity.
Qed.

(** X14.  [hasIncomingConsistentValueTransfer] leaves the account as it is
    and calls the node only to look up the bundles of the address and then to
    check consistency: the tails it checks are, in the order of the lookup and
    each at most once, tails of listed bundles that are unconfirmed and
    deposit a positive value onto the address; a confirmed bundle and a
    bundle that does not deposit onto the address are never checked.  When
    the lookup fails its error comes back and nothing is checked. *)
Theorem hasIncoming_checks_only_unconfirmed_deposits (addr : Hash) (w : world) :
  w_acc (hasIncomingConsistentValueTransfer addr w).2 = w_acc w /\
  (forall err,
     GetBundlesFromAddresses (api (setts (w_acc w))) (w_log w) [addr] true = Err err ->
     hasIncomingConsistentValueTransfer addr w
     = (Returned (false, Some err), after [ApiGetBundlesFromAddresses [addr]] w)) /\
  (forall bndls,
     GetBundlesFromAddresses (api (setts (w_acc w))) (w_log w) [addr] true = Ok bndls ->
     exists hs,
       w_log (hasIncomingConsistentValueTransfer addr w).2
       = (rev (ApiCheckConsistency <$> hs)
          ++ ApiGetBundlesFromAddresses [addr] :: w_log w)%list /\
       sublist hs (tail_hash <$> filter (fun bndl => checkable addr bndl = true) bndls)).
Proof.
  split; [|split].
  - unfold hasIncomingConsistentValueTransfer. run_goal.
    destruct (GetBundlesFromAddresses _ _ _ _) as [bndls|err]; simpl; [|reflexivity].
    apply (hasIncoming_loop_checks addr bndls ∅
             {| w_acc := w_acc w; w_log := ApiGetBundlesFromAddresses [addr] :: w_log w |}).
  - intros err Hlookup. unfold hasIncomingConsistentValueTransfer. run_goal.
    rewrite Hlookup. reflexivity.
  - intros bndls Hlookup. unfold hasIncomingConsistentValueTransfer. run_goal.
    rewrite Hlookup. simpl.
    destruct (hasIncoming_loop_checks addr bndls ∅
                {| w_acc := w_acc w; w_log := ApiGetBundlesFromAddresses [addr] :: w_log w |})
      as (_ & hs & Hlog & Hsub).
    exists hs. split; [exact Hlog | exact Hsub].
Qed.

End Account.

(** ** Concrete runs *)

(** Witness of C1: on the funded account the target 100 needs both A and B. *)
Lemma primary_selection_is_greedy_prefix_witness :
  exists chosen rest,
    funded_inputs (primarySelection Fixture.funded_candidates)
      (primaryAddrs Fixture.funded_candidates) [40; 70] = (chosen ++ rest)%list /\
    (rest = [] \/ 100 < total (Balance <$> chosen)) /\
    (forall p x q, chosen = (p ++ x :: q)%list -> total (Balance <$> p) <= 100) /\
    defaultInputSelection Fixture.GenerateAddress 100 false Fixture.funded =
    (Returned (total (Balance <$> chosen), chosen, KeyIndex <$> chosen, None),
     after [ApiGetBalances ["A"; "B"] 100 "MILESTONE"; SeedProvSeed; ClockNow;
            ApiGetLatestSolidSubtangleMilestone; StoreGetDepositRequests] Fixture.funded).
Proof.
  apply (primary_selection_is_greedy_prefix Fixture.GenerateAddress 100 Fixture.funded
           Fixture.funded_requests "MILESTONE" 1000 "SEED" Fixture.funded_candidates
           [40; 70]).
  - reflexivity.
  - discriminate.
  - reflexivity.
  - reflexivity.
  - reflexivity.
  - reflexivity.
  - reflexivity.
  - simpl. lia.
  - repeat constructor; lia.
  - lia.
  - vm_compute. discriminate.
  - vm_compute. reflexivity.
Defined.

(** On that account selection returns the inputs A and B, the sum 110, and
    marks the key indices 1 and 2. *)
Example funded_selection :
  (defaultInputSelection Fixture.GenerateAddress 100 false Fixture.funded).1
  = Returned (110,
              [{| Address := "A"; KeyIndex := 1; Balance := 40; Security := 2 |};
               {| Address := "B"; KeyIndex := 2; Balance := 70; Security := 2 |}],
              [1; 2], None).
Proof. vm_compute. reflexivity. Qed.

(** Counterexample to C1 as stated.  On the example of the specification,
    where A and B have neither a timeout nor an expected amount, selection
    panics instead of returning A and B.  An address with a zero balance that
    the scan passes is neither an input nor marked for removal.  And the scan
    follows the order in which the store lists the requests, whatever the key
    indices. *)
Lemma spec_example_panics :
  (defaultInputSelection Fixture.GenerateAddress 100 false Fixture.spec_example).1
  = Panicked remainder_panic /\
  (defaultInputSelection Fixture.GenerateAddress 100 false Fixture.spec_example).1
  <> Returned (110,
               [{| Address := "A"; KeyIndex := 1; Balance := 40; Security := 2 |};
                {| Address := "B"; KeyIndex := 2; Balance := 70; Security := 2 |}],
               [1; 2], None) /\
  (defaultInputSelection Fixture.GenerateAddress 50 false Fixture.empty_then_funded).1
  = Returned (70, [{| Address := "B"; KeyIndex := 2; Balance := 70; Security := 2 |}],
              [2], None) /\
  (defaultInputSelection Fixture.GenerateAddress 100 false Fixture.listed_backwards).1
  = Returned (110,
              [{| Address := "B"; KeyIndex := 2; Balance := 70; Security := 2 |};
               {| Address := "A"; KeyIndex := 1; Balance := 40; Security := 2 |}],
              [2; 1], None).
Proof.
  split; [vm_compute; reflexivity|]. split; [vm_compute; discriminate|].
  split; vm_compute; reflexivity.
Qed.

(** Witness of C2: on the mixed account A, B and C hold 90, short of 100. *)
Lemma insufficient_balance_frees_nothing_witness :
  (defaultInputSelection Fixture.GenerateAddress 100 false Fixture.mixed).1
  = Returned (0, [], [], Some ErrInsufficientBalance).
Proof.
  apply (proj1 (proj2 (proj2 (proj2
           (insufficient_balance_frees_nothing Fixture.GenerateAddress
              Fixture.AsTransactionObject Fixture.AsTransactionObjects 100 Fixture.mixed))))
           Fixture.mixed_requests "MILESTONE" 1000 "SEED" Fixture.mixed_candidates
           [40; 0; 50]).
  - reflexivity.
  - reflexivity.
  - reflexivity.
  - reflexivity.
  - reflexivity.
  - reflexivity.
  - simpl. lia.
  - intros h addr bndls [= <-]. constructor.
  - repeat constructor; lia.
  - vm_compute. reflexivity.
Defined.

(** Counterexample to C2 as stated: B is timed out, empty and without any
    incoming transfer, yet when the balance falls short selection returns no
    index to remove, and [Send] ends without a store write: B is not
    freed. *)
Lemma insufficient_balance_drops_marked_indices :
  (hasIncomingConsistentValueTransfer "B" Fixture.mixed).1 = Returned (false, None) /\
  defaultInputSelection Fixture.GenerateAddress 100 false Fixture.mixed
  = (Returned (0, [], [], Some ErrInsufficientBalance),
     after [ApiGetBundlesFromAddresses ["B"];
            ApiGetBalances ["A"; "B"; "C"] 100 "MILESTONE"; SeedProvSeed; ClockNow;
            ApiGetLatestSolidSubtangleMilestone; StoreGetDepositRequests] Fixture.mixed) /\
  Send Fixture.GenerateAddress Fixture.IsTrytesOfExactLength Fixture.AsTransactionObject
    Fixture.AsTransactionObjects [Fixture.recipient 100] Fixture.mixed
  = (Returned ([], Some (Wrap ErrInsufficientBalance
                           "failed to perform input selection in send op.")),
     after [MuUnlock; ApiGetBundlesFromAddresses ["B"];
            ApiGetBalances ["A"; "B"; "C"] 100 "MILESTONE"; SeedProvSeed; ClockNow;
            ApiGetLatestSolidSubtangleMilestone; StoreGetDepositRequests; MuLock]
       Fixture.mixed).
Proof. repeat split; vm_compute; reflexivity. Qed.


Example three_allocations :
  issued (w_log (allocate_all Fixture.GenerateAddress
                   [Fixture.timeout_request (Some (1000 + 10 * Minute));
                    Fixture.timeout_request None;
                    Fixture.timeout_request (Some (1000 + 10 * Minute))] Fixture.fresh).2)
  = [3; 4].
Proof. vm_compute. reflexivity. Qed.


(** Witness of C4: no timeout, and a timeout two minutes ahead. *)
Lemma AllocateDepositRequest_timeout_witness :
  AllocateDepositRequest Fixture.GenerateAddress (Fixture.timeout_request None) Fixture.fresh
  = (Returned (None, Some ErrTimeoutNotSpecified),
     {| w_acc := w_acc Fixture.fresh; w_log := MuUnlock :: MuLock :: w_log Fixture.fresh |}) /\
  AllocateDepositRequest Fixture.GenerateAddress
    (Fixture.timeout_request (Some (1000 + 2 * Minute))) Fixture.fresh
  = (Returned (None, Some ErrTimeoutTooLow),
     {| w_acc := w_acc Fixture.fresh;
        w_log := MuUnlock :: ClockNow :: MuLock :: w_log Fixture.fresh |}).
Proof.
  split.
  - apply (proj1 (AllocateDepositRequest_timeout Fixture.GenerateAddress
                    (Fixture.timeout_request None) Fixture.fresh eq_refl)).
    reflexivity.
  - apply (proj1 (proj2 (AllocateDepositRequest_timeout Fixture.GenerateAddress
                           (Fixture.timeout_request (Some (1000 + 2 * Minute)))
                           Fixture.fresh eq_refl)
                    (1000 + 2 * Minute) 1000 eq_refl eq_refl)).
    unfold Minute, Second. lia.
Defined.

(** Witness of C5: the probe of the mixed account sees 40 + 0 + 50. *)
Lemma probe_mode_only_reads_witness :
  (defaultInputSelection Fixture.GenerateAddress 0 true Fixture.mixed).1
  = Returned (90, [], [], None).
Proof.
  apply (proj2 (proj2 (proj2 (proj2
           (probe_mode_only_reads Fixture.GenerateAddress 0 Fixture.mixed))))
           Fixture.mixed_requests "MILESTONE" 1000 "SEED" Fixture.mixed_candidates
           [40; 0; 50]).
  - reflexivity.
  - reflexivity.
  - reflexivity.
  - reflexivity.
  - reflexivity.
  - reflexivity.
  - simpl. lia.
  - intros h addr bndls [= <-]. constructor.
Defined.

(** Witness of C6: [Shutdown] on the stopped account. *)
Lemma public_operations_lock_and_NotRunning_witness :
  Shutdown Fixture.stopped
  = (Returned (Some ErrAccountNotRunning), after [MuUnlock; MuLock] Fixture.stopped).
Proof.
  apply (proj1 (proj1 (public_operations_lock_and_NotRunning Fixture.GenerateAddress
                         Fixture.IsTrytesOfExactLength Fixture.AsTransactionObject
                         Fixture.AsTransactionObjects Fixture.stopped) eq_refl)).
Defined.

(** Counterexample to C6 as stated: on the stopped account [Start] succeeds
    and sets the flag, and [ID] answers without touching the lock. *)
Lemma Start_and_ID_on_stopped_account :
  running (w_acc Fixture.stopped) = false /\
  Start Fixture.stopped
  = (Returned None,
     {| w_acc := Fixture.account_of (setts (w_acc Fixture.stopped)) true 0;
        w_log := [MuUnlock; StoreLoadAccount; MuLock] |}) /\
  ID Fixture.stopped = (Returned "ID", Fixture.stopped).
Proof. repeat split; vm_compute; reflexivity. Qed.

(** Witness of C7: the confirmed attachment C is listed first; R is skipped
    and the unconfirmed bundle B2 is found. *)
Lemma hasIncoming_skips_later_reattachments_witness :
  exists has w',
    hasIncomingConsistentValueTransfer "A" (Fixture.with_bundles Fixture.confirmed_first)
    = (Returned (has, None), w') /\
    (has = true <->
     exists pre bndl post,
       Fixture.confirmed_first = (pre ++ bndl :: post)%list /\
       unconfirmed bndl /\
       ~ confirmed_among pre bndl /\
       deposits_into "A" bndl /\
       reported_consistent (fun _ => true) bndl).
Proof.
  apply (hasIncoming_skips_later_reattachments "A"
           (Fixture.with_bundles Fixture.confirmed_first) Fixture.confirmed_first
           (fun _ => true)).
  - reflexivity.
  - repeat constructor; eexists _, _, _; split; reflexivity.
  - intros h tail. reflexivity.
Defined.

Example confirmed_first_run :
  (hasIncomingConsistentValueTransfer "A" (Fixture.with_bundles Fixture.confirmed_first)).1
  = Returned (true, None) /\
  w_log (hasIncomingConsistentValueTransfer "A"
           (Fixture.with_bundles Fixture.confirmed_first)).2
  = [ApiCheckConsistency "U"; ApiGetBundlesFromAddresses ["A"]].
Proof. split; vm_compute; reflexivity. Qed.

(** Counterexample to C7 as stated: the unconfirmed attachment R is listed
    before the confirmed attachment C of the same bundle.  The family is
    confirmed, so no bundle qualifies in the reading of the specification,
    yet the check asks the ledger about R and returns true. *)
Lemma reattachment_listed_first :
  hasIncomingConsistentValueTransfer "A" (Fixture.with_bundles Fixture.reattachment_first)
  = (Returned (true, None),
     after [ApiCheckConsistency "R"; ApiGetBundlesFromAddresses ["A"]]
       (Fixture.with_bundles Fixture.reattachment_first)) /\
  ~ incoming_as_specified "A" (fun _ => true) Fixture.reattachment_first.
Proof.
  split; [vm_compute; reflexivity|].
  intros (bndl & Hin & Hun & Hnot & _).
  apply Hnot. exists (Fixture.attachment "C" "B1" true).
  split; [right; left|]. split; [eexists _, _; split; reflexivity|].
  unfold Fixture.reattachment_first in Hin.
  apply elem_of_cons in Hin as [->|Hin]; [reflexivity|].
  apply list_elem_of_singleton in Hin as ->.
  destruct Hun as (tail & more & [= <- <-] & Hp). discriminate Hp.
Qed.

(** Witness of C8: B is empty and its bundle lookup fails; the loop goes on
    with C from the same sum, inputs and removal list. *)
Lemma failed_probe_keeps_address_witness :
  secondary_loop 45 false ["B"; "C"] [40; 0; 50] 1 0
    (secondarySelection Fixture.mixed_candidates)
    {| t_sum := 40; t_inputs := []; t_toRemove := [] |} Fixture.mixed_failing_lookup
  = secondary_loop 45 false ["B"; "C"] [40; 0; 50] 1 1
      [Fixture.selection_of 3 (Fixture.request (Some 500) None false)]
      {| t_sum := 40; t_inputs := []; t_toRemove := [] |}
      (after [ApiGetBundlesFromAddresses ["B"]] Fixture.mixed_failing_lookup).
Proof.
  apply (proj2 (failed_probe_keeps_address 45 false ["B"; "C"] [40; 0; 50] 1 0
                  (Fixture.selection_of 2 (Fixture.request (Some 500) None false))
                  [Fixture.selection_of 3 (Fixture.request (Some 500) None false)]
                  {| t_sum := 40; t_inputs := []; t_toRemove := [] |}
                  Fixture.mixed_failing_lookup "B" eq_refl eq_refl)
           (ErrCollaborator "bundle lookup failed")).
  reflexivity.
Defined.

(** With the failing lookup, a transfer of 45 takes A and C; B, whose probe
    failed, is neither an input nor marked for removal, and no error comes
    back. *)
Example selection_survives_failed_probe :
  (defaultInputSelection Fixture.GenerateAddress 45 false Fixture.mixed_failing_lookup).1
  = Returned (90,
              [{| Address := "A"; KeyIndex := 1; Balance := 40; Security := 2 |};
               {| Address := "C"; KeyIndex := 3; Balance := 50; Security := 2 |}],
              [1; 3], None).
Proof. vm_compute. reflexivity. Qed.

(** Witness of C10: the example of the specification holds two requests
    without timeout and without expected amount. *)
Lemma remainder_without_amount_panics_witness :
  ((defaultInputSelection Fixture.GenerateAddress 0 true Fixture.spec_example).1
   = Panicked remainder_panic
   <-> Exists remainder_without_amount
         [(1, Fixture.request None None false); (2, Fixture.request None None false)]) /\
  (Exists remainder_without_amount
     [(1, Fixture.request None None false); (2, Fixture.request None None false)] ->
   (availableBalance Fixture.GenerateAddress Fixture.spec_example).1
   = Panicked remainder_panic) /\
  (Exists remainder_without_amount
     [(1, Fixture.request None None false); (2, Fixture.request None None false)] ->
   forall targets,
     Sum targets > 0 ->
     (send Fixture.GenerateAddress Fixture.AsTransactionObject Fixture.AsTransactionObjects
        targets Fixture.spec_example).1
     = Panicked remainder_panic).
Proof.
  apply (remainder_without_amount_panics Fixture.GenerateAddress Fixture.AsTransactionObject
           Fixture.AsTransactionObjects 0 true Fixture.spec_example
           [(1, Fixture.request None None false); (2, Fixture.request None None false)]
           "MILESTONE" 1000 "SEED");
    reflexivity.
Defined.

Example probe_panics_on_spec_example :
  (AvailableBalance Fixture.GenerateAddress Fixture.spec_example).1
  = Panicked remainder_panic.
Proof. vm_compute. reflexivity. Qed.

(** A send of 100 from the funded account: the remainder address is
    allocated, the pending transfer is recorded, then the bundle is
    broadcast. *)
Example send_from_funded_account :
  w_log (Send Fixture.GenerateAddress Fixture.IsTrytesOfExactLength
           Fixture.AsTransactionObject Fixture.AsTransactionObjects
           [Fixture.recipient 100] Fixture.funded).2
  = [MuUnlock;
     EmitEvent (EventSendingTransfer
                  [{| tx_Hash := "BUNDLE"; tx_Address := ""; tx_Value := 0; tx_Bundle := "";
                      tx_Persistence := None |}]);
     ApiStoreAndBroadcast ["BUNDLE"];
     StoreAddPendingTransfer "BUNDLE" ["BUNDLE"] [1; 2];
     ApiAttachToTangle "TRUNK" "BRANCH" 14 ["BUNDLE"];
     ApiGetTransactionsToApprove 3;
     ApiPrepareTransfers "SEED" [Fixture.recipient 100]
       {| opt_Inputs :=
            [{| Address := "A"; KeyIndex := 1; Balance := 40; Security := 2 |};
             {| Address := "B"; KeyIndex := 2; Balance := 70; Security := 2 |}];
          opt_RemainderAddress := Some "C";
          opt_Timestamp := Some 0 |};
     SeedProvSeed; ClockNow;
     StoreAddDepositRequest 3
       {| SecurityLevel := 2;
          stored_Request := {| TimeoutAt := None; MultiUse := false;
                               ExpectedAmount := Some 10 |} |};
     StoreWriteIndex 3; SeedProvSeed;
     ApiGetBalances ["A"; "B"] 100 "MILESTONE"; SeedProvSeed; ClockNow;
     ApiGetLatestSolidSubtangleMilestone; StoreGetDepositRequests; MuLock].
Proof. vm_compute. reflexivity. Qed.

(** ** Concrete runs of the further properties *)

(** On the funded account the total balance is 110, asked for in one
    query. *)
Lemma TotalBalance_sums_all_addresses_witness :
  TotalBalance Fixture.GenerateAddress Fixture.funded
  = (Returned (wrap64 (total [40; 70]), None),
     after [MuRUnlock;
            ApiGetBalances (map (address_of Fixture.GenerateAddress "SEED")
                              (DepositRequests Fixture.funded_state)) 100 "MILESTONE";
            SeedProvSeed; ApiGetLatestSolidSubtangleMilestone; StoreLoadAccount; MuRLock]
       Fixture.funded).
Proof.
  apply (proj2 (TotalBalance_sums_all_addresses Fixture.GenerateAddress Fixture.funded
                  Fixture.funded_state eq_refl eq_refl) "MILESTONE" "SEED" [40; 70]).
  - discriminate.
  - reflexivity.
  - reflexivity.
  - reflexivity.
Defined.

(** A recipient without checksum is rejected before anything is read. *)
Lemma Send_validates_first_witness :
  Send Fixture.GenerateAddress Fixture.IsTrytesOfExactLength Fixture.AsTransactionObject
    Fixture.AsTransactionObjects [Fixture.recipient 5; Fixture.short_recipient] Fixture.funded
  = (Returned ([], Some ErrInvalidAddress), after [MuUnlock; MuLock] Fixture.funded).
Proof.
  apply (proj1 (proj2 (Send_validates_first Fixture.GenerateAddress
                         Fixture.IsTrytesOfExactLength Fixture.AsTransactionObject
                         Fixture.AsTransactionObjects
                         [Fixture.recipient 5; Fixture.short_recipient] Fixture.funded
                         eq_refl))).
  - discriminate.
  - apply Exists_cons_tl, Exists_cons_hd. vm_compute. reflexivity.
Defined.

(** A message to one recipient, without value, on the funded account. *)
Lemma Send_without_value_spends_nothing_witness :
  w_acc (Send Fixture.GenerateAddress Fixture.IsTrytesOfExactLength
           Fixture.AsTransactionObject Fixture.AsTransactionObjects
           [Fixture.recipient 0] Fixture.funded).2 = w_acc Fixture.funded /\
  exists new,
    w_log (Send Fixture.GenerateAddress Fixture.IsTrytesOfExactLength
             Fixture.AsTransactionObject Fixture.AsTransactionObjects
             [Fixture.recipient 0] Fixture.funded).2 = (new ++ w_log Fixture.funded)%list /\
    Forall spends_nothing new.
Proof.
  apply (Send_without_value_spends_nothing Fixture.GenerateAddress
           Fixture.IsTrytesOfExactLength Fixture.AsTransactionObject
           Fixture.AsTransactionObjects [Fixture.recipient 0] Fixture.funded).
  reflexivity.
Defined.

(** Updating the settings of the account whose second plugin does not shut
    down: the settings are kept. *)
Lemma UpdateSettings_swaps_after_stop_witness :
  (exists k err,
     (k < length (plugins (setts (w_acc Fixture.stuck))))%nat /\
     UpdateSettings Fixture.plain Fixture.stuck =
     (Returned (Some (Wrap (Wrap err shutdown_failure) update_stop_failure)),
      after (MuUnlock :: replicate (S k) PluginShutdown ++ [MuLock]) Fixture.stuck)) \/
  (exists k res,
     UpdateSettings Fixture.plain Fixture.stuck =
     (Returned res,
      {| w_acc := with_setts Fixture.plain (w_acc Fixture.stuck);
         w_log := MuUnlock
                  :: (replicate k PluginStart
                      ++ replicate (length (plugins (setts (w_acc Fixture.stuck))))
                           PluginShutdown
                      ++ MuLock :: w_log Fixture.stuck)%list |}) /\
     ((res = None /\ k = length (plugins Fixture.plain)) \/
      (exists err, res = Some (Wrap (Wrap err start_failure) update_start_failure) /\
                   (0 < k <= length (plugins Fixture.plain))%nat))).
Proof. apply (UpdateSettings_swaps_after_stop Fixture.plain Fixture.stuck). reflexivity. Defined.

Example UpdateSettings_keeps_settings_on_failure :
  UpdateSettings Fixture.plain Fixture.stuck
  = (Returned (Some (Wrap (Wrap (ErrCollaborator "plugin does not shut down")
                             shutdown_failure) update_stop_failure)),
     after [MuUnlock; PluginShutdown; PluginShutdown; MuLock] Fixture.stuck).
Proof. vm_compute. reflexivity. Qed.

(** Starting the account whose second plugin does not start: the key index
    of the store, 0, replaces 5, and the account stays stopped. *)
Lemma Start_loads_index_then_plugins_witness :
  (exists k err,
     (k < length (plugins (setts (w_acc Fixture.unstartable))))%nat /\
     Start Fixture.unstartable =
     (Returned (Some (Wrap err start_failure)),
      {| w_acc := with_lastKeyIndex 0 (w_acc Fixture.unstartable);
         w_log := MuUnlock
                  :: (replicate (S k) PluginStart
                      ++ StoreLoadAccount :: MuLock :: w_log Fixture.unstartable)%list |})) \/
  Start Fixture.unstartable =
  (Returned None,
   {| w_acc := with_running true (with_lastKeyIndex 0 (w_acc Fixture.unstartable));
      w_log := MuUnlock
               :: (replicate (length (plugins (setts (w_acc Fixture.unstartable))))
                     PluginStart
                   ++ StoreLoadAccount :: MuLock :: w_log Fixture.unstartable)%list |}).
Proof.
  apply (proj2 (Start_loads_index_then_plugins Fixture.unstartable)
           {| state_KeyIndex := 0; DepositRequests := []; state_IsNew := true |}).
  reflexivity.
Defined.

Example Start_keeps_loaded_index_on_failure :
  Start Fixture.unstartable
  = (Returned (Some (Wrap (ErrCollaborator "plugin does not start") start_failure)),
     {| w_acc := Fixture.account_of (Fixture.with_plugins [Fixture.steady; Fixture.no_start]
                                       Fixture.plain) false 0;
        w_log := [MuUnlock; PluginStart; PluginStart; StoreLoadAccount; MuLock] |}).
Proof. vm_compute. reflexivity. Qed.

(** Shutting down the account whose second plugin does not shut down. *)
Lemma Shutdown_clears_flag_first_witness :
  (exists k err,
     (k < length (plugins (setts (w_acc Fixture.stuck))))%nat /\
     Shutdown Fixture.stuck =
     (Returned (Some (Wrap (Wrap err shutdown_failure) shutdown_op_failure)),
      {| w_acc := with_running false (w_acc Fixture.stuck);
         w_log := MuUnlock
                  :: (replicate (S k) PluginShutdown ++ MuLock :: w_log Fixture.stuck)%list |}))
  \/
  Shutdown Fixture.stuck =
  (Returned None,
   {| w_acc := with_running false (w_acc Fixture.stuck);
      w_log := MuUnlock :: EmitEvent EventShutdown
               :: (replicate (length (plugins (setts (w_acc Fixture.stuck)))) PluginShutdown
                   ++ MuLock :: w_log Fixture.stuck)%list |}).
Proof. apply (Shutdown_clears_flag_first Fixture.stuck). reflexivity. Defined.

Example Shutdown_leaves_account_stopped_on_failure :
  Shutdown Fixture.stuck
  = (Returned (Some (Wrap (Wrap (ErrCollaborator "plugin does not shut down")
                             shutdown_failure) shutdown_op_failure)),
     {| w_acc := Fixture.account_of (Fixture.with_plugins [Fixture.steady; Fixture.no_shutdown]
                                       Fixture.plain) false 2;
        w_log := [MuUnlock; PluginShutdown; PluginShutdown; MuLock] |}).
Proof. vm_compute. reflexivity. Qed.

(** The candidates of the mixed account: A is primary, B and C are timed
    out. *)
Lemma classify_partitions_requests_witness :
  primarySelection Fixture.mixed_candidates
  = selection_from <$> filter (fun kr => primary 1000 kr.2 = true) Fixture.mixed_requests /\
  primaryAddrs Fixture.mixed_candidates
  = address_of Fixture.GenerateAddress "SEED"
    <$> filter (fun kr => primary 1000 kr.2 = true) Fixture.mixed_requests /\
  secondarySelection Fixture.mixed_candidates
  = selection_from <$> filter (fun kr => timed_out 1000 kr.2 = true) Fixture.mixed_requests /\
  secondaryAddrs Fixture.mixed_candidates
  = address_of Fixture.GenerateAddress "SEED"
    <$> filter (fun kr => timed_out 1000 kr.2 = true) Fixture.mixed_requests /\
  (forall r, ~ (primary 1000 r = true /\ timed_out 1000 r = true)) /\
  (forall r timeoutAt,
     TimeoutAt (stored_Request r) = Some timeoutAt -> 1000 <= timeoutAt ->
     MultiUse (stored_Request r) = true -> ExpectedAmount (stored_Request r) = None ->
     primary 1000 r = false /\ timed_out 1000 r = false).
Proof.
  apply (classify_partitions_requests Fixture.GenerateAddress "SEED" 1000
           Fixture.mixed_requests Fixture.mixed_candidates).
  vm_compute. reflexivity.
Defined.

(** On the mixed account the target 60 is reached with A and C. *)
Lemma successful_selection_covers_target_witness :
  60 <= 90 /\
  uint64 90 /\
  90 = sum_balances 0
         (Balance <$> [{| Address := "A"; KeyIndex := 1; Balance := 40; Security := 2 |};
                       {| Address := "C"; KeyIndex := 3; Balance := 50; Security := 2 |}]) /\
  Forall (fun input => 0 < Balance input)
    [{| Address := "A"; KeyIndex := 1; Balance := 40; Security := 2 |};
     {| Address := "C"; KeyIndex := 3; Balance := 50; Security := 2 |}] /\
  sublist (KeyIndex <$> [{| Address := "A"; KeyIndex := 1; Balance := 40; Security := 2 |};
                         {| Address := "C"; KeyIndex := 3; Balance := 50; Security := 2 |}])
    [1; 2; 3].
Proof.
  apply (successful_selection_covers_target Fixture.GenerateAddress 60 Fixture.mixed 90
           [{| Address := "A"; KeyIndex := 1; Balance := 40; Security := 2 |};
            {| Address := "C"; KeyIndex := 3; Balance := 50; Security := 2 |}] [1; 2; 3]).
  - intros h query threshold tip bals [= <-]. repeat constructor; lia.
  - vm_compute. reflexivity.
Defined.

Lemma selection_succeeds_with_secondary_witness :
  exists sum ins rem w',
    defaultInputSelection Fixture.GenerateAddress 60 false Fixture.mixed
    = (Returned (sum, ins, rem, None), w') /\
    60 <= sum
    <= total (counted_balances (primarySelection Fixture.mixed_candidates) [40; 0; 50])
       + total (secondary_balances Fixture.mixed_candidates [40; 0; 50]).
Proof.
  apply (selection_succeeds_with_secondary Fixture.GenerateAddress 60 Fixture.mixed
           Fixture.mixed_requests "MILESTONE" 1000 "SEED" Fixture.mixed_candidates
           [40; 0; 50]).
  - reflexivity.
  - discriminate.
  - reflexivity.
  - reflexivity.
  - reflexivity.
  - vm_compute. reflexivity.
  - reflexivity.
  - simpl. lia.
  - intros h addr bndls [= <-]. constructor.
  - repeat constructor; lia.
  - vm_compute. discriminate.
  - vm_compute. reflexivity.
Defined.

(** ** Properties of the packages signing and address *)

Section Packages.

Variable trinary : Trinary.
Variable kerl : Kerl.
Variable AddChecksum : Trytes -> bool -> Z -> Trytes * option pkg_error.

#[local] Set Default Proof Using "Type".
Local Open Scope list_scope.

Lemma outcome_cases {A} (o : outcome A) :
  (exists a, o = Returned a) \/ (exists msg, o = Panicked msg).
Proof. destruct o; eauto. Qed.

Lemma get_beyond (s : string) (n : nat) :
  (String.length s <= n)%nat -> String.get n s = None.
Proof.
  revert n. induction s as [|c s IH]; intros n Hn; simpl in Hn |- *.
  - reflexivity.
  - destruct n as [|n]; [lia|]. apply IH. lia.
Qed.

(** The loop that fills chunk [i] panics when one of the indices it reads
    lies beyond the hash. *)
Lemma NormalizedBundleHash_fill_panics n j i bundleHash normalizedBundle sum :
  (exists j', (j <= j' < j + n)%nat /\ (String.length bundleHash <= i * 27 * j')%nat) ->
  exists msg,
    signing.NormalizedBundleHash_fill trinary n j i bundleHash normalizedBundle sum
    = Panicked msg.
Proof.
  revert j normalizedBundle sum.
  induction n as [|n IH]; intros j normalizedBundle sum (j' & Hj & Hlen); [lia|].
  simpl. destruct (String.get (i * 27 * j) bundleHash) as [b|] eqn:Hget; [|eauto].
  destruct (TrytesToTrits trinary _) as [trits|msg]; simpl; [|eauto].
  destruct (decide _); [|eauto].
  apply IH. exists j'. split; [|exact Hlen].
  destruct (decide (j' = j)) as [->|]; [|lia].
  rewrite get_beyond in Hget by exact Hlen. discriminate.
Qed.

Lemma NormalizedBundleHash_chunk_panics i bundleHash normalizedBundle :
  (String.length bundleHash <= i * 27 * 26)%nat ->
  exists msg,
    signing.NormalizedBundleHash_chunk trinary i bundleHash normalizedBundle = Panicked msg.
Proof.
  intros Hlen. unfold signing.NormalizedBundleHash_chunk.
  destruct (NormalizedBundleHash_fill_panics 27 0 i bundleHash normalizedBundle 0)
    as (msg & ->).
  - exists 26%nat. split; [lia | exact Hlen].
  - exists msg. reflexivity.
Qed.

(** X15.  [NormalizedBundleHash] reads the tryte at index [i*27*j] of the
    bundle hash, for [i] up to 2 and [j] up to 26: it panics on every hash of
    at most 1404 characters, a bundle hash of 81 trytes included. *)
Theorem NormalizedBundleHash_panics_on_short_hash (bundleHash : Hash) :
  (String.length bundleHash <= 1404)%nat ->
  exists msg, signing.NormalizedBundleHash trinary bundleHash = Panicked msg.
Proof.
  intros Hlen. unfold signing.NormalizedBundleHash. simpl.
  destruct (signing.NormalizedBundleHash_chunk trinary 0 bundleHash _) as [nb0|msg];
    simpl; [|eauto].
  destruct (signing.NormalizedBundleHash_chunk trinary 1 bundleHash _) as [nb1|msg];
    simpl; [|eauto].
  destruct (NormalizedBundleHash_chunk_panics 2 bundleHash nb1) as (msg & ->);
    [simpl; lia|].
  simpl. eauto.
Qed.

(** X16.  [ValidateSignatures] never returns: it assigns the fragments of
    the normalized bundle hash to the elements of an empty slice, so it
    panics whatever the address, the fragments and the bundle hash are. *)
Theorem ValidateSignatures_always_panics (expectedAddress : Hash)
    (fragments : list Trytes) (bundleHash : Hash) :
  exists msg,
    signing.ValidateSignatures trinary kerl expectedAddress fragments bundleHash
    = Panicked msg.
Proof.
  unfold signing.ValidateSignatures.
  destruct (signing.NormalizedBundleHash trinary bundleHash) as [nb|msg]; simpl; [|eauto].
  destruct (slice nb _ _) as [fragment|msg]; simpl; eauto.
Qed.

Lemma int8_id z : int8_range z -> int8 z = z.
Proof. unfold int8_range, int8. intros H. rewrite Z.mod_small by lia. lia. Qed.

Lemma int8_in_range z : int8_range (int8 z).
Proof.
  unfold int8_range, int8. pose proof (Z.mod_pos_bound (z + 128) 256). lia.
Qed.

Lemma tryte_int8_range v : tryte_range v -> int8_range v.
Proof. unfold tryte_range, int8_range. lia. Qed.

Lemma digit_sum_app a b : digit_sum (a ++ b) = digit_sum a + digit_sum b.
Proof. unfold digit_sum. induction a as [|x a IH]; simpl; [reflexivity | lia]. Qed.

Lemma digit_sum_cons x a : digit_sum (x :: a) = x + digit_sum a.
Proof. reflexivity. Qed.

Lemma lowered_length l : length (lowered l) = length l.
Proof. induction l as [|v l IH]; simpl; [reflexivity|]. destruct (v >? -13); simpl; lia. Qed.

Lemma raised_length l : length (raised l) = length l.
Proof. induction l as [|v l IH]; simpl; [reflexivity|]. destruct (v <? 13); simpl; lia. Qed.

Lemma lowered_sum l :
  Forall int8_range l -> 0 < digit_sum l ->
  digit_sum (lowered l) = digit_sum l - 1 /\ Forall int8_range (lowered l).
Proof.
  induction l as [|v l IH]; intros Hr Hpos; [unfold digit_sum in Hpos; simpl in Hpos; lia|].
  inversion Hr as [|? ? Hv Hl]; subst. rewrite digit_sum_cons in Hpos. simpl.
  destruct (v >? -13) eqn:Hcmp.
  - assert (Hin : int8_range (v - 1)) by (unfold int8_range in Hv |- *; lia).
    rewrite (int8_id _ Hin), !digit_sum_cons. split; [lia|]. constructor; assumption.
  - destruct IH as [Hsum Hrange]; [exact Hl | lia |].
    rewrite !digit_sum_cons. split; [lia|]. constructor; assumption.
Qed.

Lemma raised_sum l :
  Forall int8_range l -> digit_sum l < 0 ->
  digit_sum (raised l) = digit_sum l + 1 /\ Forall int8_range (raised l).
Proof.
  induction l as [|v l IH]; intros Hr Hneg; [unfold digit_sum in Hneg; simpl in Hneg; lia|].
  inversion Hr as [|? ? Hv Hl]; subst. rewrite digit_sum_cons in Hneg. simpl.
  destruct (v <? 13) eqn:Hcmp.
  - assert (Hin : int8_range (v + 1)) by (unfold int8_range in Hv |- *; lia).
    rewrite (int8_id _ Hin), !digit_sum_cons. split; [lia|]. constructor; assumption.
  - destruct IH as [Hsum Hrange]; [exact Hl | lia |].
    rewrite !digit_sum_cons. split; [lia|]. constructor; assumption.
Qed.

Lemma lowered_tryte l : Forall tryte_range l -> Forall tryte_range (lowered l).
Proof.
  induction 1 as [|v l Hv Hl IH]; simpl; [constructor|].
  destruct (v >? -13) eqn:Hcmp; constructor; try assumption.
  unfold tryte_range in Hv |- *.
  rewrite int8_id by (unfold int8_range; lia). lia.
Qed.

Lemma raised_tryte l : Forall tryte_range l -> Forall tryte_range (raised l).
Proof.
  induction 1 as [|v l Hv Hl IH]; simpl; [constructor|].
  destruct (v <? 13) eqn:Hcmp; constructor; try assumption.
  unfold tryte_range in Hv |- *.
  rewrite int8_id by (unfold int8_range; lia). lia.
Qed.

(** The loops over [j] work on the digits of the chunk only. *)
Lemma lower_first_spec n j i (P todo post : Trits) :
  length P = (i * 27 + j)%nat -> length todo = n ->
  signing.lower_first n j i (P ++ todo ++ post) = Returned (P ++ lowered todo ++ post).
Proof.
  revert j P todo. induction n as [|n IH]; intros j P todo HP Htodo.
  - destruct todo; [reflexivity | discriminate].
  - destruct todo as [|v rest]; [discriminate|]. simpl.
    rewrite (list_lookup_middle P (rest ++ post) v) by (symmetry; exact HP).
    destruct (v >? -13).
    + rewrite <- HP, <- (Nat.add_0_r (length P)), insert_app_r. reflexivity.
    + specialize (IH (S j) (P ++ [v]) rest).
      rewrite <- !app_assoc in IH. simpl in IH. apply IH.
      * rewrite length_app. simpl. lia.
      * simpl in Htodo. lia.
Qed.

Lemma raise_first_spec n j i (P todo post : Trits) :
  length P = (i * 27 + j)%nat -> length todo = n ->
  signing.raise_first n j i (P ++ todo ++ post) = Returned (P ++ raised todo ++ post).
Proof.
  revert j P todo. induction n as [|n IH]; intros j P todo HP Htodo.
  - destruct todo; [reflexivity | discriminate].
  - destruct todo as [|v rest]; [discriminate|]. simpl.
    rewrite (list_lookup_middle P (rest ++ post) v) by (symmetry; exact HP).
    destruct (v <? 13).
    + rewrite <- HP, <- (Nat.add_0_r (length P)), insert_app_r. reflexivity.
    + specialize (IH (S j) (P ++ [v]) rest).
      rewrite <- !app_assoc in IH. simpl in IH. apply IH.
      * rewrite length_app. simpl. lia.
      * simpl in Htodo. lia.
Qed.

Lemma repeat_rounds_S n round nb :
  signing.repeat_rounds (S n) round nb
  = outcome_bind (signing.repeat_rounds n round) (round nb).
Proof. reflexivity. Qed.

Lemma lowering_rounds n i (P chunk post : Trits) :
  length P = (i * 27)%nat -> length chunk = 27%nat ->
  Forall int8_range chunk -> digit_sum chunk = Z.of_nat n ->
  exists chunk',
    signing.repeat_rounds n (signing.lower_first 27 0 i) (P ++ chunk ++ post)
    = Returned (P ++ chunk' ++ post) /\
    length chunk' = 27%nat /\ digit_sum chunk' = 0 /\
    (Forall tryte_range chunk -> Forall tryte_range chunk').
Proof.
  revert chunk. induction n as [|n IH]; intros chunk HP Hlen Hr Hsum.
  - exists chunk. repeat split; auto.
  - rewrite repeat_rounds_S, lower_first_spec by (rewrite ?HP; lia).
    cbn [outcome_bind].
    destruct (lowered_sum chunk Hr) as [Hsum' Hr']; [lia|].
    destruct (IH (lowered chunk)) as (chunk' & Hrun & Hlen' & Hzero & Htryte); auto.
    { rewrite lowered_length. exact Hlen. }
    { lia. }
    exists chunk'. repeat split; auto using lowered_tryte.
Qed.

Lemma raising_rounds n i (P chunk post : Trits) :
  length P = (i * 27)%nat -> length chunk = 27%nat ->
  Forall int8_range chunk -> digit_sum chunk = - Z.of_nat n ->
  exists chunk',
    signing.repeat_rounds n (signing.raise_first 27 0 i) (P ++ chunk ++ post)
    = Returned (P ++ chunk' ++ post) /\
    length chunk' = 27%nat /\ digit_sum chunk' = 0 /\
    (Forall tryte_range chunk -> Forall tryte_range chunk').
Proof.
  revert chunk. induction n as [|n IH]; intros chunk HP Hlen Hr Hsum.
  - exists chunk. repeat split; auto.
  - rewrite repeat_rounds_S, raise_first_spec by (rewrite ?HP; lia).
    cbn [outcome_bind].
    destruct (raised_sum chunk Hr) as [Hsum' Hr']; [lia|].
    destruct (IH (raised chunk)) as (chunk' & Hrun & Hlen' & Hzero & Htryte); auto.
    { rewrite raised_length. exact Hlen. }
    { lia. }
    exists chunk'. repeat split; auto using raised_tryte.
Qed.

(** The loop that fills a chunk overwrites its digits and sums them up. *)
Lemma NormalizedBundleHash_fill_spec n j i bundleHash (P todo post : Trits) sum r :
  length P = (i * 27 + j)%nat -> length todo = n ->
  signing.NormalizedBundleHash_fill trinary n j i bundleHash (P ++ todo ++ post) sum
  = Returned r ->
  exists new,
    r = ((P ++ new ++ post)%list, sum + digit_sum new) /\
    length new = n /\ Forall int8_range new /\
    ((forall s trits, TrytesToTrits trinary s = Returned trits ->
                      tryte_range (TritsToInt trinary trits)) ->
     Forall tryte_range new).
Proof.
  revert j P todo sum. induction n as [|n IH]; intros j P todo sum HP Htodo Hrun.
  - destruct todo; [|discriminate]. simpl in Hrun. injection Hrun as <-.
    exists []. unfold digit_sum. simpl. rewrite Z.add_0_r. repeat split; constructor.
  - destruct todo as [|v0 rest]; [discriminate|]. simpl in Hrun.
    destruct (String.get _ _) as [b|]; [|discriminate].
    destruct (TrytesToTrits trinary _) as [trits|] eqn:Htrits; [|discriminate].
    simpl in Hrun. destruct (decide _); [|discriminate].
    rewrite <- HP, <- (Nat.add_0_r (length P)), insert_app_r in Hrun. simpl in Hrun.
    specialize (IH (S j) (P ++ [int8 (TritsToInt trinary trits)]) rest
                  (sum + int8 (TritsToInt trinary trits))).
    rewrite <- !app_assoc in IH. simpl in IH.
    destruct IH as (new & -> & Hlen & Hr & Htryte).
    { rewrite length_app. simpl. lia. }
    { simpl in Htodo. lia. }
    { exact Hrun. }
    exists (int8 (TritsToInt trinary trits) :: new).
    rewrite digit_sum_cons, <- !app_assoc. repeat split.
    + simpl. f_equal. lia.
    + simpl. lia.
    + constructor; [apply int8_in_range | exact Hr].
    + intros Hconv. constructor; [|apply Htryte, Hconv].
      pose proof (Hconv _ _ Htrits) as Hv.
      rewrite int8_id by (apply tryte_int8_range, Hv). exact Hv.
Qed.

Lemma NormalizedBundleHash_chunk_spec i bundleHash (P chunk post nb : Trits) :
  length P = (i * 27)%nat -> length chunk = 27%nat ->
  signing.NormalizedBundleHash_chunk trinary i bundleHash (P ++ chunk ++ post)
  = Returned nb ->
  exists chunk',
    nb = (P ++ chunk' ++ post)%list /\ length chunk' = 27%nat /\ digit_sum chunk' = 0 /\
    ((forall s trits, TrytesToTrits trinary s = Returned trits ->
                      tryte_range (TritsToInt trinary trits)) ->
     Forall tryte_range chunk').
Proof.
  intros HP Hlen Hrun. unfold signing.NormalizedBundleHash_chunk in Hrun.
  destruct (signing.NormalizedBundleHash_fill trinary 27 0 i bundleHash _ 0)
    as [r|] eqn:Hfill; [|discriminate].
  apply NormalizedBundleHash_fill_spec in Hfill; [|lia|exact Hlen].
  destruct Hfill as (new & -> & Hnew & Hr & Htryte).
  unfold mbind, signing.outcome_mbind in Hrun. cbn [outcome_bind] in Hrun.
  cbv beta iota in Hrun.
  destruct (0 + digit_sum new >=? 0) eqn:Hsign.
  - destruct (lowering_rounds (Z.to_nat (0 + digit_sum new)) i P new post)
      as (chunk' & Hrounds & Hlen' & Hzero & Htryte'); auto; [lia|].
    rewrite Hrounds in Hrun. injection Hrun as <-.
    exists chunk'. repeat split; auto.
  - destruct (raising_rounds (Z.to_nat (- (0 + digit_sum new))) i P new post)
      as (chunk' & Hrounds & Hlen' & Hzero & Htryte'); auto; [lia|].
    rewrite Hrounds in Hrun. injection Hrun as <-.
    exists chunk'. repeat split; auto.
Qed.

(** X17.  When [NormalizedBundleHash] returns, the digits it returns are
    three chunks of 27 digits, each summing to zero, followed by 162 zeros;
    and when trinary converts a tryte to a value between -13 and 13 every
    digit lies between -13 and 13. *)
Theorem NormalizedBundleHash_chunks_sum_to_zero (bundleHash : Hash) (nb : Trits) :
  signing.NormalizedBundleHash trinary bundleHash = Returned nb ->
  exists c0 c1 c2,
    nb = (c0 ++ c1 ++ c2 ++ replicate 162 0)%list /\
    (length c0 = 27 /\ length c1 = 27 /\ length c2 = 27)%nat /\
    digit_sum c0 = 0 /\ digit_sum c1 = 0 /\ digit_sum c2 = 0 /\
    ((forall s trits, TrytesToTrits trinary s = Returned trits ->
                      tryte_range (TritsToInt trinary trits)) ->
     Forall tryte_range nb).
Proof.
  intros Hrun. unfold signing.NormalizedBundleHash in Hrun. simpl in Hrun.
  destruct (signing.NormalizedBundleHash_chunk trinary 0 bundleHash _) as [nb0|] eqn:H0;
    [|discriminate].
  simpl in Hrun.
  destruct (signing.NormalizedBundleHash_chunk trinary 1 bundleHash nb0) as [nb1|] eqn:H1;
    [|discriminate].
  simpl in Hrun.
  destruct (signing.NormalizedBundleHash_chunk trinary 2 bundleHash nb1) as [nb2|] eqn:H2;
    [|discriminate].
  simpl in Hrun. injection Hrun as <-.
  apply (NormalizedBundleHash_chunk_spec 0 bundleHash [] (replicate 27 0)
           (replicate 216 0)) in H0; [|reflexivity..].
  destruct H0 as (c0 & -> & Hl0 & Hs0 & Ht0). simpl in H1.
  apply (NormalizedBundleHash_chunk_spec 1 bundleHash c0 (replicate 27 0)
           (replicate 189 0)) in H1; [|lia|reflexivity].
  destruct H1 as (c1 & -> & Hl1 & Hs1 & Ht1).
  rewrite (app_assoc c0 c1) in H2.
  apply (NormalizedBundleHash_chunk_spec 2 bundleHash (c0 ++ c1) (replicate 27 0)
           (replicate 162 0)) in H2; [|rewrite length_app; lia|reflexivity].
  destruct H2 as (c2 & -> & Hl2 & Hs2 & Ht2).
  exists c0, c1, c2. rewrite <- app_assoc. repeat split; auto.
  intros Hconv. repeat (apply Forall_app; split); auto.
  apply Forall_replicate. unfold tryte_range. lia.
Qed.

(** *** Addresses *)

Lemma append_cons (x : Ascii.ascii) (a b : string) :
  String.append (String x a) b = String x (String.append a b).
Proof. reflexivity. Qed.

Lemma append_assoc (a b c : string) :
  String.append (String.append a b) c = String.append a (String.append b c).
Proof.
  induction a as [|x a IH]; [reflexivity|]. rewrite !append_cons, IH. reflexivity.
Qed.

Lemma append_empty (a : string) : String.append a "" = a.
Proof. induction a as [|x a IH]; [reflexivity|]. rewrite append_cons, IH. reflexivity. Qed.

Lemma length_append (a b : string) :
  String.length (String.append a b) = (String.length a + String.length b)%nat.
Proof.
  induction a as [|x a IH]; [reflexivity|]. rewrite append_cons. simpl. rewrite IH.
  reflexivity.
Qed.

Lemma length_filler n : String.length (filler n) = n.
Proof.
  induction n as [|n IH]; [reflexivity|].
  change (filler (S n)) with (String.append "9" (filler n)).
  rewrite length_append, IH. reflexivity.
Qed.

Lemma pad_S fuel seed :
  address.pad (S fuel) seed
  = if (String.length seed mod 81 =? 0)%nat then seed
    else address.pad fuel (String.append seed "9").
Proof. reflexivity. Qed.

Lemma mod_81_bound n : (n mod 81 < 81)%nat.
Proof. apply Nat.mod_upper_bound. discriminate. Qed.

Lemma missing_small m : (0 < m < 81)%nat -> ((81 - m) mod 81 = 81 - m)%nat.
Proof. intros H. apply Nat.mod_small. lia. Qed.

Lemma missing_zero : ((81 - 0) mod 81 = 0)%nat.
Proof. reflexivity. Qed.

Lemma length_snoc_mod seed :
  (String.length (String.append seed "9") mod 81
   = if decide (String.length seed mod 81 = 80)%nat then 0
     else String.length seed mod 81 + 1)%nat.
Proof.
  rewrite length_append. change (String.length "9") with 1%nat.
  rewrite <- Nat.Div0.add_mod_idemp_l. pose proof (mod_81_bound (String.length seed)).
  destruct (decide _) as [->|]; [reflexivity|]. apply Nat.mod_small. lia.
Qed.

(** The padding loop ends within 80 rounds. *)
Lemma pad_spec fuel seed :
  ((81 - String.length seed mod 81) mod 81 <= fuel)%nat ->
  address.pad fuel seed = padded seed.
Proof.
  unfold padded. revert seed. induction fuel as [|fuel IH]; intros seed Hfuel.
  - replace ((81 - String.length seed mod 81) mod 81)%nat with 0%nat by lia.
    rewrite append_empty. reflexivity.
  - rewrite pad_S. pose proof (mod_81_bound (String.length seed)) as Hm.
    destruct (Nat.eqb_spec (String.length seed mod 81) 0) as [Hmod|Hmod].
    + rewrite Hmod, missing_zero, append_empty. reflexivity.
    + rewrite missing_small in Hfuel |- * by lia.
      rewrite IH; rewrite length_snoc_mod.
      * rewrite append_assoc. f_equal.
        destruct (decide _) as [Heq|Hne].
        { rewrite missing_zero, Heq. reflexivity. }
        rewrite missing_small by lia.
        replace (81 - String.length seed mod 81)%nat
          with (S (81 - (String.length seed mod 81 + 1)))%nat by lia.
        reflexivity.
      * destruct (decide _) as [Heq|Hne]; [rewrite missing_zero; lia|].
        rewrite missing_small by lia. lia.
Qed.

Lemma pad_padded seed : address.pad 81 seed = padded seed.
Proof.
  apply pad_spec. pose proof (mod_81_bound (81 - String.length seed mod 81)). lia.
Qed.

Lemma padded_length seed : (String.length (padded seed) mod 81 = 0)%nat.
Proof.
  unfold padded. rewrite length_append, length_filler.
  pose proof (mod_81_bound (String.length seed)) as Hm.
  destruct (decide (String.length seed mod 81 = 0)%nat) as [Heq|Hne].
  - rewrite Heq, missing_zero, Nat.add_0_r. exact Heq.
  - rewrite missing_small by lia.
    rewrite (Nat.div_mod_eq (String.length seed) 81) at 1.
    replace (81 * (String.length seed / 81) + String.length seed mod 81
             + (81 - String.length seed mod 81))%nat
      with ((String.length seed / 81 + 1) * 81)%nat by lia.
    apply Nat.Div0.mod_mul.
Qed.

Lemma padded_idem seed : padded (padded seed) = padded seed.
Proof.
  unfold padded at 1. rewrite padded_length, missing_zero. apply append_empty.
Qed.

Lemma level_used_idem secLvl : level_used (level_used secLvl) = level_used secLvl.
Proof. unfold level_used. destruct (secLvl =? 0) eqn:H; [reflexivity | rewrite H; reflexivity]. Qed.

(** X18.  [GenerateAddress] pads the seed with nines up to the next multiple
    of 81 trytes and takes the security level 0 for the medium level: a seed
    and the seed padded by hand give the same address, and so do the levels 0
    and 2. *)
Theorem GenerateAddress_pads_seed (seed : Trytes) (index secLvl : Z) (flags : list bool) :
  address.GenerateAddress trinary kerl AddChecksum seed index secLvl flags
  = address.GenerateAddress trinary kerl AddChecksum (padded seed) index (level_used secLvl)
      flags.
Proof.
  unfold address.GenerateAddress. rewrite !pad_padded, padded_idem.
  assert (Hlevel : forall l, (if l =? 0 then signing.SecurityLevelMedium else l)
                             = level_used l) by reflexivity.
  rewrite !Hlevel, level_used_idem. reflexivity.
Qed.

(** X19.  The padded seed must be 81 trytes long: when trinary accepts the
    padded seed, [GenerateAddress] rejects the empty seed and every seed of
    more than 81 trytes with [ErrSeedTrytesLength], before anything is
    hashed. *)
Theorem GenerateAddress_rejects_seed_length (seed : Trytes) (index secLvl : Z)
    (flags : list bool) :
  ValidTrytes trinary (padded seed) = None ->
  (String.length seed = 0 \/ 81 < String.length seed)%nat ->
  address.GenerateAddress trinary kerl AddChecksum seed index secLvl flags
  = Returned ("", Some ErrSeedTrytesLength).
Proof.
  intros Hvalid Hlen. unfold address.GenerateAddress. rewrite pad_padded.
  unfold signing.Subseed. rewrite Hvalid.
  assert (Hne : String.length (padded seed) <> 81%nat).
  { unfold padded. rewrite length_append, length_filler.
    destruct Hlen as [Hlen|Hlen]; [rewrite Hlen; change (0 mod 81)%nat with 0%nat | lia].
    rewrite missing_zero. lia. }
  assert (Hcmp : (Z.of_nat (String.length (padded seed))
                  =? signing.TritHashLength / signing.Radix) = false).
  { apply Z.eqb_neq. unfold signing.TritHashLength, signing.Radix.
    change (243 / 3) with 81. lia. }
  rewrite Hcmp. reflexivity.
Qed.

Lemma GenerateAddresses_loop_S n i seed start secLvl withChecksum addresses :
  address.GenerateAddresses_loop trinary kerl AddChecksum (S n) i seed start secLvl
    withChecksum addresses
  = outcome_bind
      (fun r : Hash * option pkg_error =>
         let '(addr, err) := r in
         if decide (Z.to_nat i < length addresses)%nat
         then
           match err with
           | Some err => Returned ([], Some err)
           | None =>
               address.GenerateAddresses_loop trinary kerl AddChecksum n (i + 1) seed start
                 secLvl withChecksum (<[Z.to_nat i := addr]> addresses)
           end
         else Panicked index_range)
      (address.GenerateAddress trinary kerl AddChecksum seed (wrap64 (start + i)) secLvl
         [withChecksum]).
Proof. reflexivity. Qed.

Lemma GenerateAddresses_loop_spec n i seed start secLvl withChecksum addresses r :
  0 <= i -> (Z.to_nat i + n)%nat = length addresses ->
  address.GenerateAddresses_loop trinary kerl AddChecksum n i seed start secLvl withChecksum
    addresses = Returned r ->
  (exists new,
     r = (take (Z.to_nat i) addresses ++ new, None) /\ length new = n /\
     forall k a, new !! k = Some a ->
       address.GenerateAddress trinary kerl AddChecksum seed
         (wrap64 (start + (i + Z.of_nat k))) secLvl [withChecksum] = Returned (a, None)) \/
  (exists k a err,
     (k < n)%nat /\ r = ([], Some err) /\
     address.GenerateAddress trinary kerl AddChecksum seed
       (wrap64 (start + (i + Z.of_nat k))) secLvl [withChecksum] = Returned (a, Some err) /\
     forall k', (k' < k)%nat ->
       exists a',
         address.GenerateAddress trinary kerl AddChecksum seed
           (wrap64 (start + (i + Z.of_nat k'))) secLvl [withChecksum] = Returned (a', None)).
Proof.
  revert i addresses. induction n as [|n IH]; intros i addresses Hi Hlen Hrun.
  - simpl in Hrun. injection Hrun as <-. left. exists [].
    rewrite app_nil_r, firstn_all2 by lia. repeat split. intros k a Hk. inversion Hk.
  - rewrite GenerateAddresses_loop_S in Hrun.
    destruct (address.GenerateAddress trinary kerl AddChecksum seed (wrap64 (start + i))
                secLvl [withChecksum]) as [[addr err]|] eqn:Hfirst; [|discriminate].
    cbn [outcome_bind] in Hrun. destruct (decide _) as [Hlt|]; [|discriminate].
    destruct err as [err|].
    + injection Hrun as <-. right. exists 0%nat, addr, err.
      rewrite Z.add_0_r. repeat split; [lia | exact Hfirst | intros k' Hk'; lia].
    + apply IH in Hrun; [|lia|rewrite length_insert; lia].
      replace (Z.to_nat (i + 1)) with (S (Z.to_nat i)) in Hrun by lia.
      destruct Hrun as [(new & -> & Hnew & Hall)|(k & a & err & Hk & -> & Hfail & Hbefore)].
      * left. exists (addr :: new). split; [|split].
        -- f_equal. rewrite (take_S_r _ _ addr) by (apply list_lookup_insert_eq; exact Hlt).
           rewrite take_insert_ge by lia. rewrite <- app_assoc. reflexivity.
        -- simpl. lia.
        -- intros [|k] a Hk; simpl in Hk.
           ++ injection Hk as <-. rewrite Z.add_0_r. exact Hfirst.
           ++ replace (i + Z.of_nat (S k)) with (i + 1 + Z.of_nat k) by lia.
              apply Hall, Hk.
      * right. exists (S k), a, err. repeat split; [lia | |].
        -- replace (i + Z.of_nat (S k)) with (i + 1 + Z.of_nat k) by lia. exact Hfail.
        -- intros [|k'] Hk'.
           ++ exists addr. rewrite Z.add_0_r. exact Hfirst.
           ++ replace (i + Z.of_nat (S k')) with (i + 1 + Z.of_nat k') by lia.
              apply Hbefore. lia.
Qed.

Lemma GenerateAddresses_loop_returns n i seed start secLvl withChecksum addresses :
  0 <= i -> (Z.to_nat i + n)%nat = length addresses ->
  (forall k, (k < n)%nat ->
     exists a,
       address.GenerateAddress trinary kerl AddChecksum seed
         (wrap64 (start + (i + Z.of_nat k))) secLvl [withChecksum] = Returned (a, None)) ->
  exists hs,
    address.GenerateAddresses_loop trinary kerl AddChecksum n i seed start secLvl
      withChecksum addresses = Returned (hs, None).
Proof.
  revert i addresses. induction n as [|n IH]; intros i addresses Hi Hlen Hall.
  - eexists. reflexivity.
  - rewrite GenerateAddresses_loop_S.
    destruct (Hall 0%nat) as (a & Hfirst); [lia|]. rewrite Z.add_0_r in Hfirst.
    rewrite Hfirst. cbn [outcome_bind]. rewrite decide_True by lia.
    apply IH; [lia | rewrite length_insert; lia |].
    intros k Hk. destruct (Hall (S k)) as (a' & Ha'); [lia|].
    exists a'. replace (i + 1 + Z.of_nat k) with (i + Z.of_nat (S k)) by lia. exact Ha'.
Qed.

(** X20.  [GenerateAddresses] is all or nothing.  When it returns addresses
    there are [count] of them, and the one at position [k] is what
    [GenerateAddress] returns for the index [start + k] modulo 2^64, with the
    checksum when the first flag asks for it; when it returns an error, it
    returns no address, the error is the one of the first index at which
    [GenerateAddress] fails, and the indices before it gave an address.  It
    returns addresses whenever [GenerateAddress] does so at every index. *)
Theorem GenerateAddresses_all_or_nothing (seed : Trytes) (start count secLvl : Z)
    (flags : list bool) :
  0 <= count < 2 ^ 63 ->
  (forall hs,
     address.GenerateAddresses trinary kerl AddChecksum seed start count secLvl flags
     = Returned (hs, None) ->
     length hs = Z.to_nat count /\
     forall k a, hs !! k = Some a ->
       address.GenerateAddress trinary kerl AddChecksum seed (wrap64 (start + Z.of_nat k))
         secLvl [first_flag flags] = Returned (a, None)) /\
  (forall hs err,
     address.GenerateAddresses trinary kerl AddChecksum seed start count secLvl flags
     = Returned (hs, Some err) ->
     hs = [] /\
     exists k a,
       (k < Z.to_nat count)%nat /\
       address.GenerateAddress trinary kerl AddChecksum seed (wrap64 (start + Z.of_nat k))
         secLvl [first_flag flags] = Returned (a, Some err) /\
       forall k', (k' < k)%nat ->
         exists a',
           address.GenerateAddress trinary kerl AddChecksum seed
             (wrap64 (start + Z.of_nat k')) secLvl [first_flag flags] = Returned (a', None)) /\
  ((forall k, (k < Z.to_nat count)%nat ->
      exists a,
        address.GenerateAddress trinary kerl AddChecksum seed (wrap64 (start + Z.of_nat k))
          secLvl [first_flag flags] = Returned (a, None)) ->
   exists hs,
     address.GenerateAddresses trinary kerl AddChecksum seed start count secLvl flags
     = Returned (hs, None)).
Proof.
  intros Hcount. unfold address.GenerateAddresses.
  assert (Hcmp : (count >=? 2 ^ 63) = false) by lia. rewrite Hcmp.
  fold (first_flag flags). cbv zeta.
  split; [|split].
  - intros hs Hrun.
    apply GenerateAddresses_loop_spec in Hrun; [|lia|rewrite length_replicate; lia].
    destruct Hrun as [(new & Heq & Hnew & Hall)|(k & a & err & _ & Heq & _)];
      [|discriminate].
    injection Heq as ->. simpl. split; [exact Hnew|].
    intros k a Hk. apply Hall in Hk. exact Hk.
  - intros hs err Hrun.
    apply GenerateAddresses_loop_spec in Hrun; [|lia|rewrite length_replicate; lia].
    destruct Hrun as [(new & Heq & _)|(k & a & err' & Hk & Heq & Hfail & Hbefore)];
      [discriminate|].
    injection Heq as -> <-. split; [reflexivity|].
    exists k, a. repeat split; [exact Hk | exact Hfail | exact Hbefore].
  - intros Hall. apply GenerateAddresses_loop_returns;
      [lia | rewrite length_replicate; lia | exact Hall].
Qed.

(** *** Checksums *)

Lemma substring_append n m (a b : string) :
  (n + m <= String.length a)%nat ->
  String.substring n m (String.append a b) = String.substring n m a.
Proof.
  revert n m. induction a as [|c a IH]; intros n m Hlen; simpl in Hlen.
  - destruct n, m; try lia. destruct b; reflexivity.
  - rewrite append_cons. destruct n as [|n]; simpl.
    + destruct m as [|m]; [reflexivity|]. rewrite IH by lia. reflexivity.
    + apply IH. lia.
Qed.

Lemma substring_prefix n m k (s : string) :
  (n + m <= k)%nat ->
  String.substring n m (String.substring 0 k s) = String.substring n m s.
Proof.
  revert n m k. induction s as [|c s IH]; intros n m k Hk.
  - destruct k; reflexivity.
  - destruct k as [|k]; [destruct n, m; try lia; reflexivity|]. simpl.
    destruct n as [|n]; simpl.
    + destruct m as [|m]; [reflexivity|]. rewrite IH by lia. reflexivity.
    + apply IH. lia.
Qed.

Lemma length_substring_prefix k (s : string) :
  (k <= String.length s)%nat -> String.length (String.substring 0 k s) = k.
Proof.
  revert k. induction s as [|c s IH]; intros k Hk; simpl in Hk.
  - destruct k; [reflexivity | lia].
  - destruct k as [|k]; [reflexivity|]. simpl. rewrite IH by lia. reflexivity.
Qed.

(** X21.  When [checksum.AddChecksum] returns its input followed by the
    checksum, [Checksum] of an address of at least 81 trytes does not return
    the checksum: it returns the trytes 72 to 80 of the address itself, and
    [ValidChecksum] accepts exactly that part of the address as checksum.  An
    address of less than 81 trytes is rejected with
    [ErrInvalidAddressLength]. *)
Theorem Checksum_returns_end_of_address (addr : Hash) :
  (forall a r, AddChecksum a true 9 = (r, None) -> exists cs, r = String.append a cs) ->
  ((String.length addr < 81)%nat ->
   address.Checksum AddChecksum addr = Returned ("", Some ErrInvalidAddressLength)) /\
  (forall r,
     (81 <= String.length addr)%nat ->
     AddChecksum (String.substring 0 81 addr) true 9 = (r, None) ->
     address.Checksum AddChecksum addr = Returned (String.substring 72 9 addr, None) /\
     forall checksum,
       address.ValidChecksum AddChecksum addr checksum
       = Returned (if String.eqb checksum (String.substring 72 9 addr) then None
                   else Some ErrInvalidChecksum)).
Proof.
  intros Happends. split.
  - intros Hshort. unfold address.Checksum.
    assert (Hcmp : (String.length addr <? 81)%nat = true) by (apply Nat.ltb_lt; exact Hshort).
    rewrite Hcmp. reflexivity.
  - intros r Hlong Hadd.
    assert (Hsum : address.Checksum AddChecksum addr
                   = Returned (String.substring 72 9 addr, None)).
    { unfold address.Checksum.
      assert (Hcmp : (String.length addr <? 81)%nat = false) by (apply Nat.ltb_ge; exact Hlong).
      rewrite Hcmp, Hadd. destruct (Happends _ _ Hadd) as (cs & ->).
      assert (Hlen : (81 <=? String.length
                               (String.append (String.substring 0 81 addr) cs))%nat = true).
      { apply Nat.leb_le. rewrite length_append, length_substring_prefix by exact Hlong. lia. }
      rewrite Hlen. change (81 - 9)%nat with 72%nat.
      rewrite substring_append by (rewrite length_substring_prefix by exact Hlong; lia).
      rewrite substring_prefix by lia. reflexivity. }
    split; [exact Hsum|]. intros checksum. unfold address.ValidChecksum. rewrite Hsum.
    simpl. destruct (String.eqb _ _); reflexivity.
Qed.

(** *** Key fragments, signature fragments and digests *)

Lemma copy_same (dst src : Trits) : length dst = length src -> copy dst src = src.
Proof.
  intros H. unfold copy. rewrite H, firstn_all, <- H, drop_all, app_nil_r. reflexivity.
Qed.


Lemma slice_middle (P seg post : Trits) lo hi :
  length P = lo -> (lo + length seg)%nat = hi ->
  slice (P ++ seg ++ post) lo hi = Returned seg.
Proof.
  intros <- <-. unfold slice. rewrite decide_True by (rewrite !length_app; lia).
  rewrite drop_app_length.
  replace (length P + length seg - length P)%nat with (length seg) by lia.
  rewrite take_app_length. reflexivity.
Qed.

Lemma put_each_S n k off dst src :
  put_each (S n) k off dst src
  = match src !! k with
    | None => Panicked index_range
    | Some v =>
        if decide (off + k < length dst)%nat
        then put_each n (S k) off (<[(off + k)%nat := v]> dst) src
        else Panicked index_range
    end.
Proof. reflexivity. Qed.

Lemma put_each_from n k off (P done old post src : Trits) :
  length P = off -> length done = k -> length old = n -> (k + n <= length src)%nat ->
  put_each n k off (P ++ done ++ old ++ post) src
  = Returned (P ++ done ++ take n (drop k src) ++ post).
Proof.
  revert k done old. induction n as [|n IH]; intros k done old HP Hdone Hold Hsrc.
  - destruct old; [reflexivity | discriminate].
  - destruct old as [|o old]; [discriminate|]. rewrite put_each_S.
    destruct (lookup_lt_is_Some_2 src k) as [v Hv]; [lia|]. rewrite Hv.
    rewrite decide_True by (rewrite !length_app; simpl; lia).
    rewrite (app_assoc P done).
    replace (off + k)%nat with (length (P ++ done) + 0)%nat
      by (rewrite length_app; lia).
    rewrite insert_app_r. simpl (<[0%nat:=v]> _).
    rewrite <- app_assoc.
    replace (P ++ done ++ v :: old ++ post) with (P ++ (done ++ [v]) ++ old ++ post)
      by (rewrite <- (app_assoc done); reflexivity).
    rewrite IH; [|exact HP|rewrite length_app; simpl; lia|simpl in Hold; lia|lia].
    rewrite (drop_S src v k Hv). simpl. rewrite <- (app_assoc done). reflexivity.
Qed.

Lemma put_each_middle n off (P old post src : Trits) :
  length P = off -> length old = n -> length src = n ->
  put_each n 0 off (P ++ old ++ post) src = Returned (P ++ src ++ post).
Proof.
  intros HP Hold Hsrc.
  pose proof (put_each_from n 0 off P [] old post src HP eq_refl Hold) as H.
  simpl in H. rewrite H by lia. rewrite <- Hsrc, firstn_all. reflexivity.
Qed.

Lemma squeezed (k : sponge kerl) :
  never_fails kerl ->
  Squeeze kerl k 243 = ((Squeeze kerl k 243).1.1, None, (Squeeze kerl k 243).2).
Proof.
  intros (_ & Hsq & _). specialize (Hsq k).
  destruct (Squeeze kerl k 243) as [[out err] k']. simpl in Hsq |- *. rewrite Hsq.
  reflexivity.
Qed.

Lemma absorbed (k : sponge kerl) (t : Trits) :
  never_fails kerl -> (length t mod 243 = 0)%nat ->
  Absorb kerl k t = ((Absorb kerl k t).1, None).
Proof.
  intros (Habs & _) Hlen. specialize (Habs k t Hlen).
  destruct (Absorb kerl k t) as [k' err]. simpl in Habs |- *. rewrite Habs. reflexivity.
Qed.

Lemma hashed_length (buf : Trits) : never_fails kerl -> length (hashed kerl buf) = 243%nat.
Proof. intros (_ & _ & Hlen). apply Hlen. Qed.

Lemma iter_hashed_length n (buf : Trits) :
  never_fails kerl -> length buf = 243%nat ->
  length (Nat.iter n (hashed kerl) buf) = 243%nat.
Proof.
  intros Hnf Hbuf. destruct n as [|n]; [exact Hbuf|]. simpl. apply hashed_length, Hnf.
Qed.

Lemma block_length (t : Trits) : length t = 243%nat -> (length t mod 243 = 0)%nat.
Proof. intros ->. reflexivity. Qed.

Lemma Digests_rounds_spec n (buf : Trits) :
  never_fails kerl ->
  signing.Digests_rounds kerl n buf = (Nat.iter n (hashed kerl) buf, None).
Proof.
  intros Hnf. revert buf. induction n as [|n IH]; intros buf; [reflexivity|].
  rewrite Nat.iter_succ_r, <- IH. cbn [signing.Digests_rounds].
  unfold hashed, signing.HashSize.
  destruct (Absorb kerl (NewKerl kerl) buf) as [k e]. cbn [fst].
  rewrite (squeezed k Hnf). reflexivity.
Qed.

Lemma Digest_rounds_spec n (buf : Trits) :
  never_fails kerl -> length buf = 243%nat ->
  signing.Digest_rounds kerl n buf = (Nat.iter n (hashed kerl) buf, None).
Proof.
  intros Hnf. revert buf. induction n as [|n IH]; intros buf Hbuf; [reflexivity|].
  rewrite Nat.iter_succ_r, <- IH by (apply hashed_length, Hnf).
  cbn [signing.Digest_rounds]. unfold hashed, signing.HashSize.
  rewrite (absorbed _ buf Hnf (block_length _ Hbuf)).
  rewrite (squeezed _ Hnf). reflexivity.
Qed.

Lemma SignatureFragment_rounds_spec n (k : sponge kerl) (hash : Trits) :
  never_fails kerl -> resets kerl -> length hash = 243%nat ->
  exists k',
    signing.SignatureFragment_rounds kerl n k hash
    = (Nat.iter n (hashed kerl) hash, None, k').
Proof.
  intros Hnf Hreset. revert k hash. induction n as [|n IH]; intros k hash Hhash.
  - exists k. reflexivity.
  - rewrite Nat.iter_succ_r. cbn [signing.SignatureFragment_rounds].
    rewrite Hreset, (absorbed _ hash Hnf (block_length _ Hhash)), (squeezed _ Hnf).
    apply IH. apply Hnf.
Qed.

Lemma digits_cons (l : Trits) n i v vs :
  take (S n) (drop i l) = v :: vs -> l !! i = Some v /\ take n (drop (S i) l) = vs.
Proof.
  intros H. assert (Hv : l !! i = Some v).
  { rewrite <- (Nat.add_0_r i), <- lookup_drop. destruct (drop i l); [discriminate|].
    simpl in H |- *. congruence. }
  split; [exact Hv|]. rewrite (drop_S l v i Hv) in H. simpl in H. congruence.
Qed.

Lemma segments_concat n (l : Trits) :
  length l = (n * 243)%nat ->
  l = concat (segments n l) /\ length (segments n l) = n /\
  Forall (fun s : Trits => length s = 243%nat) (segments n l).
Proof.
  revert l. induction n as [|n IH]; intros l Hl.
  - destruct l; [|discriminate]. repeat split. constructor.
  - cbn [segments concat].
    destruct (IH (drop 243 l)) as (Heq & Hlen & Hall); [rewrite length_drop; lia|].
    rewrite <- Heq, take_drop. repeat split; [simpl; lia|].
    constructor; [rewrite length_take; lia | exact Hall].
Qed.

Lemma SignatureFragment_segments_spec (nbf : Trits) n :
  never_fails kerl -> resets kerl ->
  forall i (P : Trits) (segs : list Trits) (vs : Trits) (k : sponge kerl),
    length P = (i * 243)%nat -> length segs = n ->
    Forall (fun s : Trits => length s = 243%nat) segs ->
    take n (drop i nbf) = vs -> length vs = n -> Forall tryte_range vs ->
    signing.SignatureFragment_segments kerl n i nbf k (P ++ concat segs)
    = Returned
        (P ++ concat (zip_with (fun v s => Nat.iter (Z.to_nat (13 - v)) (hashed kerl) s)
                        vs segs), None).
Proof.
  intros Hnf Hreset. induction n as [|n IH];
    intros i P segs vs k HP Hsegs Hall Hvs Hlen Hrange.
  - destruct segs; [|discriminate]. destruct vs; [|discriminate]. reflexivity.
  - destruct segs as [|s segs]; [discriminate|]. destruct vs as [|v vs]; [discriminate|].
    inversion Hall as [|? ? Hs Hall']; subst.
    inversion Hrange as [|? ? Hv Hrange']; subst.
    apply digits_cons in Hvs. destruct Hvs as [Hdigit Hvs].
    cbn [signing.SignatureFragment_segments concat zip_with].
    rewrite (slice_middle P s (concat segs)) by lia.
    unfold mbind, signing.outcome_mbind. cbn [outcome_bind]. rewrite Hdigit.
    rewrite int8_id by (unfold tryte_range in Hv; unfold int8_range; lia).
    destruct (SignatureFragment_rounds_spec (Z.to_nat (13 - v)) k s Hnf Hreset Hs)
      as (k' & ->).
    rewrite (put_each_middle 243 (i * 243) P s (concat segs))
      by (auto using iter_hashed_length).
    cbn [outcome_bind]. rewrite (app_assoc P).
    rewrite (IH (S i) _ segs vs k'); auto;
      try (rewrite <- app_assoc; reflexivity);
      try (rewrite length_app, iter_hashed_length by auto; lia);
      try (simpl in Hsegs; lia); try (simpl in Hlen; lia).
Qed.

Lemma Digest_segments_spec (nbf : Trits) n :
  never_fails kerl ->
  forall i (P : Trits) (segs : list Trits) (vs : Trits) (k : sponge kerl) (buf : Trits),
    length P = (i * 243)%nat -> length segs = n ->
    Forall (fun s : Trits => length s = 243%nat) segs ->
    take n (drop i nbf) = vs -> length vs = n -> Forall tryte_range vs ->
    length buf = 243%nat ->
    signing.Digest_segments kerl n i nbf (P ++ concat segs) k buf
    = Returned
        (Squeeze kerl
           (fold_left (fun k b => (Absorb kerl k b).1)
              (zip_with (fun v s => Nat.iter (Z.to_nat (v + 13)) (hashed kerl) s) vs segs)
              k) 243).1.
Proof.
  intros Hnf. induction n as [|n IH];
    intros i P segs vs k buf HP Hsegs Hall Hvs Hlen Hrange Hbuf.
  - destruct segs; [|discriminate]. destruct vs; [|discriminate]. reflexivity.
  - destruct segs as [|s segs]; [discriminate|]. destruct vs as [|v vs]; [discriminate|].
    inversion Hall as [|? ? Hs Hall']; subst.
    inversion Hrange as [|? ? Hv Hrange']; subst.
    apply digits_cons in Hvs. destruct Hvs as [Hdigit Hvs].
    cbn [signing.Digest_segments concat zip_with fold_left].
    rewrite (slice_middle P s (concat segs)) by lia.
    unfold mbind, signing.outcome_mbind. cbn [outcome_bind]. rewrite Hdigit.
    rewrite (copy_same buf s) by lia.
    rewrite int8_id by (unfold tryte_range in Hv; unfold int8_range; lia).
    rewrite Digest_rounds_spec by auto.
    rewrite (absorbed k _ Hnf) by (apply block_length, iter_hashed_length; auto).
    rewrite (app_assoc P).
    apply IH; auto;
      try (rewrite length_app; lia);
      try (simpl in Hsegs; lia); try (simpl in Hlen; lia);
      try (apply iter_hashed_length; auto).
Qed.

Lemma Digests_segments_spec n :
  never_fails kerl ->
  forall j (P : Trits) (segs : list Trits) (buf : Trits),
    length P = (j * 243)%nat -> length segs = n ->
    Forall (fun s : Trits => length s = 243%nat) segs -> length buf = 243%nat ->
    exists buf',
      signing.Digests_segments kerl n j (P ++ concat segs) buf
      = Returned (P ++ concat (Nat.iter 26 (hashed kerl) <$> segs), buf', None) /\
      length buf' = 243%nat.
Proof.
  intros Hnf. induction n as [|n IH]; intros j P segs buf HP Hsegs Hall Hbuf.
  - destruct segs; [|discriminate]. exists buf. split; [reflexivity | exact Hbuf].
  - destruct segs as [|s segs]; [discriminate|].
    inversion Hall as [|? ? Hs Hall']; subst.
    cbn [signing.Digests_segments concat fmap list_fmap].
    rewrite (slice_middle P s (concat segs)) by lia.
    unfold mbind, signing.outcome_mbind. cbn [outcome_bind].
    rewrite (copy_same buf s) by lia.
    rewrite Digests_rounds_spec by auto.
    rewrite (put_each_middle 243 (j * 243) P s (concat segs))
      by (auto using iter_hashed_length).
    cbn [outcome_bind]. rewrite (app_assoc P).
    destruct (IH (S j) (P ++ Nat.iter 26 (hashed kerl) s) segs
                (Nat.iter 26 (hashed kerl) s)) as (buf' & -> & Hbuf'); auto;
      try (rewrite length_app, iter_hashed_length by auto; lia);
      try (simpl in Hsegs; lia); try (apply iter_hashed_length; auto).
    exists buf'. rewrite <- app_assoc. split; [reflexivity | exact Hbuf'].
Qed.

Lemma concat_length (l : list Trits) :
  Forall (fun s : Trits => length s = 243%nat) l -> length (concat l) = (length l * 243)%nat.
Proof.
  induction 1 as [|s l Hs Hl IH]; [reflexivity|].
  cbn [concat length]. rewrite length_app, IH, Hs. lia.
Qed.

Lemma slice_all (l : Trits) n : n = length l -> slice l 0 n = Returned l.
Proof.
  intros ->. pose proof (slice_middle [] l [] 0 (length l) eq_refl eq_refl) as H.
  simpl in H. rewrite app_nil_r in H. exact H.
Qed.

Lemma hashed_segments_shape (keyFragment : Trits) :
  never_fails kerl -> length keyFragment = signing.KeyFragmentLength ->
  length (hashed_segments kerl keyFragment) = 27%nat /\
  Forall (fun s : Trits => length s = 243%nat) (hashed_segments kerl keyFragment).
Proof.
  intros Hnf Hlen. destruct (segments_concat 27 keyFragment Hlen) as (_ & Hsegs & Hall).
  unfold hashed_segments. rewrite length_fmap. split; [exact Hsegs|].
  apply Forall_fmap. eapply Forall_impl; [exact Hall|].
  intros s Hs. apply iter_hashed_length; auto.
Qed.

(** [Digests] on a key of one fragment. *)
Lemma Digests_one_fragment (key : Trits) :
  never_fails kerl -> length key = signing.KeyFragmentLength ->
  signing.Digests kerl key
  = Returned (hashed kerl (concat (hashed_segments kerl key)), None,
              concat (hashed_segments kerl key)).
Proof.
  intros Hnf Hlen. destruct (segments_concat 27 key Hlen) as (Heq & Hsegs & Hall).
  destruct (hashed_segments_shape key Hnf Hlen) as [Hcount Hshape].
  unfold signing.Digests. rewrite Hlen.
  replace (signing.KeyFragmentLength / signing.KeyFragmentLength)%nat with 1%nat
    by (symmetry; apply Nat.div_same; discriminate).
  cbn [signing.Digests_fragments].
  rewrite (slice_all key) by (rewrite Hlen; unfold signing.KeyFragmentLength; lia).
  unfold mbind, signing.outcome_mbind. cbn [outcome_bind].
  destruct (Digests_segments_spec 27 Hnf 0 [] (segments 27 key) (replicate 243 0))
    as (buf' & Hrun & Hbuf'); auto.
  rewrite !app_nil_l in Hrun. rewrite <- Heq in Hrun. rewrite Hrun. cbn [outcome_bind].
  fold (hashed_segments kerl key).
  replace (drop ((0 + 1) * signing.KeyFragmentLength) key) with (@nil Z)
    by (symmetry; apply drop_ge; rewrite Hlen; lia).
  rewrite app_nil_r. change (take (0 * signing.KeyFragmentLength) key) with (@nil Z).
  rewrite app_nil_l.
  rewrite (absorbed _ (concat (hashed_segments kerl key)) Hnf)
    by (rewrite concat_length, Hcount by exact Hshape; reflexivity).
  unfold signing.HashSize. rewrite (squeezed _ Hnf).
  pose proof (put_each_middle 243 (0 * 243) [] (replicate 243 0) []
                (hashed kerl (concat (hashed_segments kerl key))) eq_refl
                (length_replicate _ _) (hashed_length _ Hnf)) as Hput.
  rewrite !app_nil_l, !app_nil_r in Hput.
  change (replicate (1 * 243) 0) with (replicate 243 0).
  change (0 * 243)%nat with 0%nat in Hput |- *.
  unfold hashed at 1 in Hput. rewrite Hput. reflexivity.
Qed.

(** [SignatureFragment] on a key fragment. *)
Lemma SignatureFragment_one_fragment (nbf keyFragment : Trits) :
  never_fails kerl -> resets kerl ->
  length keyFragment = signing.KeyFragmentLength ->
  (27 <= length nbf)%nat -> Forall tryte_range (take 27 nbf) ->
  signing.SignatureFragment kerl nbf keyFragment
  = Returned (concat (signed_segments kerl (take 27 nbf) keyFragment), None).
Proof.
  intros Hnf Hreset Hlen Hdigits Hrange.
  destruct (segments_concat 27 keyFragment Hlen) as (Heq & Hsegs & Hall).
  unfold signing.SignatureFragment.
  rewrite copy_same by (rewrite length_replicate; reflexivity).
  pose proof (SignatureFragment_segments_spec nbf 27 Hnf Hreset 0 []
                (segments 27 keyFragment) (take 27 nbf) (NewKerl kerl) eq_refl Hsegs Hall
                eq_refl) as Hrun.
  rewrite !app_nil_l in Hrun. rewrite <- Heq in Hrun. apply Hrun; [|exact Hrange].
  rewrite length_take. lia.
Qed.

(** X22.  With a sponge that works and that a reset makes new,
    [SignatureFragment] signs a key fragment of 6561 trits segment by
    segment: segment [i] of the signature is segment [i] of the key fragment
    hashed [13 - v] times, [v] being the digit at position [i].  For a digit
    13 the signature holds that segment of the key itself. *)
Theorem SignatureFragment_hashes_each_segment (nbf keyFragment : Trits) :
  never_fails kerl -> resets kerl ->
  length keyFragment = signing.KeyFragmentLength ->
  (27 <= length nbf)%nat -> Forall tryte_range (take 27 nbf) ->
  signing.SignatureFragment kerl nbf keyFragment
  = Returned (concat (signed_segments kerl (take 27 nbf) keyFragment), None) /\
  forall i segment,
    nbf !! i = Some 13 -> segments 27 keyFragment !! i = Some segment ->
    signed_segments kerl (take 27 nbf) keyFragment !! i = Some segment.
Proof.
  intros Hnf Hreset Hlen Hdigits Hrange.
  split; [apply SignatureFragment_one_fragment; assumption|].
  intros i segment Hdigit Hsegment.
  destruct (segments_concat 27 keyFragment Hlen) as (_ & Hsegs & _).
  assert (Hi : (i < 27)%nat) by (rewrite <- Hsegs; eapply lookup_lt_Some; exact Hsegment).
  unfold signed_segments. rewrite lookup_zip_with, lookup_take_lt by exact Hi.
  rewrite Hdigit, Hsegment. reflexivity.
Qed.

(** X23.  With a sponge that works, [Digests] on a key of one fragment
    overwrites the key it is given: when it returns, every segment of the key
    has been replaced by its 26-fold hash, and the digest is the hash of the
    key as it then is. *)
Theorem Digests_overwrites_key (key : Trits) :
  never_fails kerl -> length key = signing.KeyFragmentLength ->
  signing.Digests kerl key
  = Returned (hashed kerl (concat (hashed_segments kerl key)), None,
              concat (hashed_segments kerl key)) /\
  length (concat (hashed_segments kerl key)) = length key.
Proof.
  intros Hnf Hlen. split; [apply Digests_one_fragment; assumption|].
  destruct (hashed_segments_shape key Hnf Hlen) as [Hcount Hshape].
  rewrite concat_length, Hcount, Hlen by exact Hshape. reflexivity.
Qed.

Lemma fold_absorb_concat (b : Trits) (bs : list Trits) (k : sponge kerl) :
  absorbs_blockwise kerl ->
  Forall (fun s : Trits => length s = 243%nat) (b :: bs) ->
  fold_left (fun k b => (Absorb kerl k b).1) (b :: bs) k
  = (Absorb kerl k (concat (b :: bs))).1.
Proof.
  intros Hblock. revert b k. induction bs as [|b' bs IH]; intros b k Hall.
  - cbn [fold_left concat]. rewrite app_nil_r. reflexivity.
  - inversion Hall as [|? ? Hb Hrest]; subst.
    change (concat (b :: b' :: bs)) with (b ++ concat (b' :: bs)).
    rewrite Hblock by exact Hb. rewrite <- IH by exact Hrest. reflexivity.
Qed.

Lemma verify_rounds (vs : Trits) (segs : list Trits) :
  Forall tryte_range vs -> length vs = length segs ->
  zip_with (fun v s => Nat.iter (Z.to_nat (v + 13)) (hashed kerl) s) vs
    (zip_with (fun v s => Nat.iter (Z.to_nat (13 - v)) (hashed kerl) s) vs segs)
  = Nat.iter 26 (hashed kerl) <$> segs.
Proof.
  intros Hrange. revert segs. induction Hrange as [|v vs Hv Hvs IH]; intros segs Hlen.
  - destruct segs; [reflexivity | discriminate].
  - destruct segs as [|s segs]; [discriminate|].
    cbn [zip_with fmap list_fmap]. rewrite IH by (simpl in Hlen; lia).
    f_equal. rewrite <- Nat.iter_add. f_equal. unfold tryte_range in Hv. lia.
Qed.

Lemma signed_shape (vs : Trits) (segs : list Trits) :
  never_fails kerl -> Forall (fun s : Trits => length s = 243%nat) segs ->
  Forall (fun s : Trits => length s = 243%nat)
    (zip_with (fun v s => Nat.iter (Z.to_nat (13 - v)) (hashed kerl) s) vs segs).
Proof.
  intros Hnf Hall. revert vs. induction Hall as [|s segs Hs Hall IH]; intros vs.
  - destruct vs; constructor.
  - destruct vs as [|v vs]; [constructor|]. cbn [zip_with].
    constructor; [apply iter_hashed_length; assumption | apply IH].
Qed.

(** X24.  Signing and verifying agree.  With a sponge that works, that a
    reset makes new and that absorbs blockwise, the digest that [Digest]
    computes from the signature fragment of a key fragment, for digits
    between -13 and 13, is the digest that [Digests] computes from the key
    fragment. *)
Theorem Digest_of_signature_is_key_digest (nbf keyFragment : Trits) :
  never_fails kerl -> resets kerl -> absorbs_blockwise kerl ->
  length keyFragment = signing.KeyFragmentLength ->
  (27 <= length nbf)%nat -> Forall tryte_range (take 27 nbf) ->
  exists signature digest key',
    signing.SignatureFragment kerl nbf keyFragment = Returned (signature, None) /\
    signing.Digest kerl nbf signature = Returned (digest, None) /\
    signing.Digests kerl keyFragment = Returned (digest, None, key').
Proof.
  intros Hnf Hreset Hblock Hlen Hdigits Hrange.
  destruct (segments_concat 27 keyFragment Hlen) as (_ & Hsegs & Hall).
  destruct (hashed_segments_shape keyFragment Hnf Hlen) as [Hcount Hshape].
  assert (Hvs : length (take 27 nbf) = 27%nat) by (rewrite length_take; lia).
  exists (concat (signed_segments kerl (take 27 nbf) keyFragment)),
         (hashed kerl (concat (hashed_segments kerl keyFragment))),
         (concat (hashed_segments kerl keyFragment)).
  split; [apply SignatureFragment_one_fragment; assumption|].
  split; [|apply Digests_one_fragment; assumption].
  unfold signing.Digest.
  pose proof (Digest_segments_spec nbf 27 Hnf 0 []
                (signed_segments kerl (take 27 nbf) keyFragment) (take 27 nbf)
                (NewKerl kerl) (replicate 243 0) eq_refl) as Hrun.
  rewrite !app_nil_l in Hrun. rewrite Hrun; clear Hrun.
  - unfold signed_segments. rewrite verify_rounds by (rewrite ?Hsegs; auto).
    fold (hashed_segments kerl keyFragment).
    destruct (hashed_segments kerl keyFragment) as [|b bs] eqn:Hsegments;
      [discriminate|].
    rewrite fold_absorb_concat by assumption.
    rewrite (squeezed _ Hnf). reflexivity.
  - unfold signed_segments. rewrite length_zip_with. lia.
  - unfold signed_segments. apply signed_shape; assumption.
  - reflexivity.
  - exact Hvs.
  - exact Hrange.
  - apply length_replicate.
Qed.

(** *** Private keys *)




End Packages.

(** ** Concrete runs of the packages *)

(** A bundle hash of 81 nines. *)
Lemma NormalizedBundleHash_panics_on_short_hash_witness :
  exists msg, signing.NormalizedBundleHash Fixture.trinary (filler 81) = Panicked msg.
Proof.
  apply (NormalizedBundleHash_panics_on_short_hash Fixture.trinary (filler 81)).
  vm_compute. lia.
Defined.

Example NormalizedBundleHash_on_nines :
  signing.NormalizedBundleHash Fixture.trinary (filler 81) = Panicked index_range /\
  signing.ValidateSignatures Fixture.trinary Fixture.kerl (filler 81) [] (filler 81)
  = Panicked index_range /\
  signing.ValidateSignatures Fixture.trinary Fixture.kerl (filler 81) [] Fixture.long_hash
  = Panicked index_range.
Proof. repeat split; vm_compute; reflexivity. Qed.

(** A hash long enough for [NormalizedBundleHash] to return. *)
Lemma NormalizedBundleHash_chunks_sum_to_zero_witness :
  exists nb,
    signing.NormalizedBundleHash Fixture.trinary Fixture.long_hash = Returned nb /\
    exists c0 c1 c2,
      nb = (c0 ++ c1 ++ c2 ++ replicate 162 0)%list /\
      (length c0 = 27 /\ length c1 = 27 /\ length c2 = 27)%nat /\
      digit_sum c0 = 0 /\ digit_sum c1 = 0 /\ digit_sum c2 = 0 /\
      ((forall s trits, TrytesToTrits Fixture.trinary s = Returned trits ->
                        tryte_range (TritsToInt Fixture.trinary trits)) ->
       Forall tryte_range nb).
Proof.
  eexists. split; [vm_compute; reflexivity|].
  apply (NormalizedBundleHash_chunks_sum_to_zero Fixture.trinary Fixture.long_hash).
  vm_compute. reflexivity.
Defined.

(** The empty seed. *)
Lemma GenerateAddress_rejects_seed_length_witness :
  address.GenerateAddress Fixture.trinary Fixture.kerl Fixture.AddChecksum "" 0 2 []
  = Returned ("", Some ErrSeedTrytesLength).
Proof.
  apply (GenerateAddress_rejects_seed_length Fixture.trinary Fixture.kerl
           Fixture.AddChecksum "" 0 2 []).
  - reflexivity.
  - left. reflexivity.
Defined.

Example GenerateAddress_on_long_seed :
  address.GenerateAddress Fixture.trinary Fixture.kerl Fixture.AddChecksum (filler 82) 0 2 []
  = Returned ("", Some ErrSeedTrytesLength).
Proof. vm_compute. reflexivity. Qed.

(** Two addresses from the index 7 on. *)
Lemma GenerateAddresses_all_or_nothing_witness :
  (forall hs,
     address.GenerateAddresses Fixture.trinary Fixture.kerl Fixture.AddChecksum "SEED" 7 2 1
       [true] = Returned (hs, None) ->
     length hs = Z.to_nat 2 /\
     forall k a, hs !! k = Some a ->
       address.GenerateAddress Fixture.trinary Fixture.kerl Fixture.AddChecksum "SEED"
         (wrap64 (7 + Z.of_nat k)) 1 [first_flag [true]] = Returned (a, None)) /\
  (forall hs err,
     address.GenerateAddresses Fixture.trinary Fixture.kerl Fixture.AddChecksum "SEED" 7 2 1
       [true] = Returned (hs, Some err) ->
     hs = [] /\
     exists k a,
       (k < Z.to_nat 2)%nat /\
       address.GenerateAddress Fixture.trinary Fixture.kerl Fixture.AddChecksum "SEED"
         (wrap64 (7 + Z.of_nat k)) 1 [first_flag [true]] = Returned (a, Some err) /\
       forall k', (k' < k)%nat ->
         exists a',
           address.GenerateAddress Fixture.trinary Fixture.kerl Fixture.AddChecksum "SEED"
             (wrap64 (7 + Z.of_nat k')) 1 [first_flag [true]] = Returned (a', None)) /\
  ((forall k, (k < Z.to_nat 2)%nat ->
      exists a,
        address.GenerateAddress Fixture.trinary Fixture.kerl Fixture.AddChecksum "SEED"
          (wrap64 (7 + Z.of_nat k)) 1 [first_flag [true]] = Returned (a, None)) ->
   exists hs,
     address.GenerateAddresses Fixture.trinary Fixture.kerl Fixture.AddChecksum "SEED" 7 2 1
       [true] = Returned (hs, None)).
Proof.
  apply (GenerateAddresses_all_or_nothing Fixture.trinary Fixture.kerl Fixture.AddChecksum
           "SEED" 7 2 1 [true]).
  lia.
Defined.

(** An address of 90 trytes: A to I, nine times, then nine nines. *)
Lemma Checksum_returns_end_of_address_witness :
  ((String.length (String.append (Fixture.repeated 9 "ABCDEFGHI") (filler 9)) < 81)%nat ->
   address.Checksum Fixture.AddChecksum
     (String.append (Fixture.repeated 9 "ABCDEFGHI") (filler 9))
   = Returned ("", Some ErrInvalidAddressLength)) /\
  (forall r,
     (81 <= String.length (String.append (Fixture.repeated 9 "ABCDEFGHI") (filler 9)))%nat ->
     Fixture.AddChecksum
       (String.substring 0 81 (String.append (Fixture.repeated 9 "ABCDEFGHI") (filler 9)))
       true 9 = (r, None) ->
     address.Checksum Fixture.AddChecksum
       (String.append (Fixture.repeated 9 "ABCDEFGHI") (filler 9))
     = Returned (String.substring 72 9
                   (String.append (Fixture.repeated 9 "ABCDEFGHI") (filler 9)), None) /\
     forall checksum,
       address.ValidChecksum Fixture.AddChecksum
         (String.append (Fixture.repeated 9 "ABCDEFGHI") (filler 9)) checksum
       = Returned (if String.eqb checksum
                        (String.substring 72 9
                           (String.append (Fixture.repeated 9 "ABCDEFGHI") (filler 9)))
                   then None else Some ErrInvalidChecksum)).
Proof.
  apply (Checksum_returns_end_of_address Fixture.AddChecksum
           (String.append (Fixture.repeated 9 "ABCDEFGHI") (filler 9))).
  intros a r [= <-]. eexists. reflexivity.
Defined.

Example Checksum_of_address :
  address.Checksum Fixture.AddChecksum
    (String.append (Fixture.repeated 9 "ABCDEFGHI") (filler 9))
  = Returned ("ABCDEFGHI", None) /\
  address.ValidChecksum Fixture.AddChecksum
    (String.append (Fixture.repeated 9 "ABCDEFGHI") (filler 9)) "999999999"
  = Returned (Some ErrInvalidChecksum).
Proof. split; vm_compute; reflexivity. Qed.

(** The sponge of the examples works, a reset makes it new, and it absorbs
    blockwise. *)
Lemma example_sponge_never_fails : never_fails Fixture.kerl.
Proof.
  split; [|split]; [reflexivity.. |].
  intros k. unfold Fixture.kerl, Fixture.squeezed_trits. cbn [Squeeze fst].
  rewrite length_map, length_seq. reflexivity.
Qed.

Lemma example_sponge_resets : resets Fixture.kerl.
Proof. intros k. reflexivity. Qed.

Lemma example_sponge_absorbs_blockwise : absorbs_blockwise Fixture.kerl.
Proof. intros k a b _. simpl. rewrite app_assoc. reflexivity. Qed.

Lemma example_digits_in_range : Forall tryte_range (take 27 Fixture.digits).
Proof.
  apply Forall_forall. intros v Hv. apply elem_of_take in Hv as (i & Hv & _).
  unfold Fixture.digits in Hv. apply list_lookup_fmap_Some in Hv as (j & -> & Hj).
  apply lookup_seq in Hj as [-> Hj]. unfold tryte_range. lia.
Qed.

Lemma SignatureFragment_hashes_each_segment_witness :
  signing.SignatureFragment Fixture.kerl Fixture.digits Fixture.key_fragment
  = Returned (concat (signed_segments Fixture.kerl (take 27 Fixture.digits)
                        Fixture.key_fragment), None) /\
  forall i segment,
    Fixture.digits !! i = Some 13 ->
    segments 27 Fixture.key_fragment !! i = Some segment ->
    signed_segments Fixture.kerl (take 27 Fixture.digits) Fixture.key_fragment !! i
    = Some segment.
Proof.
  apply (SignatureFragment_hashes_each_segment Fixture.kerl Fixture.digits
           Fixture.key_fragment example_sponge_never_fails example_sponge_resets).
  - unfold Fixture.key_fragment. rewrite length_map, length_seq. reflexivity.
  - unfold Fixture.digits. rewrite length_map, length_seq. lia.
  - exact example_digits_in_range.
Defined.

Lemma Digests_overwrites_key_witness :
  signing.Digests Fixture.kerl Fixture.key_fragment
  = Returned (hashed Fixture.kerl (concat (hashed_segments Fixture.kerl Fixture.key_fragment)),
              None, concat (hashed_segments Fixture.kerl Fixture.key_fragment)) /\
  length (concat (hashed_segments Fixture.kerl Fixture.key_fragment))
  = length Fixture.key_fragment.
Proof.
  apply (Digests_overwrites_key Fixture.kerl Fixture.key_fragment example_sponge_never_fails).
  unfold Fixture.key_fragment. rewrite length_map, length_seq. reflexivity.
Defined.

Lemma Digest_of_signature_is_key_digest_witness :
  exists signature digest key',
    signing.SignatureFragment Fixture.kerl Fixture.digits Fixture.key_fragment
    = Returned (signature, None) /\
    signing.Digest Fixture.kerl Fixture.digits signature = Returned (digest, None) /\
    signing.Digests Fixture.kerl Fixture.key_fragment = Returned (digest, None, key').
Proof.
  apply (Digest_of_signature_is_key_digest Fixture.kerl Fixture.digits Fixture.key_fragment
           example_sponge_never_fails example_sponge_resets example_sponge_absorbs_blockwise).
  - unfold Fixture.key_fragment. rewrite length_map, length_seq. reflexivity.
  - unfold Fixture.digits. rewrite length_map, length_seq. lia.
  - exact example_digits_in_range.
Defined.
